(** * The WebSocket hub of the CBA Lite backend (package [websocket])

    A shallow embedding of [hub.go] and [client.go]: the client registry,
    the room index, the per-client outbound queue, the dispatcher of the
    read pump and the presence envelopes.

    Go values are modelled as follows.
    - [*Client] is an address into a heap of [Client] records; two clients
      are the same client when their addresses are equal (the room index
      [map[*Client]bool] is keyed by the pointer, not by [Client.ID]).
    - [map[string]bool] / [map[*Client]bool] whose entries are only ever set
      to [true] are finite sets ([gset]); [map[string]*Client] is a [gmap].
    - a buffered channel is its buffer, its capacity and its closed flag.
    - a function body is a computation in a small monad over the state,
      whose outcomes are: returned, parked on a channel send that cannot
      proceed, or panicked.
    - [json.Marshal], [json.Unmarshal] and the order in which [range]
      visits a map are library/runtime behaviour and are parameters.
    - the mutex [h.mu] serializes the hub operations, so each one is a
      single step on the state; an operation parked on a send inside the
      lock keeps the lock.
    - the write pump is one pass over a client's queue, with the answers
      of the socket as parameters; the socket itself is outside the
      model. *)

From stdpp Require Import gmap strings list fin_maps.
From Stdlib Require Import ZArith Ascii.

#[local] Set Warnings "-clear-no-such-hyp".

Open Scope string_scope.
Open Scope list_scope.
Open Scope stdpp_scope.

(** ** Data model *)

Abbreviation ptr := nat (only parsing).
Abbreviation Time := Z (only parsing).

(** [interface{}] payloads, as JSON values. *)
#[local] Set Warnings "-register-all".
Inductive Value : Type :=
| VNull
| VBool (b : bool)
| VNum (n : Z)
| VStr (s : string)
| VList (l : list Value)
| VMap (kv : list (string * Value)).

Module Message.
Record t : Type := mk {
  Type_ : string;
  Room : string;
  UserID : string;
  Data : Value;
  Timestamp : Time
}.
End Message.
Abbreviation Message := Message.t.

Definition MessageTypeChat : string := "chat".
Definition MessageTypeTaskUpdate : string := "task_update".
Definition MessageTypeUserStatus : string := "user_status".
Definition MessageTypeNotification : string := "notification".
Definition MessageTypeTyping : string := "typing".
Definition MessageTypePresence : string := "presence".

(** [chan []byte]: the frames waiting in the buffer (oldest first), the
    capacity given to [make], and whether [close] has been called. *)
Record Chan : Type := mkChan {
  buf : list string;
  cap : nat;
  closed : bool
}.

Definition make_chan (n : nat) : Chan := {| buf := []; cap := n; closed := false |}.

Definition chan_push (data : string) (ch : Chan) : Chan :=
  {| buf := buf ch ++ [data]; cap := cap ch; closed := closed ch |}.

Definition chan_close (ch : Chan) : Chan :=
  {| buf := buf ch; cap := cap ch; closed := true |}.

Record Client : Type := mkClient {
  ID : string;
  UserID : string;
  TeamID : string;
  Send : Chan;
  Rooms : gset string
}.

Inductive LogEntry : Type :=
| LogDebug (text : string)
| LogInfo (text : string)
| LogWarn (text : string)
| LogError (text : string).

(** The [Hub] struct together with the heap its [*Client] values point
    into.  [broadcast] is the buffer of the [chan *Message] made with
    capacity 256; [register] and [unregister] are unbuffered and carry no
    state; [logger] is the list of lines written so far. *)
Record State : Type := mkState {
  heap : gmap nat Client;
  clients : gmap string nat;
  rooms : gmap string (gset nat);
  broadcast : list Message;
  logger : list LogEntry
}.

Definition broadcastCap : nat := 256.

(** [NewHub]: empty registry, empty room index, empty broadcast buffer. *)
Definition NewHub : State :=
  {| heap := ∅; clients := ∅; rooms := ∅; broadcast := []; logger := [] |}.

Definition with_heap (f : gmap nat Client → gmap nat Client) (st : State) : State :=
  {| heap := f (heap st); clients := clients st; rooms := rooms st;
     broadcast := broadcast st; logger := logger st |}.

Definition with_clients (f : gmap string nat → gmap string nat) (st : State) : State :=
  {| heap := heap st; clients := f (clients st); rooms := rooms st;
     broadcast := broadcast st; logger := logger st |}.

Definition with_rooms (f : gmap string (gset nat) → gmap string (gset nat)) (st : State) : State :=
  {| heap := heap st; clients := clients st; rooms := f (rooms st);
     broadcast := broadcast st; logger := logger st |}.

Definition with_broadcast (f : list Message → list Message) (st : State) : State :=
  {| heap := heap st; clients := clients st; rooms := rooms st;
     broadcast := f (broadcast st); logger := logger st |}.

Definition with_logger (f : list LogEntry → list LogEntry) (st : State) : State :=
  {| heap := heap st; clients := clients st; rooms := rooms st;
     broadcast := broadcast st; logger := f (logger st) |}.

Definition set_Send (ch : Chan) (cl : Client) : Client :=
  {| ID := ID cl; UserID := UserID cl; TeamID := TeamID cl; Send := ch; Rooms := Rooms cl |}.

Definition set_Rooms (rs : gset string) (cl : Client) : Client :=
  {| ID := ID cl; UserID := UserID cl; TeamID := TeamID cl; Send := Send cl; Rooms := rs |}.

Definition set_Room (r : string) (m : Message) : Message :=
  {| Message.Type_ := Message.Type_ m; Message.Room := r;
     Message.UserID := Message.UserID m; Message.Data := Message.Data m;
     Message.Timestamp := Message.Timestamp m |}.

Definition set_UserID (u : string) (m : Message) : Message :=
  {| Message.Type_ := Message.Type_ m; Message.Room := Message.Room m;
     Message.UserID := u; Message.Data := Message.Data m;
     Message.Timestamp := Message.Timestamp m |}.

Definition set_Timestamp (t : Time) (m : Message) : Message :=
  {| Message.Type_ := Message.Type_ m; Message.Room := Message.Room m;
     Message.UserID := Message.UserID m; Message.Data := Message.Data m;
     Message.Timestamp := t |}.

(** The member set of a room; a room with no entry in the index has no
    members ([h.rooms[room]] is the nil map). *)
Definition members (st : State) (room : string) : gset nat :=
  default ∅ (rooms st !! room).

(** ** What the Go runtime and [encoding/json] contribute *)

Class Runtime : Type := mkRuntime {
  (** [json.Marshal(message)]; [None] when it returns an error. *)
  marshal : Message → option string;
  (** [json.Unmarshal(frame, &msg)] into a zero [Message]. *)
  unmarshal : string → option Message;
  (** the order in which a [range] loop visits the entries of a map:
      unspecified by the language, so any rearrangement. *)
  range : ∀ A : Type, list A → list A;
  range_perm : ∀ (A : Type) (l : list A), range A l ≡ₚ l
}.
Arguments range {_ _} _.

(** ** The monad of function bodies *)

Inductive Res (A : Type) : Type :=
| Ret (a : A) (st : State)
| Block (st : State)
| Panic (why : string).
Arguments Ret {A} a st.
Arguments Block {A} st.
Arguments Panic {A} why.

Definition M (A : Type) : Type := State → Res A.

Definition ret {A} (a : A) : M A := λ st, Ret a st.

Definition bind {A B} (m : M A) (k : A → M B) : M B :=
  λ st, match m st with
        | Ret a st' => k a st'
        | Block st' => Block st'
        | Panic why => Panic why
        end.

Notation "'do' x <- m ; k" := (bind m (λ x, k))
  (at level 10, x name, m at level 100, k at level 200).
Notation "m ;; k" := (bind m (λ _, k))
  (at level 100, k at level 200, right associativity).

Definition get : M State := λ st, Ret st st.
Definition modify (f : State → State) : M unit := λ st, Ret tt (f st).
Definition panic {A} (why : string) : M A := λ _, Panic why.
Definition block {A} : M A := λ st, Block st.

(** [for _, x := range xs { body(x) }] over the visiting order [xs]. *)
Fixpoint for_each {A} (xs : list A) (body : A → M unit) : M unit :=
  match xs with
  | [] => ret tt
  | x :: xs' => body x ;; for_each xs' body
  end.

(** Reading a field through a [*Client]. *)
Definition deref (client : nat) : M Client :=
  λ st, match heap st !! client with
        | Some cl => Ret cl st
        | None => Panic "invalid memory address or nil pointer dereference"
        end.

Definition update (client : nat) (f : Client → Client) : M unit :=
  modify (with_heap (λ h, match h !! client with
                          | Some cl => <[client := f cl]> h
                          | None => h
                          end)).

Definition logf (e : LogEntry) : M unit :=
  modify (with_logger (λ l, l ++ [e])).

(** ** Channel operations *)

(** [close(client.Send)]: closing a closed channel panics. *)
Definition close_Send (client : nat) : M unit :=
  do cl <- deref client;
  if closed (Send cl) then panic "close of closed channel"
  else update client (set_Send (chan_close (Send cl))).

(** [select { case client.Send <- data: default: Warnf(...) }]: the send
    proceeds when the buffer has room, panics on a closed channel, and the
    default branch runs when the buffer is full. *)
Definition offer (data : string) (client : nat) : M unit :=
  do cl <- deref client;
  if closed (Send cl) then panic "send on closed channel"
  else if decide (length (buf (Send cl)) < cap (Send cl))
  then update client (set_Send (chan_push data (Send cl)))
  else logf (LogWarn ("Client " +:+ ID cl +:+ " send channel is full, dropping message")).

(** [h.broadcast <- message]: a blocking send on the buffered channel. *)
Definition send_broadcast (message : Message) : M unit :=
  do st <- get;
  if decide (length (broadcast st) < broadcastCap)
  then modify (with_broadcast (λ q, q ++ [message]))
  else block.

(** ** hub.go *)

Definition joinRoom (client : nat) (room : string) : M unit :=
  do cl <- deref client;
  modify (with_rooms (λ rs, <[room := {[client]} ∪ default ∅ (rs !! room)]> rs));;
  update client (λ c, set_Rooms ({[room]} ∪ Rooms c) c);;
  logf (LogDebug ("Client " +:+ ID cl +:+ " joined room " +:+ room)).

Definition leaveRoom (client : nat) (room : string) : M unit :=
  do cl <- deref client;
  modify (with_rooms (λ rs,
    match rs !! room with
    | Some s =>
        let s' := s ∖ {[client]} in
        if decide (size s' = 0) then delete room rs else <[room := s']> rs
    | None => rs
    end));;
  update client (λ c, set_Rooms (Rooms c ∖ {[room]}) c);;
  logf (LogDebug ("Client " +:+ ID cl +:+ " left room " +:+ room)).

Definition presenceMessage (cl : Client) (online : bool) (now : Time) : Message :=
  let status := if online then "online" else "offline" in
  let message :=
    {| Message.Type_ := MessageTypePresence;
       Message.Room := "";
       Message.UserID := UserID cl;
       Message.Data := VMap [("status", VStr status)];
       Message.Timestamp := now |} in
  if decide (TeamID cl ≠ "") then set_Room ("team:" +:+ TeamID cl) message else message.

Definition sendPresenceUpdate (client : nat) (online : bool) (now : Time) : M unit :=
  do cl <- deref client;
  send_broadcast (presenceMessage cl online now).

Section Hub.
Context `{RT : Runtime}.

Definition registerClient (client : nat) (now : Time) : M unit :=
  do cl <- deref client;
  modify (with_clients <[ID cl := client]>);;
  logf (LogInfo ("Client registered: " +:+ ID cl +:+ " (User: " +:+ UserID cl +:+ ")"));;
  joinRoom client "global";;
  (if decide (TeamID cl ≠ "") then joinRoom client ("team:" +:+ TeamID cl) else ret tt);;
  sendPresenceUpdate client true now.

Definition unregisterClient (client : nat) (now : Time) : M unit :=
  do cl <- deref client;
  do st <- get;
  match clients st !! ID cl with
  | Some _ =>
      modify (with_clients (delete (ID cl)));;
      close_Send client;;
      for_each (range (elements (Rooms cl))) (leaveRoom client);;
      logf (LogInfo ("Client unregistered: " +:+ ID cl +:+ " (User: " +:+ UserID cl +:+ ")"));;
      sendPresenceUpdate client false now
  | None => ret tt
  end.

Definition broadcastMessage (message : Message) : M unit :=
  match marshal message with
  | None => logf (LogError "Failed to marshal message")
  | Some data =>
      do st <- get;
      if decide (Message.Room message ≠ "")
      then match rooms st !! Message.Room message with
           | Some cs => for_each (range (elements cs)) (offer data)
           | None => ret tt
           end
      else for_each (range (map_to_list (clients st))) (λ kv, offer data kv.2)
  end.

Definition SendToUser (userID : string) (message : Message) : M unit :=
  match marshal message with
  | None => logf (LogError "Failed to marshal message")
  | Some data =>
      do st <- get;
      for_each (range (map_to_list (clients st)))
        (λ kv, do cl <- deref kv.2;
               if decide (UserID cl = userID) then offer data kv.2 else ret tt)
  end.

Definition SendToTeam (teamID : string) (message : Message) : M unit :=
  send_broadcast (set_Room ("team:" +:+ teamID) message).

(** [GetOnlineUsers]: the distinct user IDs of the members of the team
    room (a set: the result slice is built by ranging over a map). *)
Definition GetOnlineUsers (teamID : string) (st : State) : gset string :=
  match rooms st !! ("team:" +:+ teamID) with
  | Some cs =>
      list_to_set (omap (λ c, UserID <$> heap st !! c) (elements cs))
  | None => ∅
  end.

(** One turn of [Run] that takes the [<-h.broadcast] case: receive the
    oldest queued envelope and deliver it. *)
Definition Run_broadcast : M unit :=
  do st <- get;
  match broadcast st with
  | [] => block
  | message :: q => modify (with_broadcast (λ _, q));; broadcastMessage message
  end.

(** ** client.go *)

Definition handleChatMessage (c : nat) (msg : Message) : M unit :=
  do cl <- deref c;
  let msg := if decide (Message.Room msg = "") then set_Room ("team:" +:+ TeamID cl) msg else msg in
  send_broadcast msg.

Definition handleTaskUpdate (c : nat) (msg : Message) : M unit :=
  do cl <- deref c;
  send_broadcast (set_Room ("team:" +:+ TeamID cl) msg).

Definition handleTypingIndicator (c : nat) (msg : Message) : M unit :=
  do cl <- deref c;
  send_broadcast (set_Room ("team:" +:+ TeamID cl) msg).

Definition handleMessage (c : nat) (msg : Message) : M unit :=
  if decide (Message.Type_ msg = MessageTypeChat) then handleChatMessage c msg
  else if decide (Message.Type_ msg = MessageTypeTaskUpdate) then handleTaskUpdate c msg
  else if decide (Message.Type_ msg = MessageTypeTyping) then handleTypingIndicator c msg
  else logf (LogWarn ("Unknown message type: " +:+ Message.Type_ msg)).

(** One iteration of the [for] loop of [ReadPump] on a frame that
    [ReadMessage] returned without error, read at server time [now]. *)
Definition ReadPump_frame (c : nat) (now : Time) (frame : string) : M unit :=
  match unmarshal frame with
  | None => logf (LogError "Failed to unmarshal message")
  | Some msg =>
      do cl <- deref c;
      let msg := set_UserID (UserID cl) msg in
      let msg := set_Timestamp now msg in
      handleMessage c msg
  end.

(** [ReadPump]: the frames read before [ReadMessage] fails, then the
    deferred [c.Hub.unregister <- c], which [Run] serves with
    [unregisterClient]. *)
Definition ReadPump (c : nat) (frames : list (Time * string)) (tclose : Time) : M unit :=
  for_each frames (λ tf, ReadPump_frame c tf.1 tf.2);;
  unregisterClient c tclose.

(** [websocketHandler]: a fresh [Client] with a 256-frame queue and an
    empty room set, handed to [Register]. *)
Definition websocketHandler (clientID userID teamID : string) (now : Time) : M nat :=
  do st <- get;
  let client := fresh (dom (heap st)) in
  modify (with_heap <[client := {| ID := clientID; UserID := userID; TeamID := teamID;
                                   Send := make_chan 256; Rooms := ∅ |}]>);;
  registerClient client now;;
  ret client.

End Hub.

(** A concrete runtime, for running the model on examples: an envelope is
    serialized as [type|room|user_id], a frame of that shape is parsed back
    with the remaining fields zero, and [range] visits a map in the order
    of [elements]. *)
Definition demoMarshal (m : Message) : option string :=
  Some (Message.Type_ m +:+ "|" +:+ Message.Room m +:+ "|" +:+ Message.UserID m).

Fixpoint split_bar (s : string) : string * string :=
  match s with
  | EmptyString => (EmptyString, EmptyString)
  | String a s' =>
      if decide (a = "|"%char) then (EmptyString, s')
      else let '(x, y) := split_bar s' in (String a x, y)
  end.

Definition demoUnmarshal (frame : string) : option Message :=
  let '(ty, rest) := split_bar frame in
  let '(room, user) := split_bar rest in
  if decide (ty = "") then None
  else Some {| Message.Type_ := ty; Message.Room := room; Message.UserID := user;
               Message.Data := VNull; Message.Timestamp := 0%Z |}.

Definition demoRuntime : Runtime :=
  {| marshal := demoMarshal; unmarshal := demoUnmarshal;
     range := λ _ l, l; range_perm := λ _ l, reflexivity l |}.

(** ** Outcomes and invariants *)

(** [leaves m st st']: running [m] from [st] leaves the hub in [st'],
    either because [m] returned or because it is parked on a send. *)
Definition leaves {A} (m : M A) (st st' : State) : Prop :=
  (∃ a, m st = Ret a st') ∨ m st = Block st'.

Definition preserves {A} (I : State → Prop) (m : M A) : Prop :=
  ∀ st st', I st → leaves m st st' → I st'.

(** The bidirectional agreement of the room index with the clients' room
    sets, for every client object and every room name. *)
Definition rooms_agree (st : State) : Prop :=
  ∀ c cl r, heap st !! c = Some cl → (c ∈ members st r ↔ r ∈ Rooms cl).

(** A client is registered when the registry has an entry under its ID:
    the test [_, ok := h.clients[client.ID]] of [unregisterClient]. *)
Definition registered (st : State) (cl : Client) : Prop :=
  is_Some (clients st !! ID cl).

(** The clients a broadcast of [message] is addressed to. *)
Definition recipients (st : State) (message : Message) : gset nat :=
  if decide (Message.Room message ≠ "") then members st (Message.Room message)
  else list_to_set (map_to_list (clients st)).*2.

(** Every client of [R] is a live object whose queue has not been closed. *)
Definition ready (st : State) (R : gset nat) : Prop :=
  ∀ p, p ∈ R → ∃ cl, heap st !! p = Some cl ∧ closed (Send cl) = false.

(** No client is registered under two IDs. *)
Definition registry_inj (st : State) : Prop :=
  ∀ i j p, clients st !! i = Some p → clients st !! j = Some p → i = j.

Definition has_room (cl : Client) : Prop :=
  length (buf (Send cl)) < cap (Send cl).

(** The client after one successful or dropped enqueue of [data]. *)
Definition enqueue (data : string) (cl : Client) : Client :=
  if decide (has_room cl)
  then set_Send (chan_push data (Send cl)) cl
  else cl.

Definition full_warning (cl : Client) : LogEntry :=
  LogWarn ("Client " +:+ ID cl +:+ " send channel is full, dropping message").

(** ** The states the operations compute *)

(** The state after [joinRoom] of the client at [c], whose record is [cl]. *)
Definition joined (c : nat) (room : string) (cl : Client) (st : State) : State :=
  {| heap := <[c := set_Rooms ({[room]} ∪ Rooms cl) cl]> (heap st);
     clients := clients st;
     rooms := <[room := {[c]} ∪ members st room]> (rooms st);
     broadcast := broadcast st;
     logger := logger st ++ [LogDebug ("Client " +:+ ID cl +:+ " joined room " +:+ room)] |}.

(** The room index after [leaveRoom]: the client is removed from the
    room's member set, and the room is deleted when that leaves it empty. *)
Definition left_rooms (c : nat) (room : string) (rs : gmap string (gset nat)) : gmap string (gset nat) :=
  match rs !! room with
  | Some s =>
      let s' := s ∖ {[c]} in
      if decide (size s' = 0) then delete room rs else <[room := s']> rs
  | None => rs
  end.

(** The state after [leaveRoom] of the client at [c], whose record is [cl]. *)
Definition left (c : nat) (room : string) (cl : Client) (st : State) : State :=
  {| heap := <[c := set_Rooms (Rooms cl ∖ {[room]}) cl]> (heap st);
     clients := clients st;
     rooms := left_rooms c room (rooms st);
     broadcast := broadcast st;
     logger := logger st ++ [LogDebug ("Client " +:+ ID cl +:+ " left room " +:+ room)] |}.

(** The state after one [select] send of [data] to the client at [c]. *)
Definition offered (data : string) (c : nat) (cl : Client) (st : State) : State :=
  if decide (has_room cl)
  then with_heap <[c := enqueue data cl]> st
  else with_logger (λ l, l ++ [full_warning cl]) st.

(** The effect of offering [data] once to each client of [xs]. *)
Definition delivered (data : string) (xs : list nat) (st st' : State) : Prop :=
  clients st' = clients st ∧ rooms st' = rooms st ∧ broadcast st' = broadcast st ∧
  (∀ p, heap st' !! p =
        if decide (p ∈ xs) then enqueue data <$> heap st !! p else heap st !! p) ∧
  (∀ e, e ∈ logger st' ↔
        e ∈ logger st ∨
        ∃ p cl, p ∈ xs ∧ heap st !! p = Some cl ∧ ¬ has_room cl ∧ e = full_warning cl).

(** The state in which [registerClient] reaches its presence update. *)
Definition registered_in (c : nat) (cl : Client) (st : State) : State :=
  let s1 := with_logger
              (λ l, l ++ [LogInfo ("Client registered: " +:+ ID cl +:+ " (User: " +:+ UserID cl +:+ ")")])
              (with_clients <[ID cl := c]> st) in
  let s2 := joined c "global" cl s1 in
  if decide (TeamID cl ≠ "")
  then joined c ("team:" +:+ TeamID cl) (set_Rooms ({["global"]} ∪ Rooms cl) cl) s2
  else s2.

(** The client after [close(client.Send)]. *)
Definition closed_Send (cl : Client) : Client :=
  set_Send (chan_close (Send cl)) cl.

(** The loop [for room := range client.Rooms { h.leaveRoom(client, room) }]
    after the rooms [done], started in [s0] where the client is [cl0]. *)
Definition leaving (c : nat) (cl0 : Client) (s0 : State) (done : list string) (s : State) : Prop :=
  clients s = clients s0 ∧ broadcast s = broadcast s0 ∧
  heap s = <[c := set_Rooms (Rooms cl0 ∖ list_to_set done) cl0]> (heap s0) ∧
  (∀ r, members s r = if decide (r ∈ done) then members s0 r ∖ {[c]} else members s0 r).

(** [same_index st st']: the registry, the room index and every client's
    room set are in [st'] what they are in [st]. *)
Definition same_index (st st' : State) : Prop :=
  clients st' = clients st ∧ rooms st' = rooms st ∧
  (∀ r, members st' r = members st r) ∧
  (∀ p : nat, Rooms <$> heap st' !! p = Rooms <$> heap st !! p).

(** The clients of the registry. *)
Definition registry_clients (st : State) : gset nat :=
  list_to_set (map_to_list (clients st)).*2.

(** The client at [p] belongs to user [userID]. *)
Definition is_user (st : State) (userID : string) (p : nat) : Prop :=
  UserID <$> heap st !! p = Some userID.

#[global] Instance is_user_dec st userID p : Decision (is_user st userID p).
Proof. unfold is_user. apply _. Defined.

(** [rooms_agree] and [ready] checked on the finitely many rooms and
    clients of a state. *)
Definition rooms_agree_at (st : State) (c : nat) (cl : Client) : Prop :=
  set_Forall (λ r, c ∈ members st r ↔ r ∈ Rooms cl) (dom (rooms st) ∪ Rooms cl).

Definition ready_at (st : State) (p : nat) : Prop :=
  closed ∘ Send <$> heap st !! p = Some false.

#[global] Instance ready_at_dec st p : Decision (ready_at st p).
Proof. unfold ready_at. apply _. Defined.

(** [cl'] is [cl] up to the contents of its queue. *)
Definition same_identity (cl cl' : Client) : Prop :=
  ID cl' = ID cl ∧ Rooms cl' = Rooms cl ∧ closed (Send cl') = closed (Send cl).

(** The states the hub is in when connections are created by
    [websocketHandler] with distinct IDs: the room index agrees with the
    room sets, the registry is keyed by the clients' IDs, and every client
    in the registry or in a room is a live object with an open queue. *)
Record hub_wf (st : State) : Prop := mk_hub_wf {
  wf_agree : rooms_agree st;
  wf_registry : ∀ i p, clients st !! i = Some p → ∃ cl, heap st !! p = Some cl ∧ ID cl = i;
  wf_ids : ∀ p q clp clq,
      heap st !! p = Some clp → heap st !! q = Some clq → ID clp = ID clq → p = q;
  wf_registry_ready : ready st (registry_clients st);
  wf_members_ready : ∀ r, ready st (members st r)
}.

(** The state in which [unregisterClient] reaches its presence update. *)
Definition unregistering (c : nat) (cl : Client) (st s : State) : Prop :=
  clients s = delete (ID cl) (clients st) ∧
  broadcast s = broadcast st ∧
  heap s = <[c := set_Rooms ∅ (closed_Send cl)]> (heap st) ∧
  (∀ r, members s r =
        if decide (r ∈ Rooms cl) then members st r ∖ {[c]} else members st r).

(** ** A hub with four connections *)

(** alice and bob are in team T1, carol in team T2, dave has no team;
    alice's one-frame queue is full. *)
Definition alice : Client :=
  {| ID := "c1"; UserID := "u1"; TeamID := "T1";
     Send := {| buf := ["old"]; cap := 1; closed := false |};
     Rooms := {["global"; "team:T1"]} |}.

Definition bob : Client :=
  {| ID := "c2"; UserID := "u2"; TeamID := "T1";
     Send := make_chan 256; Rooms := {["global"; "team:T1"]} |}.

Definition carol : Client :=
  {| ID := "c3"; UserID := "u3"; TeamID := "T2";
     Send := make_chan 256; Rooms := {["global"; "team:T2"]} |}.

Definition dave : Client :=
  {| ID := "c4"; UserID := "anonymous"; TeamID := "";
     Send := make_chan 256; Rooms := {["global"]} |}.

Definition demo_hub : State :=
  {| heap := {[ 0 := alice; 1 := bob; 2 := carol; 3 := dave ]};
     clients := {[ "c1" := 0; "c2" := 1; "c3" := 2; "c4" := 3 ]};
     rooms := {[ "global" := {[ 0; 1; 2; 3 ]}; "team:T1" := {[ 0; 1 ]}; "team:T2" := {[ 2 ]} ]};
     broadcast := [];
     logger := [] |}.

(** A connection that has been accepted but not yet registered. *)
Definition eve : Client :=
  {| ID := "c5"; UserID := "u5"; TeamID := "T1"; Send := make_chan 256; Rooms := ∅ |}.

Definition demo_accepted : State := with_heap <[ 4 := eve ]> demo_hub.

Definition chat_T1 : Message :=
  {| Message.Type_ := "chat"; Message.Room := "team:T1"; Message.UserID := "u2";
     Message.Data := VStr "hello"; Message.Timestamp := 7%Z |}.

Definition chat_no_room : Message :=
  {| Message.Type_ := "chat"; Message.Room := ""; Message.UserID := "anonymous";
     Message.Data := VStr "hello"; Message.Timestamp := 7%Z |}.

Definition typing_channel7 : Message :=
  {| Message.Type_ := "typing"; Message.Room := "channel:7"; Message.UserID := "u2";
     Message.Data := VMap [("is_typing", VBool true)]; Message.Timestamp := 7%Z |}.

(** A chat envelope for a room nobody has joined. *)
Definition chat_channel9 : Message :=
  {| Message.Type_ := "chat"; Message.Room := "channel:9"; Message.UserID := "u2";
     Message.Data := VStr "hello"; Message.Timestamp := 7%Z |}.

(** The hub after [chat_T1] has been broadcast. *)
Definition demo_after_chat : State :=
  match broadcastMessage (RT := demoRuntime) chat_T1 demo_hub with
  | Ret _ s => s
  | _ => demo_hub
  end.

(** ** Further notions: rooms, the read loop, the write pump, tokens *)

(** Every room of the index has a member: rooms are created by the first
    join and deleted by the last leave. *)
Definition no_empty_rooms (st : State) : Prop :=
  ∀ r s, rooms st !! r = Some s → s ≠ ∅.

(** The room index has no entry for "team:", the room name that
    ["team:" + c.TeamID] gives for an empty team ID. *)
Definition no_teamless_room (st : State) : Prop :=
  rooms st !! "team:" = None.

(** The rooms [registerClient] joins a client to. *)
Definition default_rooms (cl : Client) : gset string :=
  {["global"]} ∪ (if decide (TeamID cl ≠ "") then {["team:" +:+ TeamID cl]} else ∅).

(** The envelope the read pump hands to the dispatcher: the decoded
    envelope with the connection's user ID and the time of receipt. *)
Definition stamped (cl : Client) (now : Time) (msg : Message) : Message :=
  set_Timestamp now (set_UserID (UserID cl) msg).

(** The envelope [handleMessage] puts on the broadcast channel for [msg],
    if any. *)
Definition routed (cl : Client) (msg : Message) : option Message :=
  if decide (Message.Type_ msg = MessageTypeChat)
  then Some (if decide (Message.Room msg = "")
             then set_Room ("team:" +:+ TeamID cl) msg else msg)
  else if decide (Message.Type_ msg = MessageTypeTaskUpdate)
  then Some (set_Room ("team:" +:+ TeamID cl) msg)
  else if decide (Message.Type_ msg = MessageTypeTyping)
  then Some (set_Room ("team:" +:+ TeamID cl) msg)
  else None.

Section Forwarded.
Context `{RT : Runtime}.

(** What one inbound frame, read at a given time, contributes to the
    broadcast channel. *)
Definition forwarded (cl : Client) (tf : Time * string) : option Message :=
  match unmarshal tf.2 with
  | Some msg => routed cl (stamped cl tf.1 msg)
  | None => None
  end.

End Forwarded.

(** ** client.go: the write pump and [SendMessage] *)

Definition chan_set_buf (q : list string) (ch : Chan) : Chan :=
  {| buf := q; cap := cap ch; closed := closed ch |}.

(** What one pass through the [case message, ok := <-c.Send] branch of
    [WritePump] did. *)
Inductive WriteResult : Type :=
| WroteText (payload : string)
| WroteClose
| WriteFailed.

(** The one byte [w.Write([]byte{'\n'})] writes between two frames: the
    line feed, character 10. *)
Definition newline : string := String (ascii_of_nat 10) EmptyString.

(** The bytes of one text message: [w.Write(message)] followed, for each
    further queued frame, by the line feed and [w.Write(frame)]. *)
Definition coalesce (message : string) (queued : list string) : string :=
  foldl (λ w frame, w +:+ newline +:+ frame) message queued.

(** One pass through the receive branch.  With a frame in the buffer the
    pump takes it and the [n := len(c.Send)] frames behind it and writes
    them as one message (frames that arrive afterwards wait for the next
    pass); with an empty buffer it waits, or, when the channel is closed,
    writes the close message and returns.  [writer_ok] and [close_ok] say
    whether [NextWriter] and [w.Close] succeed on the socket. *)
Definition WritePump_recv (c : nat) (writer_ok close_ok : bool) : M WriteResult :=
  do cl <- deref c;
  match buf (Send cl) with
  | [] => if closed (Send cl) then ret WroteClose else block
  | message :: queued =>
      if writer_ok
      then update c (set_Send (chan_set_buf [] (Send cl)));;
           ret (if close_ok then WroteText (coalesce message queued) else WriteFailed)
      else update c (set_Send (chan_set_buf queued (Send cl)));;
           ret WriteFailed
  end.

Inductive SendError : Type :=
| ErrMarshal
| ErrCloseSent.

Section ClientSend.
Context `{RT : Runtime}.

(** [Client.SendMessage], for an envelope as the message: the error of
    [json.Marshal], or a non-blocking send that reports a full queue as
    [websocket.ErrCloseSent]. *)
Definition SendMessage (c : nat) (message : Message) : M (option SendError) :=
  match marshal message with
  | None => ret (Some ErrMarshal)
  | Some data =>
      do cl <- deref c;
      if closed (Send cl) then panic "send on closed channel"
      else if decide (length (buf (Send cl)) < cap (Send cl))
      then update c (set_Send (chan_push data (Send cl)));; ret None
      else ret (Some ErrCloseSent)
  end.

End ClientSend.

(** ** The steps of the hub *)

Section Steps.
Context `{RT : Runtime}.

(** What the running server does to the hub, one completed operation at a
    time: a connection is accepted with an ID no live client carries (a
    fresh UUID) and registered; a client is unregistered; [Run] delivers
    the oldest queued envelope; a read pump handles a frame; a write pump
    makes a pass over its queue; the application sends to a user, to a
    team or to one client; a client leaves a room.

    A step is an operation that has returned.  [registerClient] and
    [unregisterClient] run on the goroutine of [Run] with [h.mu] held, and
    [Run] is the only receiver of [h.broadcast]: when their presence send
    finds the channel full, the hub is parked for good with the lock
    taken, and nothing that locks [h.mu] runs after it.  A send from a
    read pump or from [SendToTeam] that finds the channel full holds no
    lock and has changed nothing; it is the same step taken later.
    [broadcastMessage] and [SendToUser] take the read lock only and could
    overlap; here they are taken one after the other. *)
Inductive server_step : State → State → Prop :=
| step_accept st clientID userID teamID now c st' :
    (∀ q clq, heap st !! q = Some clq → ID clq ≠ clientID) →
    websocketHandler clientID userID teamID now st = Ret c st' →
    server_step st st'
| step_unregister st c now st' :
    unregisterClient c now st = Ret tt st' → server_step st st'
| step_broadcast st st' :
    Run_broadcast st = Ret tt st' → server_step st st'
| step_frame st c now frame st' :
    ReadPump_frame c now frame st = Ret tt st' → server_step st st'
| step_write st c writer_ok close_ok result st' :
    WritePump_recv c writer_ok close_ok st = Ret result st' → server_step st st'
| step_SendToUser st userID message st' :
    SendToUser userID message st = Ret tt st' → server_step st st'
| step_SendToTeam st teamID message st' :
    SendToTeam teamID message st = Ret tt st' → server_step st st'
| step_SendMessage st c message err st' :
    SendMessage c message st = Ret err st' → server_step st st'
| step_leave st c room st' :
    leaveRoom c room st = Ret tt st' → server_step st st'.

(** [JoinRoom] is exported by the package, but nothing in the repository
    calls it (the [joinRoom] of the frontend sends a notification
    envelope, which [handleMessage] discards as of unknown type): rooms
    are joined in [registerClient] only.  [hub_step] adds [JoinRoom] for
    a registered client. *)
Inductive hub_step : State → State → Prop :=
| step_server st st' : server_step st st' → hub_step st st'
| step_join st c cl room st' :
    heap st !! c = Some cl → clients st !! ID cl = Some c →
    joinRoom c room st = Ret tt st' → hub_step st st'.

(** The states the hub is in between operations when [JoinRoom] is never
    called, and when it may be. *)
Definition served (st : State) : Prop := rtc server_step NewHub st.

Definition reachable (st : State) : Prop := rtc hub_step NewHub st.

End Steps.

(** ** The HTTP side: tokens and the identity of a connection *)

(** [strings.HasPrefix] and [strings.TrimPrefix]. *)
Definition HasPrefix (s prefix : string) : bool := String.prefix prefix s.

Fixpoint string_drop (n : nat) (s : string) : string :=
  match n, s with
  | 0, _ => s
  | S n', String _ s' => string_drop n' s'
  | S _, EmptyString => EmptyString
  end.

Definition TrimPrefix (s prefix : string) : string :=
  if HasPrefix s prefix then string_drop (String.length prefix) s else s.

(** What the handlers read of a request: [r.URL.Query().Get("token")],
    [r.Header.Get("Authorization")] (both empty when absent) and the
    cookie [auth_token], if there is one. *)
Record Request : Type := mkRequest {
  query_token : string;
  authorization : string;
  cookie_auth_token : option string
}.

(** [extractToken] of the auth middleware: the Bearer header first, then
    the query parameter, then the cookie. *)
Definition extractToken (r : Request) : string :=
  if HasPrefix (authorization r) "Bearer "
  then TrimPrefix (authorization r) "Bearer "
  else if decide (query_token r ≠ "") then query_token r
  else match cookie_auth_token r with
       | Some value => value
       | None => ""
       end.

(** The outcome of [Authenticate]: a 401 with its message, or the next
    handler called with the claims and the token in the context. *)
Inductive AuthResult : Type :=
| Unauthorized (message : string)
| Next (claimsUserID : string) (token : string).

(** [Authenticate]; [validateToken] is the JWT check, returning the user
    ID of the claims. *)
Definition Authenticate (validateToken : string → option string) (r : Request) : AuthResult :=
  let token := extractToken r in
  if decide (token = "") then Unauthorized "Missing authentication token"
  else match validateToken token with
       | Some userID => Next userID token
       | None => Unauthorized "Invalid authentication token"
       end.

(** The token [websocketHandler] looks at: the query parameter first,
    then the Bearer header. *)
Definition wsToken (r : Request) : string :=
  if decide (query_token r = "")
  then if HasPrefix (authorization r) "Bearer "
       then TrimPrefix (authorization r) "Bearer "
       else ""
  else query_token r.

(** The user ID and team ID [websocketHandler] gives the connection;
    [ValidateToken] is the JWT check and [team_of] the lookup of the
    user's first team in [team_members]. *)
Definition wsIdentity (ValidateToken team_of : string → option string) (r : Request)
  : string * string :=
  let token := wsToken r in
  if decide (token ≠ "")
  then match ValidateToken token with
       | Some userID => (userID, default "" (team_of userID))
       | None => ("anonymous", "")
       end
  else ("anonymous", "").

(** [websocketHandler] with the token lookup in front (the upgrade of the
    connection having succeeded). *)
Definition websocketHandler_auth (ValidateToken team_of : string → option string)
    (clientID : string) (r : Request) (now : Time) : M nat :=
  websocketHandler clientID (wsIdentity ValidateToken team_of r).1
                   (wsIdentity ValidateToken team_of r).2 now.

(** ** More example inputs *)

Definition task_T1 : Message :=
  {| Message.Type_ := "task_update"; Message.Room := "team:T1"; Message.UserID := "u1";
     Message.Data := VStr "done"; Message.Timestamp := 8%Z |}.

(** Two live clients that carry the same ID. *)
Definition twin_a : Client :=
  {| ID := "c9"; UserID := "u9"; TeamID := ""; Send := make_chan 256; Rooms := ∅ |}.

Definition twin_b : Client :=
  {| ID := "c9"; UserID := "u8"; TeamID := ""; Send := make_chan 256; Rooms := ∅ |}.

Definition demo_twins : State := with_heap (λ _, {[ 0 := twin_a; 1 := twin_b ]}) NewHub.

(** The example hub with bob's queue closed although he is still
    registered and in his rooms. *)
Definition demo_stale : State := with_heap <[ 1 := closed_Send bob ]> demo_hub.

(** Frames as a client might send them: a chat frame with a forged user
    ID, a frame that does not parse, a frame of a type the dispatcher does
    not know, and a typing frame for a channel. *)
Definition demo_frames : list (Time * string) :=
  [ (11%Z, "chat||mallory"); (12%Z, "|broken"); (13%Z, "notification|global|u2");
    (14%Z, "typing|channel:7|u2") ].

Definition request_both : Request :=
  {| query_token := "Q"; authorization := "Bearer H"; cookie_auth_token := None |}.

Definition request_none : Request :=
  {| query_token := ""; authorization := ""; cookie_auth_token := None |}.

(** The state of a run of the model, or the start state when the run does
    not return. *)
Definition after {A} (m : M A) (st : State) : State :=
  match m st with
  | Ret _ s => s
  | _ => st
  end.

(** Two connections without a token, as [websocketHandler] registers
    them, after [Run] has delivered their presence envelopes. *)
Definition demo_lobby : State :=
  after (Run_broadcast (RT := demoRuntime))
    (after (Run_broadcast (RT := demoRuntime))
       (after (websocketHandler "c2" "anonymous" "" 2%Z)
          (after (websocketHandler "c1" "anonymous" "" 1%Z) NewHub))).

(** The first of them sends a chat frame that names no room, and [Run]
    takes the envelope from the broadcast channel. *)
Definition demo_lobby_chat : State :=
  after (ReadPump_frame (RT := demoRuntime) 0 3%Z "chat||anonymous") demo_lobby.

Definition demo_lobby_delivered : State :=
  after (Run_broadcast (RT := demoRuntime)) demo_lobby_chat.

(** The first connection of [demo_lobby] is then joined to a channel room. *)
Definition demo_channel : State := after (joinRoom 0 "channel:7") demo_lobby.

(** The example hub after [chat_T1] has been broadcast twice: two frames
    wait in bob's queue. *)
Definition demo_queued : State :=
  after (broadcastMessage (RT := demoRuntime) chat_T1) demo_after_chat.

Definition bob_queued : Client :=
  {| ID := "c2"; UserID := "u2"; TeamID := "T1";
     Send := {| buf := ["chat|team:T1|u2"; "chat|team:T1|u2"]; cap := 256; closed := false |};
     Rooms := {["global"; "team:T1"]} |}.

(** ** Reasoning about the monad *)

Lemma leaves_ret {A} (a : A) st st' : leaves (ret a) st st' → st' = st.
Proof. intros [[b Hb] | Hb]; unfold ret in Hb; congruence. Qed.

Lemma leaves_bind {A B} (m : M A) (k : A → M B) st st' :
  leaves (bind m k) st st' →
  (∃ a s, m st = Ret a s ∧ leaves (k a) s st') ∨ m st = Block st'.
Proof.
  unfold leaves, bind. destruct (m st) as [a s | s | why] eqn:E.
  - intros H. left. exists a, s. split; [done | exact H].
  - intros [[b Hb] | Hb]; [discriminate | right; congruence].
  - intros [[b Hb] | Hb]; discriminate.
Qed.

Lemma preserves_ret {A} I (a : A) : preserves I (ret a).
Proof. intros st st' HI H. apply leaves_ret in H. by subst. Qed.

Lemma preserves_bind {A B} I (m : M A) (k : A → M B) :
  preserves I m → (∀ a, preserves I (k a)) → preserves I (bind m k).
Proof.
  intros Hm Hk st st' HI H. apply leaves_bind in H as [(a & s & E & H) | E].
  - eapply Hk; [| exact H]. eapply Hm; [exact HI |]. left. eauto.
  - eapply Hm; [exact HI |]. by right.
Qed.

Lemma preserves_for_each {A} I (xs : list A) body :
  (∀ x, x ∈ xs → preserves I (body x)) → preserves I (for_each xs body).
Proof.
  induction xs as [| x xs IH]; intros Hb; simpl.
  - apply preserves_ret.
  - apply preserves_bind.
    + apply Hb. left.
    + intros _. apply IH. intros y Hy. apply Hb. by right.
Qed.

Lemma preserves_modify I f : (∀ st, I st → I (f st)) → preserves I (modify f).
Proof. intros Hf st st' HI [[a H] | H]; unfold modify in H; [| discriminate]. inversion H. auto. Qed.

Lemma preserves_deref I c : preserves I (deref c).
Proof.
  intros st st' HI [[a H] | H]; unfold deref in H; destruct (heap st !! c); try discriminate.
  by inversion H; subst.
Qed.

Lemma preserves_get I : preserves I get.
Proof. intros st st' HI [[a H] | H]; unfold get in H; [| discriminate]. by inversion H; subst. Qed.

Lemma preserves_panic {A} I why : preserves I (@panic A why).
Proof. intros st st' HI [[a H] | H]; discriminate. Qed.

Lemma preserves_block {A} I : preserves I (@block A).
Proof. intros st st' HI [[a H] | H]; unfold block in H; [discriminate |]. by inversion H; subst. Qed.

Lemma preserves_if {A} I (b : bool) (m1 m2 : M A) :
  preserves I m1 → preserves I m2 → preserves I (if b then m1 else m2).
Proof. by destruct b. Qed.

Lemma preserves_logf I e : (∀ st, I st → I (with_logger (λ l, l ++ [e]) st)) → preserves I (logf e).
Proof. intros H. by apply preserves_modify. Qed.

(** ** What [joinRoom] and [leaveRoom] compute *)

Lemma joinRoom_Ret st c room cl :
  heap st !! c = Some cl → joinRoom c room st = Ret tt (joined c room cl st).
Proof.
  intros Hc. unfold joinRoom, bind, deref, update, logf. rewrite Hc.
  unfold modify, with_logger, with_heap, with_rooms. simpl. rewrite Hc. reflexivity.
Qed.

Lemma leaveRoom_Ret st c room cl :
  heap st !! c = Some cl → leaveRoom c room st = Ret tt (left c room cl st).
Proof.
  intros Hc. unfold leaveRoom, bind, deref, update, logf. rewrite Hc.
  unfold modify, with_logger, with_heap, with_rooms. simpl. rewrite Hc. reflexivity.
Qed.

Lemma members_joined st c room cl r :
  members (joined c room cl st) r =
  if decide (r = room) then {[c]} ∪ members st room else members st r.
Proof.
  unfold members at 1. simpl. case_decide as E.
  - subst. by rewrite lookup_insert_eq.
  - by rewrite lookup_insert_ne.
Qed.

Lemma members_left st c room cl r :
  members (left c room cl st) r =
  if decide (r = room) then members st room ∖ {[c]} else members st r.
Proof.
  unfold members. simpl. unfold left_rooms.
  destruct (rooms st !! room) as [s |] eqn:Hs.
  - case_decide as Hz.
    + apply size_empty_inv in Hz. apply leibniz_equiv in Hz.
      case_decide as E.
      * subst. rewrite lookup_delete_eq. simpl. by rewrite Hz.
      * by rewrite lookup_delete_ne.
    + case_decide as E.
      * subst. by rewrite lookup_insert_eq.
      * by rewrite lookup_insert_ne.
  - case_decide as E; [| done]. subst. rewrite Hs. simpl. set_solver.
Qed.

Lemma rooms_agree_joined st c room cl :
  heap st !! c = Some cl → rooms_agree st → rooms_agree (joined c room cl st).
Proof.
  intros Hc HI c' cl' r Hc'. rewrite members_joined.
  simpl in Hc'. destruct (decide (c' = c)) as [-> | Hne].
  - rewrite lookup_insert_eq in Hc'. inversion Hc'; subst; simpl.
    specialize (HI c cl r Hc). case_decide; set_solver.
  - rewrite lookup_insert_ne in Hc' by done.
    specialize (HI c' cl' r Hc'). case_decide; [| done]. subst. set_solver.
Qed.

Lemma rooms_agree_left st c room cl :
  heap st !! c = Some cl → rooms_agree st → rooms_agree (left c room cl st).
Proof.
  intros Hc HI c' cl' r Hc'. rewrite members_left.
  simpl in Hc'. destruct (decide (c' = c)) as [-> | Hne].
  - rewrite lookup_insert_eq in Hc'. inversion Hc'; subst; simpl.
    specialize (HI c cl r Hc). case_decide; set_solver.
  - rewrite lookup_insert_ne in Hc' by done.
    specialize (HI c' cl' r Hc'). case_decide; [| done]. subst. set_solver.
Qed.

Lemma preserves_joinRoom_agree c room : preserves rooms_agree (joinRoom c room).
Proof.
  intros st st' HI H. destruct (heap st !! c) as [cl |] eqn:Hc.
  - unfold leaves in H. rewrite (joinRoom_Ret _ _ _ _ Hc) in H.
    destruct H as [[a H] | H]; [| discriminate]. inversion H; subst.
    by apply rooms_agree_joined.
  - unfold leaves, joinRoom, bind, deref in H. rewrite Hc in H.
    destruct H as [[a H] | H]; discriminate.
Qed.

Lemma preserves_leaveRoom_agree c room : preserves rooms_agree (leaveRoom c room).
Proof.
  intros st st' HI H. destruct (heap st !! c) as [cl |] eqn:Hc.
  - unfold leaves in H. rewrite (leaveRoom_Ret _ _ _ _ Hc) in H.
    destruct H as [[a H] | H]; [| discriminate]. inversion H; subst.
    by apply rooms_agree_left.
  - unfold leaves, leaveRoom, bind, deref in H. rewrite Hc in H.
    destruct H as [[a H] | H]; discriminate.
Qed.

(** ** Loops that run to completion *)

Lemma for_each_from {A} (I : list A → State → Prop) (xs : list A) body :
  (∀ done x rest s, xs = done ++ x :: rest → I done s →
     ∃ s', body x s = Ret tt s' ∧ I (done ++ [x]) s') →
  ∀ rest done s, xs = done ++ rest → I done s →
    ∃ st', for_each rest body s = Ret tt st' ∧ I xs st'.
Proof.
  intros Hstep. induction rest as [| x rest IH]; intros done s Hxs HI.
  - rewrite app_nil_r in Hxs. subst. by exists s.
  - destruct (Hstep done x rest s Hxs HI) as (s' & Hb & HI').
    destruct (IH (done ++ [x]) s') as (st' & Hr & HI''); [by rewrite <- app_assoc | done |].
    exists st'. split; [| done]. simpl. unfold bind. by rewrite Hb.
Qed.

Lemma for_each_ind {A} (I : list A → State → Prop) (xs : list A) body st :
  I [] st →
  (∀ done x rest s, xs = done ++ x :: rest → I done s →
     ∃ s', body x s = Ret tt s' ∧ I (done ++ [x]) s') →
  ∃ st', for_each xs body st = Ret tt st' ∧ I xs st'.
Proof. intros H0 Hstep. by apply (for_each_from I xs body Hstep xs [] st). Qed.

Lemma for_each_map {A B} (f : A → B) (xs : list A) (body : B → M unit) :
  for_each xs (λ x, body (f x)) = for_each (f <$> xs) body.
Proof. induction xs as [| x xs IH]; simpl; [done |]. by rewrite IH. Qed.

(** ** Non-blocking delivery *)

Lemma offer_Ret st data c cl :
  heap st !! c = Some cl → closed (Send cl) = false →
  offer data c st = Ret tt (offered data c cl st).
Proof.
  intros Hc Ho. unfold offer, bind, deref, offered, enqueue, has_room. rewrite Hc, Ho.
  case_decide.
  - unfold update, modify, with_heap. simpl. by rewrite Hc.
  - reflexivity.
Qed.

Lemma offer_closed st data c cl :
  heap st !! c = Some cl → closed (Send cl) = true →
  offer data c st = Panic "send on closed channel".
Proof. intros Hc Ho. unfold offer, bind, deref. by rewrite Hc, Ho. Qed.

Lemma delivered_nil data st : delivered data [] st st.
Proof.
  repeat split; try done.
  - by left.
  - intros [H | (p & cl & Hp & _)]; [done |]. by apply elem_of_nil in Hp.
Qed.

Lemma delivered_step data done x cl st s :
  x ∉ done → heap st !! x = Some cl →
  delivered data done st s → delivered data (done ++ [x]) st (offered data x cl s).
Proof.
  intros Hx Hc (Hcl & Hr & Hb & Hh & Hl). unfold offered.
  destruct (decide (has_room cl)) as [Hroom | Hfull]; simpl.
  - repeat split; simpl; try done.
    + intros p. destruct (decide (p = x)) as [-> | Hne].
      * rewrite lookup_insert_eq, Hc. simpl. rewrite decide_True; [done | set_solver].
      * rewrite lookup_insert_ne by done. rewrite Hh.
        destruct (decide (p ∈ done)); [rewrite decide_True | rewrite decide_False]; set_solver.
    + intros He. apply Hl in He as [He | (p & cl' & Hp & Hcp & Hf & ->)]; [by left |].
      right. exists p, cl'. set_solver.
    + intros [He | (p & cl' & Hp & Hcp & Hf & ->)]; apply Hl; [by left |].
      right. exists p, cl'. repeat split; try done.
      apply elem_of_app in Hp as [Hp | Hp]; [done |].
      apply list_elem_of_singleton in Hp. subst. congruence.
  - repeat split; simpl; try done.
    + intros p. rewrite Hh. destruct (decide (p = x)) as [-> | Hne].
      * rewrite decide_False by done. rewrite decide_True by set_solver.
        rewrite Hc. simpl. unfold enqueue. by rewrite decide_False.
      * destruct (decide (p ∈ done)); [rewrite decide_True | rewrite decide_False]; set_solver.
    + intros He. apply elem_of_app in He as [He | He].
      * apply Hl in He as [He | (p & cl' & Hp & Hcp & Hf & ->)]; [by left |].
        right. exists p, cl'. set_solver.
      * apply list_elem_of_singleton in He. subst. right. exists x, cl. set_solver.
    + intros [He | (p & cl' & Hp & Hcp & Hf & ->)]; apply elem_of_app.
      * left. apply Hl. by left.
      * apply elem_of_app in Hp as [Hp | Hp].
        -- left. apply Hl. right. exists p, cl'. set_solver.
        -- apply list_elem_of_singleton in Hp. subst. right.
           assert (cl' = cl) by congruence. subst. set_solver.
Qed.

Lemma deliver_all st data (xs : list nat) :
  NoDup xs →
  (∀ p, p ∈ xs → ∃ cl, heap st !! p = Some cl ∧ closed (Send cl) = false) →
  ∃ st', for_each xs (offer data) st = Ret tt st' ∧ delivered data xs st st'.
Proof.
  intros Hnd Hready.
  apply (for_each_ind (λ done s, delivered data done st s)); [apply delivered_nil |].
  intros done x rest s Hxs HI.
  assert (x ∉ done) as Hx.
  { rewrite Hxs in Hnd. apply NoDup_app in Hnd as (_ & Hnd & _).
    intros Hin. apply (Hnd x Hin). left. }
  destruct (Hready x) as (cl & Hc & Ho); [rewrite Hxs; set_solver |].
  assert (heap s !! x = Some cl) as Hcs.
  { destruct HI as (_ & _ & _ & Hh & _). by rewrite Hh, decide_False. }
  exists (offered data x cl s). split; [by apply offer_Ret |].
  by apply delivered_step.
Qed.

Lemma elem_of_registry_values (m : gmap string nat) (p : nat) :
  p ∈ (map_to_list m).*2 ↔ ∃ i, m !! i = Some p.
Proof.
  rewrite list_elem_of_fmap. split.
  - intros ([i q] & -> & Hin). apply elem_of_map_to_list in Hin. by exists i.
  - intros [i Hi]. exists (i, p). split; [done |]. by apply elem_of_map_to_list.
Qed.

Lemma NoDup_registry_values (m : gmap string nat) :
  (∀ i j p, m !! i = Some p → m !! j = Some p → i = j) → NoDup (map_to_list m).*2.
Proof.
  intros Hinj. apply NoDup_fmap_2_strong; [| apply NoDup_map_to_list].
  intros [i p] [j q] Hi Hj Heq. simpl in Heq. subst q.
  apply elem_of_map_to_list in Hi, Hj. f_equal. by eapply Hinj.
Qed.

Lemma recipients_room st message :
  Message.Room message ≠ "" → recipients st message = members st (Message.Room message).
Proof. intros H. unfold recipients. by rewrite decide_True. Qed.

Lemma recipients_global st message p :
  Message.Room message = "" → p ∈ recipients st message ↔ ∃ i, clients st !! i = Some p.
Proof.
  intros H. unfold recipients. rewrite decide_False by (by intros []).
  rewrite elem_of_list_to_set. apply elem_of_registry_values.
Qed.

Lemma delivered_ext data xs ys st st' :
  (∀ p, p ∈ xs ↔ p ∈ ys) → delivered data xs st st' → delivered data ys st st'.
Proof.
  intros Hxy (Hc & Hr & Hb & Hh & Hl). repeat split; try done.
  - intros p. rewrite Hh.
    destruct (decide (p ∈ xs)) as [Hp | Hp]; [rewrite decide_True | rewrite decide_False];
      try done; by rewrite <- Hxy.
  - intros He. apply Hl in He as [He | (p & cl & Hp & H)]; [by left |].
    right. exists p, cl. by rewrite <- Hxy.
  - intros [He | (p & cl & Hp & H)]; apply Hl; [by left |].
    right. exists p, cl. by rewrite Hxy.
Qed.

Section Delivery.
Context `{RT : Runtime}.

(** [broadcastMessage] offers the serialized envelope once to each
    recipient and to nobody else. *)
Lemma broadcastMessage_delivered st message data :
  marshal message = Some data →
  ready st (recipients st message) →
  (Message.Room message = "" → registry_inj st) →
  ∃ st', broadcastMessage message st = Ret tt st' ∧
         delivered data (elements (recipients st message)) st st'.
Proof.
  intros Hm Hready Hinj. unfold broadcastMessage. rewrite Hm. unfold bind, get.
  destruct (decide (Message.Room message ≠ "")) as [Hroom | Hglobal].
  - rewrite recipients_room in Hready |- *; [| done..]. unfold members in *.
    destruct (rooms st !! Message.Room message) as [cs |] eqn:Hcs; simpl in *.
    + destruct (deliver_all st data (range (elements cs))) as (st' & Hrun & Hd).
      * rewrite range_perm. apply NoDup_elements.
      * intros p Hp. apply Hready. rewrite range_perm in Hp. by apply elem_of_elements.
      * exists st'. split; [done |]. eapply delivered_ext; [| exact Hd].
        intros p. by rewrite range_perm.
    + exists st. split; [done |]. eapply delivered_ext; [| apply delivered_nil].
      intros p. rewrite elements_empty. done.
  - assert (Message.Room message = "") as Hempty.
    { destruct (decide (Message.Room message = "")); [done | by destruct Hglobal]. }
    rewrite (for_each_map snd).
    destruct (deliver_all st data (range (map_to_list (clients st))).*2) as (st' & Hrun & Hd).
    + rewrite range_perm. apply NoDup_registry_values. apply (Hinj Hempty).
    + intros p Hp. apply Hready. rewrite range_perm in Hp.
      apply recipients_global; [done |]. by apply elem_of_registry_values.
    + exists st'. split; [done |]. eapply delivered_ext; [| exact Hd].
      intros p. rewrite range_perm, elem_of_elements.
      rewrite recipients_global by done. apply elem_of_registry_values.
Qed.

(** C2. Broadcast with a non-empty room delivers the serialized envelope
    to exactly the members of that room at delivery time: each member's
    queue gains the frame once (when it has room for it), and the queue of
    a client that is not a member is unchanged; with an empty room the
    recipients are the clients currently in the registry. *)
Theorem broadcastMessage_exact st message data :
  marshal message = Some data →
  ready st (recipients st message) →
  (Message.Room message = "" → registry_inj st) →
  (Message.Room message ≠ "" →
     recipients st message = members st (Message.Room message)) ∧
  (Message.Room message = "" →
     ∀ p, p ∈ recipients st message ↔ ∃ i, clients st !! i = Some p) ∧
  ∃ st', broadcastMessage message st = Ret tt st' ∧
    ∀ p cl, heap st !! p = Some cl →
      ∃ cl', heap st' !! p = Some cl' ∧
        buf (Send cl') =
          buf (Send cl) ++
          (if decide (p ∈ recipients st message ∧ has_room cl) then [data] else []).
Proof.
  intros Hm Hready Hinj. split; [apply recipients_room |].
  split; [intros H p; by apply recipients_global |].
  destruct (broadcastMessage_delivered st message data Hm Hready Hinj)
    as (st' & Hrun & _ & _ & _ & Hh & _).
  exists st'. split; [done |]. intros p cl Hp. rewrite Hh, Hp.
  destruct (decide (p ∈ elements (recipients st message))) as [Hin | Hout].
  - apply elem_of_elements in Hin. simpl. eexists. split; [done |].
    unfold enqueue. destruct (decide (has_room cl)) as [Hr | Hr].
    + rewrite decide_True by done. done.
    + rewrite decide_False by (by intros [_ ?]). by rewrite app_nil_r.
  - exists cl. split; [done |]. rewrite decide_False; [by rewrite app_nil_r |].
    intros [Hin _]. apply Hout. by apply elem_of_elements.
Qed.

(** C7. When the queue of one recipient is full, the broadcast returns
    (it neither blocks nor panics), that recipient's queue is left as it
    was and a warning naming it is logged, and every other recipient whose
    queue has room receives the frame. *)
Theorem broadcastMessage_full_queue st message data (p : nat) cl :
  marshal message = Some data →
  ready st (recipients st message) →
  (Message.Room message = "" → registry_inj st) →
  p ∈ recipients st message →
  heap st !! p = Some cl →
  (cap (Send cl) ≤ length (buf (Send cl)))%nat →
  ∃ st', broadcastMessage message st = Ret tt st' ∧
    heap st' !! p = Some cl ∧
    full_warning cl ∈ logger st' ∧
    ∀ q cq, q ∈ recipients st message → heap st !! q = Some cq → has_room cq →
      ∃ cq', heap st' !! q = Some cq' ∧ buf (Send cq') = buf (Send cq) ++ [data].
Proof.
  intros Hm Hready Hinj Hp Hcl Hfull.
  assert (¬ has_room cl) as Hnr by (unfold has_room; lia).
  destruct (broadcastMessage_delivered st message data Hm Hready Hinj)
    as (st' & Hrun & _ & _ & _ & Hh & Hl).
  exists st'. split; [done |]. split; [| split].
  - rewrite Hh, Hcl. rewrite decide_True by (by apply elem_of_elements).
    simpl. unfold enqueue. by rewrite decide_False.
  - apply Hl. right. exists p, cl. split; [by apply elem_of_elements | done].
  - intros q cq Hq Hcq Hroom. rewrite Hh, Hcq.
    rewrite decide_True by (by apply elem_of_elements).
    simpl. eexists. split; [done |]. unfold enqueue. by rewrite decide_True.
Qed.

End Delivery.

(** ** Sequencing *)

Lemma bind_Ret {A B} (m : M A) (k : A → M B) st a s :
  m st = Ret a s → bind m k st = k a s.
Proof. intros H. unfold bind. by rewrite H. Qed.

Lemma deref_Ret st c cl : heap st !! c = Some cl → deref c st = Ret cl st.
Proof. intros H. unfold deref. by rewrite H. Qed.

Lemma send_broadcast_Ret st message :
  length (broadcast st) < broadcastCap →
  send_broadcast message st = Ret tt (with_broadcast (λ q, q ++ [message]) st).
Proof. intros H. unfold send_broadcast, bind, get. by rewrite decide_True. Qed.

Lemma send_broadcast_Block st message :
  ¬ length (broadcast st) < broadcastCap → send_broadcast message st = Block st.
Proof. intros H. unfold send_broadcast, bind, get. by rewrite decide_False. Qed.

Lemma rooms_agree_ext st st' :
  heap st' = heap st → rooms st' = rooms st → rooms_agree st → rooms_agree st'.
Proof.
  intros Hh Hr HI c cl r Hc. unfold members. rewrite Hr. rewrite Hh in Hc.
  by apply HI.
Qed.

Lemma rooms_agree_update st c f :
  (∀ cl, Rooms (f cl) = Rooms cl) → rooms_agree st →
  rooms_agree (with_heap (λ h, match h !! c with
                               | Some cl => <[c := f cl]> h
                               | None => h
                               end) st).
Proof.
  intros Hf HI c' cl' r. unfold members. simpl.
  destruct (heap st !! c) as [cl |] eqn:Hc; [| apply HI].
  destruct (decide (c' = c)) as [-> | Hne].
  - rewrite lookup_insert_eq. intros [= <-]. rewrite Hf. by apply HI.
  - rewrite lookup_insert_ne by done. apply HI.
Qed.

Lemma preserves_send_broadcast I message :
  (∀ st, I st → I (with_broadcast (λ q, q ++ [message]) st)) →
  preserves I (send_broadcast message).
Proof.
  intros H. unfold send_broadcast. apply preserves_bind; [apply preserves_get |].
  intros s. case_decide; [by apply preserves_modify | apply preserves_block].
Qed.

Lemma preserves_sendPresenceUpdate_agree c online now :
  preserves rooms_agree (sendPresenceUpdate c online now).
Proof.
  unfold sendPresenceUpdate. apply preserves_bind; [apply preserves_deref |].
  intros cl. apply preserves_send_broadcast. intros st. by apply rooms_agree_ext.
Qed.

Lemma preserves_close_Send_agree c : preserves rooms_agree (close_Send c).
Proof.
  unfold close_Send. apply preserves_bind; [apply preserves_deref |].
  intros cl. destruct (closed (Send cl)); [apply preserves_panic |].
  apply preserves_modify. intros st. by apply rooms_agree_update.
Qed.

Section Invariant.
Context `{RT : Runtime}.

Lemma preserves_registerClient_agree c now :
  preserves rooms_agree (registerClient c now).
Proof.
  unfold registerClient. apply preserves_bind; [apply preserves_deref |]. intros cl.
  apply preserves_bind; [apply preserves_modify; intros st; by apply rooms_agree_ext |]. intros _.
  apply preserves_bind; [apply preserves_logf; intros st; by apply rooms_agree_ext |]. intros _.
  apply preserves_bind; [apply preserves_joinRoom_agree |]. intros _.
  apply preserves_bind.
  { case_decide; [apply preserves_joinRoom_agree | apply preserves_ret]. }
  intros _. apply preserves_sendPresenceUpdate_agree.
Qed.

Lemma preserves_unregisterClient_agree c now :
  preserves rooms_agree (unregisterClient c now).
Proof.
  unfold unregisterClient. apply preserves_bind; [apply preserves_deref |]. intros cl.
  apply preserves_bind; [apply preserves_get |]. intros s.
  destruct (clients s !! ID cl); [| apply preserves_ret].
  apply preserves_bind; [apply preserves_modify; intros st; by apply rooms_agree_ext |]. intros _.
  apply preserves_bind; [apply preserves_close_Send_agree |]. intros _.
  apply preserves_bind.
  { apply preserves_for_each. intros r _. apply preserves_leaveRoom_agree. }
  intros _.
  apply preserves_bind; [apply preserves_logf; intros st; by apply rooms_agree_ext |]. intros _.
  apply preserves_sendPresenceUpdate_agree.
Qed.

(** C1. The room index and the clients' room sets agree in both
    directions — a client is in a room's member set exactly when the room
    is in the client's room set — in the new hub, and in every state that
    [registerClient], [unregisterClient], [joinRoom] or [leaveRoom] leaves
    behind when started in a state where they agree; in particular they
    agree for every registered client and every room of the index. *)
Theorem rooms_agree_invariant st c room now st' :
  rooms_agree st →
  leaves (registerClient c now) st st' ∨ leaves (unregisterClient c now) st st' ∨
  leaves (joinRoom c room) st st' ∨ leaves (leaveRoom c room) st st' →
  rooms_agree NewHub ∧
  rooms_agree st' ∧
  ∀ c' cl' r, heap st' !! c' = Some cl' → registered st' cl' → is_Some (rooms st' !! r) →
    (c' ∈ members st' r ↔ r ∈ Rooms cl').
Proof.
  intros HI Hop. split; [intros c' cl' r Hc'; simpl in Hc'; by rewrite lookup_empty in Hc' |].
  assert (rooms_agree st') as HI'.
  { destruct Hop as [H | [H | [H | H]]].
    - eapply preserves_registerClient_agree; eauto.
    - eapply preserves_unregisterClient_agree; eauto.
    - eapply preserves_joinRoom_agree; eauto.
    - eapply preserves_leaveRoom_agree; eauto. }
  split; [done |]. intros c' cl' r Hc' _ _. by apply HI'.
Qed.

End Invariant.

(** ** Presence derived from membership *)

(** [GetOnlineUsers] returns the user IDs of the live members of the team
    room, and nothing else. *)
Lemma elem_of_GetOnlineUsers st teamID (u : string) :
  u ∈ GetOnlineUsers teamID st ↔
  ∃ c cl, c ∈ members st ("team:" +:+ teamID) ∧ heap st !! c = Some cl ∧ UserID cl = u.
Proof.
  unfold GetOnlineUsers, members.
  destruct (rooms st !! ("team:" +:+ teamID)) as [cs |]; simpl.
  - rewrite elem_of_list_to_set, list_elem_of_omap. split.
    + intros (c & Hc & Hu). apply elem_of_elements in Hc.
      destruct (heap st !! c) as [cl |] eqn:E; [| done]. inversion Hu; subst. eauto.
    + intros (c & cl & Hc & Hcl & Hu). exists c. split; [by apply elem_of_elements |].
      by rewrite Hcl, <- Hu.
  - split; [set_solver |]. intros (c & cl & Hc & _). set_solver.
Qed.

(** ** Registration *)

Lemma presenceMessage_fields cl cl' online now :
  UserID cl' = UserID cl → TeamID cl' = TeamID cl →
  presenceMessage cl' online now = presenceMessage cl online now.
Proof. intros Hu Ht. unfold presenceMessage. by rewrite Hu, Ht. Qed.

Lemma registered_in_lookup c cl st :
  ∃ cl', heap (registered_in c cl st) !! c = Some cl' ∧
         UserID cl' = UserID cl ∧ TeamID cl' = TeamID cl ∧ ID cl' = ID cl ∧ Send cl' = Send cl.
Proof.
  unfold registered_in. case_decide; simpl; rewrite lookup_insert_eq; eauto 10.
Qed.

Section Registration.
Context `{RT : Runtime}.

Lemma registerClient_eq st c cl now :
  heap st !! c = Some cl →
  registerClient c now st =
  send_broadcast (presenceMessage cl true now) (registered_in c cl st).
Proof.
  intros Hc. unfold registerClient.
  erewrite bind_Ret by (by apply deref_Ret).
  erewrite bind_Ret by reflexivity.
  erewrite bind_Ret by reflexivity.
  erewrite bind_Ret by (by apply joinRoom_Ret).
  destruct (registered_in_lookup c cl st) as (cl' & Hc' & Hu & Ht & _).
  unfold registered_in in *. destruct (decide (TeamID cl ≠ "")) as [Hteam | Hteam].
  - erewrite bind_Ret by (apply joinRoom_Ret; simpl; by rewrite lookup_insert_eq).
    unfold sendPresenceUpdate. erewrite bind_Ret by (apply deref_Ret; exact Hc').
    by rewrite (presenceMessage_fields cl cl').
  - erewrite bind_Ret by reflexivity.
    unfold sendPresenceUpdate. erewrite bind_Ret by (apply deref_Ret; exact Hc').
    by rewrite (presenceMessage_fields cl cl').
Qed.

Lemma registered_in_global c cl st : c ∈ members (registered_in c cl st) "global".
Proof.
  unfold registered_in. case_decide; rewrite !members_joined;
    repeat case_decide; set_solver.
Qed.

Lemma registered_in_team c cl st :
  TeamID cl ≠ "" → c ∈ members (registered_in c cl st) ("team:" +:+ TeamID cl).
Proof.
  intros H. unfold registered_in. rewrite decide_True by done.
  rewrite members_joined. rewrite decide_True by done. set_solver.
Qed.


Lemma registered_in_broadcast c cl st : broadcast (registered_in c cl st) = broadcast st.
Proof. unfold registered_in. by case_decide. Qed.


End Registration.

(** ** Unregistration *)

Lemma close_Send_Ret st c cl :
  heap st !! c = Some cl → closed (Send cl) = false →
  close_Send c st = Ret tt (with_heap <[c := closed_Send cl]> st).
Proof.
  intros Hc Ho. unfold close_Send. erewrite bind_Ret by (by apply deref_Ret).
  rewrite Ho. unfold update, modify, with_heap. simpl. by rewrite Hc.
Qed.

Lemma close_Send_closed st c cl :
  heap st !! c = Some cl → closed (Send cl) = true →
  close_Send c st = Panic "close of closed channel".
Proof.
  intros Hc Ho. unfold close_Send. erewrite bind_Ret by (by apply deref_Ret).
  by rewrite Ho.
Qed.

Lemma set_Rooms_id cl rs : rs = Rooms cl → set_Rooms rs cl = cl.
Proof. intros ->. by destruct cl. Qed.

Lemma leaving_start c cl0 s0 : heap s0 !! c = Some cl0 → leaving c cl0 s0 [] s0.
Proof.
  intros Hc. repeat split; try done.
  rewrite set_Rooms_id; [by rewrite insert_id | set_solver].
Qed.

Lemma leaving_step c cl0 s0 done x s :
  leaving c cl0 s0 done s →
  ∃ s', leaveRoom c x s = Ret tt s' ∧ leaving c cl0 s0 (done ++ [x]) s'.
Proof.
  intros (Hcl & Hb & Hh & Hm).
  assert (heap s !! c = Some (set_Rooms (Rooms cl0 ∖ list_to_set done) cl0)) as Hc.
  { by rewrite Hh, lookup_insert_eq. }
  eexists. split; [by apply leaveRoom_Ret |]. repeat split; simpl; try done.
  - rewrite Hh, insert_insert_eq. f_equal. unfold set_Rooms. simpl. f_equal.
    rewrite list_to_set_app_L. set_solver.
  - intros r. rewrite members_left, !Hm.
    destruct (decide (r = x)) as [-> | Hne].
    + rewrite (decide_True (P := x ∈ done ++ [x])) by set_solver.
      case_decide; set_solver.
    + destruct (decide (r ∈ done)); [rewrite decide_True | rewrite decide_False]; set_solver.
Qed.

Lemma leave_all c cl0 s0 (xs : list string) :
  heap s0 !! c = Some cl0 →
  ∃ s', for_each xs (leaveRoom c) s0 = Ret tt s' ∧ leaving c cl0 s0 xs s'.
Proof.
  intros Hc. apply (for_each_ind (leaving c cl0 s0)); [by apply leaving_start |].
  intros done x rest s _ HI. by apply leaving_step.
Qed.

Section Unregistration.
Context `{RT : Runtime}.

Lemma unregisterClient_absent st c cl now :
  heap st !! c = Some cl → clients st !! ID cl = None →
  unregisterClient c now st = Ret tt st.
Proof.
  intros Hc Hnone. unfold unregisterClient.
  erewrite bind_Ret by (by apply deref_Ret).
  erewrite bind_Ret by reflexivity. by rewrite Hnone.
Qed.

Lemma unregisterClient_eq st c cl now :
  heap st !! c = Some cl → registered st cl → closed (Send cl) = false →
  ∃ s, unregisterClient c now st = send_broadcast (presenceMessage cl false now) s ∧
       unregistering c cl st s.
Proof.
  intros Hc [q Hq] Ho. unfold unregisterClient.
  erewrite bind_Ret by (by apply deref_Ret).
  erewrite bind_Ret by reflexivity. rewrite Hq.
  erewrite bind_Ret by reflexivity.
  erewrite bind_Ret by (by apply close_Send_Ret).
  pose (s0 := with_heap <[c:=closed_Send cl]> (with_clients (delete (ID cl)) st)).
  destruct (leave_all c (closed_Send cl) s0 (range (elements (Rooms cl))))
    as (s' & Hrun & Hcl & Hb & Hh & Hm).
  { simpl. by rewrite lookup_insert_eq. }
  erewrite bind_Ret by exact Hrun.
  erewrite bind_Ret by reflexivity.
  assert (Rooms cl ∖ list_to_set (range (elements (Rooms cl))) = (∅ : gset string)) as Hempty.
  { apply set_eq. intros r. rewrite elem_of_difference, elem_of_list_to_set, range_perm.
    rewrite elem_of_elements. set_solver. }
  unfold sendPresenceUpdate.
  erewrite bind_Ret; last first.
  { apply deref_Ret. simpl. rewrite Hh. apply lookup_insert_eq. }
  eexists. split; [reflexivity |]. repeat split; simpl.
  - by rewrite Hcl.
  - by rewrite Hb.
  - rewrite Hh. simpl. rewrite insert_insert_eq. f_equal.
    change (Rooms (closed_Send cl)) with (Rooms cl). by rewrite Hempty.
  - intros r. change (members (with_logger _ s') r) with (members s' r).
    rewrite Hm. change (members s0 r) with (members st r).
    destruct (decide (r ∈ Rooms cl)) as [Hin | Hout];
      [rewrite decide_True | rewrite decide_False]; try done;
      rewrite range_perm, elem_of_elements; done.
Qed.


(** C4. [unregisterClient] of a client that is not registered (the
    registry has no entry under its ID) returns with the whole state
    unchanged.  For a registered client whose queue is still open it
    returns (given room in the broadcast channel for one envelope), and
    afterwards the client is in no room's member set, its queue is closed,
    the registry has no entry under its ID and exactly one presence
    envelope with status "offline" has been queued; a second
    [unregisterClient] then returns with the state unchanged. *)
Theorem unregisterClient_spec st c cl now :
  heap st !! c = Some cl →
  (¬ registered st cl → unregisterClient c now st = Ret tt st) ∧
  (registered st cl → rooms_agree st → closed (Send cl) = false →
   length (broadcast st) < broadcastCap →
   ∃ st' cl' m,
     unregisterClient c now st = Ret tt st' ∧
     (∀ r, c ∉ members st' r) ∧
     heap st' !! c = Some cl' ∧ ID cl' = ID cl ∧ closed (Send cl') = true ∧
     clients st' !! ID cl = None ∧
     broadcast st' = broadcast st ++ [m] ∧
     Message.Type_ m = "presence" ∧ Message.UserID m = UserID cl ∧
     Message.Data m = VMap [("status", VStr "offline")] ∧
     ∀ now', unregisterClient c now' st' = Ret tt st').
Proof.
  intros Hc. split.
  - intros Hnot. apply (unregisterClient_absent _ _ cl); [done |].
    by apply eq_None_not_Some.
  - intros Hreg Hagree Ho Hroom.
    destruct (unregisterClient_eq st c cl now Hc Hreg Ho) as (s & Hrun & Hcl & Hb & Hh & Hm).
    rewrite send_broadcast_Ret in Hrun by (by rewrite Hb).
    set (st' := with_broadcast (λ q, q ++ [presenceMessage cl false now]) s) in *.
    assert (heap st' !! c = Some (set_Rooms ∅ (closed_Send cl))) as Hc'.
    { simpl. rewrite Hh. apply lookup_insert_eq. }
    exists st', (set_Rooms ∅ (closed_Send cl)), (presenceMessage cl false now).
    split; [done |]. split; [| split; [done |]].
    { intros r. change (members st' r) with (members s r).
      rewrite Hm. specialize (Hagree c cl r Hc). case_decide; set_solver. }
    split; [done |]. split; [done |].
    assert (clients st' !! ID cl = None) as Hgone
      by (simpl; rewrite Hcl; apply lookup_delete_eq).
    split; [done |]. split; [by simpl; rewrite Hb |].
    split; [unfold presenceMessage; by case_decide |].
    split; [unfold presenceMessage; by case_decide |].
    split; [unfold presenceMessage; by case_decide |].
    intros now'. by apply (unregisterClient_absent _ _ (set_Rooms ∅ (closed_Send cl))).
Qed.

End Unregistration.

(** ** The dispatcher of the read pump *)

Lemma handleChatMessage_Ret st c cl msg :
  heap st !! c = Some cl → length (broadcast st) < broadcastCap →
  handleChatMessage c msg st =
  Ret tt (with_broadcast
            (λ q, q ++ [if decide (Message.Room msg = "")
                        then set_Room ("team:" +:+ TeamID cl) msg else msg]) st).
Proof.
  intros Hc Hroom. unfold handleChatMessage.
  erewrite bind_Ret by (by apply deref_Ret). by apply send_broadcast_Ret.
Qed.

Lemma handleTaskUpdate_Ret st c cl msg :
  heap st !! c = Some cl → length (broadcast st) < broadcastCap →
  handleTaskUpdate c msg st =
  Ret tt (with_broadcast (λ q, q ++ [set_Room ("team:" +:+ TeamID cl) msg]) st).
Proof.
  intros Hc Hroom. unfold handleTaskUpdate.
  erewrite bind_Ret by (by apply deref_Ret). by apply send_broadcast_Ret.
Qed.

Lemma handleTypingIndicator_Ret st c cl msg :
  heap st !! c = Some cl → length (broadcast st) < broadcastCap →
  handleTypingIndicator c msg st =
  Ret tt (with_broadcast (λ q, q ++ [set_Room ("team:" +:+ TeamID cl) msg]) st).
Proof.
  intros Hc Hroom. unfold handleTypingIndicator.
  erewrite bind_Ret by (by apply deref_Ret). by apply send_broadcast_Ret.
Qed.

Lemma handleMessage_chat c msg :
  Message.Type_ msg = "chat" → handleMessage c msg = handleChatMessage c msg.
Proof. intros H. unfold handleMessage. by rewrite decide_True. Qed.

Lemma handleMessage_task_update c msg :
  Message.Type_ msg = "task_update" → handleMessage c msg = handleTaskUpdate c msg.
Proof.
  intros H. unfold handleMessage. rewrite decide_False by (by rewrite H).
  by rewrite decide_True.
Qed.

Lemma handleMessage_typing c msg :
  Message.Type_ msg = "typing" → handleMessage c msg = handleTypingIndicator c msg.
Proof.
  intros H. unfold handleMessage. rewrite !decide_False by (by rewrite H).
  by rewrite decide_True.
Qed.

Lemma handleMessage_other c msg :
  Message.Type_ msg ≠ "chat" → Message.Type_ msg ≠ "task_update" →
  Message.Type_ msg ≠ "typing" →
  handleMessage c msg = logf (LogWarn ("Unknown message type: " +:+ Message.Type_ msg)).
Proof. intros H1 H2 H3. unfold handleMessage. by rewrite !decide_False. Qed.

(** C5, as the code has it.  A chat envelope is forwarded with the
    client's room when it names one and with "team:<teamID>" of the
    sending connection when it names none; a task_update or typing
    envelope is always forwarded with room "team:<teamID>", whatever room
    the client named; an envelope of any other type is logged and not
    forwarded. *)
Theorem handleMessage_routing st c cl msg :
  heap st !! c = Some cl →
  length (broadcast st) < broadcastCap →
  ∃ st', handleMessage c msg st = Ret tt st' ∧
    (Message.Type_ msg = "chat" →
       broadcast st' = broadcast st ++
         [if decide (Message.Room msg = "")
          then set_Room ("team:" +:+ TeamID cl) msg else msg]) ∧
    (Message.Type_ msg = "task_update" ∨ Message.Type_ msg = "typing" →
       broadcast st' = broadcast st ++ [set_Room ("team:" +:+ TeamID cl) msg]) ∧
    (Message.Type_ msg ≠ "chat" → Message.Type_ msg ≠ "task_update" →
     Message.Type_ msg ≠ "typing" →
       broadcast st' = broadcast st ∧
       logger st' = logger st ++ [LogWarn ("Unknown message type: " +:+ Message.Type_ msg)]).
Proof.
  intros Hc Hroom.
  destruct (decide (Message.Type_ msg = "chat")) as [Hchat | Hchat].
  { rewrite handleMessage_chat, (handleChatMessage_Ret _ _ cl) by done.
    eexists. split; [done |]. simpl. split; [done |]. split; [| done].
    intros [H | H]; by rewrite H in Hchat. }
  destruct (decide (Message.Type_ msg = "task_update")) as [Htask | Htask].
  { rewrite handleMessage_task_update, (handleTaskUpdate_Ret _ _ cl) by done.
    eexists. split; [done |]. simpl. split; [done |]. split; done. }
  destruct (decide (Message.Type_ msg = "typing")) as [Htyping | Htyping].
  { rewrite handleMessage_typing, (handleTypingIndicator_Ret _ _ cl) by done.
    eexists. split; [done |]. simpl. split; [done |]. split; done. }
  rewrite handleMessage_other by done. eexists. split; [done |]. simpl.
  split; [done |]. split; [| done]. by intros [H | H].
Qed.

(** C6, as the code has it.  The presence envelope of [sendPresenceUpdate]
    carries the client's user ID and the status "online" or "offline";
    for a client with a team it is addressed to room "team:<teamID>", and
    for a client with an empty team ID it carries the empty room, so it is
    addressed to every client in the registry. *)
Theorem presence_target st c cl (online : bool) now :
  heap st !! c = Some cl →
  length (broadcast st) < broadcastCap →
  ∃ m, sendPresenceUpdate c online now st = Ret tt (with_broadcast (λ q, q ++ [m]) st) ∧
    Message.Type_ m = "presence" ∧
    Message.UserID m = UserID cl ∧
    Message.Data m = VMap [("status", VStr (if online then "online" else "offline"))] ∧
    (TeamID cl ≠ "" →
       Message.Room m = "team:" +:+ TeamID cl ∧
       ∀ s, recipients s m = members s ("team:" +:+ TeamID cl)) ∧
    (TeamID cl = "" →
       Message.Room m = "" ∧
       ∀ s (p : nat), p ∈ recipients s m ↔ ∃ i, clients s !! i = Some p).
Proof.
  intros Hc Hroom. exists (presenceMessage cl online now).
  unfold sendPresenceUpdate. erewrite bind_Ret by (by apply deref_Ret).
  split; [by apply send_broadcast_Ret |]. unfold presenceMessage.
  destruct (decide (TeamID cl ≠ "")) as [Hteam | Hteam]; simpl.
  - do 3 (split; [done |]). split; [| done]. intros _. split; [done |].
    intros s. by apply recipients_room.
  - do 3 (split; [done |]). split; [done |]. intros _. split; [done |].
    intros s p. by apply recipients_global.
Qed.

Section ReadPump.
Context `{RT : Runtime}.

(** C8. For a frame that deserializes into an envelope, the envelope the
    read pump dispatches carries the connection's user ID and the server
    time of receipt; two frames that differ only in the user_id and
    timestamp they supply are dispatched identically. *)
Theorem ReadPump_frame_overwrites st c cl now frame1 frame2 m1 m2 :
  heap st !! c = Some cl →
  unmarshal frame1 = Some m1 →
  unmarshal frame2 = Some m2 →
  Message.Type_ m1 = Message.Type_ m2 →
  Message.Room m1 = Message.Room m2 →
  Message.Data m1 = Message.Data m2 →
  ReadPump_frame c now frame1 st =
    handleMessage c {| Message.Type_ := Message.Type_ m1; Message.Room := Message.Room m1;
                       Message.UserID := UserID cl; Message.Data := Message.Data m1;
                       Message.Timestamp := now |} st ∧
  ReadPump_frame c now frame1 st = ReadPump_frame c now frame2 st.
Proof.
  intros Hc H1 H2 Hty Hr Hd. unfold ReadPump_frame. rewrite H1, H2.
  erewrite !bind_Ret by (by apply deref_Ret).
  unfold set_Timestamp, set_UserID. simpl. split; [done |].
  by rewrite Hty, Hr, Hd.
Qed.

End ReadPump.

(** ** The frame of the delivery operations *)

Lemma same_index_refl st : same_index st st.
Proof. done. Qed.

Lemma same_index_logger st s f : same_index st s → same_index st (with_logger f s).
Proof. done. Qed.

Lemma same_index_update st s c f :
  (∀ cl, Rooms (f cl) = Rooms cl) → same_index st s →
  same_index st (with_heap (λ h, match h !! c with
                                 | Some cl => <[c := f cl]> h
                                 | None => h
                                 end) s).
Proof.
  intros Hf (Hc & Hr & Hm & Hh). repeat split; try done. intros p. simpl.
  destruct (heap s !! c) as [cl |] eqn:E; [| done].
  destruct (decide (p = c)) as [-> | Hne].
  - rewrite lookup_insert_eq. simpl. rewrite Hf, <- Hh, E. done.
  - by rewrite lookup_insert_ne.
Qed.

Lemma preserves_offer_index st data c : preserves (same_index st) (offer data c).
Proof.
  unfold offer. apply preserves_bind; [apply preserves_deref |]. intros cl.
  destruct (closed (Send cl)); [apply preserves_panic |].
  case_decide.
  - apply preserves_modify. intros s. by apply same_index_update.
  - apply preserves_logf. intros s. by apply same_index_logger.
Qed.

Section Frame.
Context `{RT : Runtime}.

Lemma preserves_broadcastMessage_index st message :
  preserves (same_index st) (broadcastMessage message).
Proof.
  unfold broadcastMessage. destruct (marshal message) as [data |].
  - apply preserves_bind; [apply preserves_get |]. intros s. case_decide.
    + destruct (rooms s !! Message.Room message); [| apply preserves_ret].
      apply preserves_for_each. intros p _. apply preserves_offer_index.
    + apply preserves_for_each. intros p _. apply preserves_offer_index.
  - apply preserves_logf. intros s. by apply same_index_logger.
Qed.

Lemma preserves_SendToUser_index st userID message :
  preserves (same_index st) (SendToUser userID message).
Proof.
  unfold SendToUser. destruct (marshal message) as [data |].
  - apply preserves_bind; [apply preserves_get |]. intros s.
    apply preserves_for_each. intros p _.
    apply preserves_bind; [apply preserves_deref |]. intros cl.
    case_decide; [apply preserves_offer_index | apply preserves_ret].
  - apply preserves_logf. intros s. by apply same_index_logger.
Qed.

Lemma broadcastMessage_no_room st message :
  Message.Room message ≠ "" → rooms st !! Message.Room message = None →
  ∃ st', broadcastMessage message st = Ret tt st' ∧
         heap st' = heap st ∧ rooms st' = rooms st ∧ clients st' = clients st.
Proof.
  intros Hroom Hnone. unfold broadcastMessage. destruct (marshal message) as [data |].
  - exists st. unfold bind, get. by rewrite decide_True, Hnone.
  - eexists. split; [reflexivity |]. done.
Qed.

(** C10. [broadcastMessage] and [SendToUser] leave the client registry,
    the room index, every room's member set and every client's room set
    as they were; a broadcast to a room name that has no entry in the
    index returns, changes no client and creates no room. *)
Theorem delivery_frame st userID message :
  (∀ st', leaves (broadcastMessage message) st st' ∨
          leaves (SendToUser userID message) st st' →
     clients st' = clients st ∧ rooms st' = rooms st ∧
     (∀ r, members st' r = members st r) ∧
     (∀ p : nat, Rooms <$> heap st' !! p = Rooms <$> heap st !! p)) ∧
  (Message.Room message ≠ "" → rooms st !! Message.Room message = None →
     ∃ st', broadcastMessage message st = Ret tt st' ∧
            heap st' = heap st ∧ rooms st' = rooms st ∧ clients st' = clients st).
Proof.
  split.
  - intros st' [H | H].
    + by apply (preserves_broadcastMessage_index st message st st').
    + by apply (preserves_SendToUser_index st userID message st st').
  - apply broadcastMessage_no_room.
Qed.

End Frame.

(** ** [SendToUser] runs to completion *)

Lemma elem_of_registry_clients st (p : nat) :
  p ∈ registry_clients st ↔ ∃ i, clients st !! i = Some p.
Proof. unfold registry_clients. rewrite elem_of_list_to_set. apply elem_of_registry_values. Qed.

Section SendToUser.
Context `{RT : Runtime}.

Lemma SendToUser_delivered st userID message data :
  marshal message = Some data →
  ready st (registry_clients st) → registry_inj st →
  ∃ st', SendToUser userID message st = Ret tt st' ∧
    delivered data
      (filter (is_user st userID) (range (map_to_list (clients st))).*2) st st'.
Proof.
  intros Hm Hready Hinj. unfold SendToUser. rewrite Hm.
  erewrite bind_Ret by reflexivity.
  rewrite (for_each_map snd _
    (λ p, do cl <- deref p; if decide (UserID cl = userID) then offer data p else ret tt)).
  set (xs := (range (map_to_list (clients st))).*2).
  assert (NoDup xs) as Hnd.
  { unfold xs. rewrite range_perm. by apply NoDup_registry_values. }
  assert (∀ p, p ∈ xs → ∃ cl, heap st !! p = Some cl ∧ closed (Send cl) = false) as Hxs.
  { intros p Hp. apply Hready, elem_of_registry_clients.
    unfold xs in Hp. rewrite range_perm in Hp. by apply elem_of_registry_values. }
  apply (for_each_ind (λ done s, delivered data (filter (is_user st userID) done) st s));
    [apply delivered_nil |].
  intros done x rest s Hsplit HI.
  assert (x ∉ filter (is_user st userID) done) as Hx.
  { rewrite Hsplit in Hnd. apply NoDup_app in Hnd as (_ & Hnd & _).
    intros Hin. apply list_elem_of_filter in Hin as [_ Hin]. apply (Hnd x Hin). left. }
  destruct (Hxs x) as (cl & Hc & Ho); [rewrite Hsplit; set_solver |].
  assert (heap s !! x = Some cl) as Hcs.
  { destruct HI as (_ & _ & _ & Hh & _). by rewrite Hh, decide_False. }
  erewrite bind_Ret by (by apply deref_Ret). rewrite filter_app.
  destruct (decide (UserID cl = userID)) as [Hu | Hu].
  - exists (offered data x cl s). split; [by apply offer_Ret |].
    rewrite filter_cons_True, filter_nil by (unfold is_user; by rewrite Hc, <- Hu).
    by apply delivered_step.
  - exists s. split; [done |].
    rewrite filter_cons_False, filter_nil, app_nil_r; [done |].
    unfold is_user. rewrite Hc. simpl. congruence.
Qed.

End SendToUser.

(** ** Deciding the invariants on a given state *)

Lemma rooms_agree_check st :
  map_Forall (rooms_agree_at st) (heap st) ↔ rooms_agree st.
Proof.
  split.
  - intros H c cl r Hc. specialize (H c cl Hc).
    destruct (decide (r ∈ dom (rooms st) ∪ Rooms cl)) as [Hin | Hout]; [by apply H |].
    apply not_elem_of_union in Hout as [Hd Hr]. apply not_elem_of_dom in Hd.
    unfold members. rewrite Hd. simpl. set_solver.
  - intros H c cl Hc r _. by apply H.
Qed.

#[global] Instance rooms_agree_dec st : Decision (rooms_agree st).
Proof.
  refine (cast_if (decide (map_Forall (rooms_agree_at st) (heap st))));
    by rewrite <- rooms_agree_check.
Defined.

Lemma ready_check st R : set_Forall (ready_at st) R ↔ ready st R.
Proof.
  unfold ready, set_Forall, ready_at. split; intros H p Hp; specialize (H p Hp).
  - destruct (heap st !! p) as [cl |]; [| done]. exists cl. simpl in H. by inversion H.
  - destruct H as (cl & -> & Hcl). simpl. by rewrite Hcl.
Qed.

#[global] Instance ready_dec st R : Decision (ready st R).
Proof.
  refine (cast_if (decide (set_Forall (ready_at st) R)));
    [by apply ready_check | by intros H%ready_check].
Defined.

(** ** Well-formed hubs *)

Lemma hub_wf_NewHub : hub_wf NewHub.
Proof.
  split.
  - intros c cl r Hc. simpl in Hc. by rewrite lookup_empty in Hc.
  - intros i p H. simpl in H. by rewrite lookup_empty in H.
  - intros p q clp clq H. simpl in H. by rewrite lookup_empty in H.
  - intros p Hp. apply elem_of_registry_clients in Hp as [i Hi].
    simpl in Hi. by rewrite lookup_empty in Hi.
  - intros r p Hp. unfold members in Hp. simpl in Hp. rewrite lookup_empty in Hp.
    simpl in Hp. set_solver.
Qed.

Lemma hub_wf_inj st : hub_wf st → registry_inj st.
Proof.
  intros Hwf i j p Hi Hj.
  destruct (wf_registry st Hwf i p Hi) as (cl & Hc & <-).
  destruct (wf_registry st Hwf j p Hj) as (cl' & Hc' & <-). congruence.
Qed.

Lemma hub_wf_ready st message : hub_wf st → ready st (recipients st message).
Proof.
  intros Hwf. unfold recipients. case_decide.
  - apply (wf_members_ready st Hwf).
  - apply (wf_registry_ready st Hwf).
Qed.

(** In a well-formed hub the test of [unregisterClient] finds the client
    itself, and its queue is open. *)
Lemma hub_wf_registered st c cl :
  hub_wf st → heap st !! c = Some cl → registered st cl →
  clients st !! ID cl = Some c ∧ closed (Send cl) = false.
Proof.
  intros Hwf Hc [q Hq].
  destruct (wf_registry st Hwf _ _ Hq) as (clq & Hclq & Hid).
  assert (q = c) as -> by (eapply (wf_ids st Hwf); eauto).
  split; [done |].
  destruct (wf_registry_ready st Hwf c) as (cl' & Hc' & Ho).
  { apply elem_of_registry_clients. eauto. }
  congruence.
Qed.

Lemma hub_wf_rel st s :
  clients s = clients st → (∀ r, members s r = members st r) →
  (∀ p : nat, option_Forall2 same_identity (heap st !! p) (heap s !! p)) →
  hub_wf st → hub_wf s.
Proof.
  intros Hcl Hm Hh Hwf.
  assert (∀ p cl', heap s !! p = Some cl' →
            ∃ cl, heap st !! p = Some cl ∧ same_identity cl cl') as Hback.
  { intros p cl' Hp. specialize (Hh p). rewrite Hp in Hh. inversion Hh; subst. eauto. }
  assert (∀ p cl, heap st !! p = Some cl →
            ∃ cl', heap s !! p = Some cl' ∧ same_identity cl cl') as Hforth.
  { intros p cl Hp. specialize (Hh p). rewrite Hp in Hh. inversion Hh; subst. eauto. }
  split.
  - intros c cl' r Hc. destruct (Hback _ _ Hc) as (cl & Hc0 & _ & Hr & _).
    rewrite Hm, Hr. by apply (wf_agree st Hwf).
  - intros i p Hi. rewrite Hcl in Hi.
    destruct (wf_registry st Hwf _ _ Hi) as (cl & Hc & Hid).
    destruct (Hforth _ _ Hc) as (cl' & Hc' & Hid' & _). exists cl'. split; congruence.
  - intros p q clp clq Hp Hq Hid.
    destruct (Hback _ _ Hp) as (clp0 & Hp0 & Hidp & _).
    destruct (Hback _ _ Hq) as (clq0 & Hq0 & Hidq & _).
    eapply (wf_ids st Hwf); eauto. congruence.
  - intros p Hp. rewrite elem_of_registry_clients, Hcl, <- elem_of_registry_clients in Hp.
    destruct (wf_registry_ready st Hwf p Hp) as (cl & Hc & Ho).
    destruct (Hforth _ _ Hc) as (cl' & Hc' & _ & _ & Hcl'). exists cl'. split; congruence.
  - intros r p Hp. rewrite Hm in Hp.
    destruct (wf_members_ready st Hwf r p Hp) as (cl & Hc & Ho).
    destruct (Hforth _ _ Hc) as (cl' & Hc' & _ & _ & Hcl'). exists cl'. split; congruence.
Qed.

Lemma same_identity_refl (o : option Client) : option_Forall2 same_identity o o.
Proof. destruct o; by constructor. Qed.

Lemma hub_wf_logger st f : hub_wf st → hub_wf (with_logger f st).
Proof. apply hub_wf_rel; try done. intros p. apply same_identity_refl. Qed.

Lemma hub_wf_broadcast st f : hub_wf st → hub_wf (with_broadcast f st).
Proof. apply hub_wf_rel; try done. intros p. apply same_identity_refl. Qed.

Lemma hub_wf_touch st c cl cl' :
  heap st !! c = Some cl → same_identity cl cl' →
  hub_wf st → hub_wf (with_heap <[c := cl']> st).
Proof.
  intros Hc Hsame. apply hub_wf_rel; try done. intros p. simpl.
  destruct (decide (p = c)) as [-> | Hne].
  - rewrite lookup_insert_eq, Hc. by constructor.
  - rewrite lookup_insert_ne by done. apply same_identity_refl.
Qed.

Lemma preserves_offer_wf data c : preserves hub_wf (offer data c).
Proof.
  intros st st' Hwf H. unfold leaves in H.
  destruct (heap st !! c) as [cl |] eqn:Hc.
  - destruct (closed (Send cl)) eqn:Ho.
    + rewrite (offer_closed _ _ _ _ Hc Ho) in H. by destruct H as [[? ?] | ?].
    + rewrite (offer_Ret _ _ _ _ Hc Ho) in H.
      destruct H as [[a H] | H]; [| discriminate]. inversion H; subst.
      unfold offered. case_decide.
      * eapply hub_wf_touch; [done | | done]. unfold enqueue.
        rewrite decide_True by done. by repeat split.
      * by apply hub_wf_logger.
  - unfold offer, bind, deref in H. rewrite Hc in H. by destruct H as [[? ?] | ?].
Qed.

Lemma preserves_send_broadcast_wf message : preserves hub_wf (send_broadcast message).
Proof. apply preserves_send_broadcast. intros st. apply hub_wf_broadcast. Qed.

Lemma preserves_handleMessage_wf c msg : preserves hub_wf (handleMessage c msg).
Proof.
  unfold handleMessage, handleChatMessage, handleTaskUpdate, handleTypingIndicator.
  repeat case_decide;
    try (apply preserves_bind; [apply preserves_deref | intros cl]);
    try apply preserves_send_broadcast_wf.
  apply preserves_logf. intros st. apply hub_wf_logger.
Qed.

Lemma hub_wf_joined st c room cl :
  heap st !! c = Some cl → closed (Send cl) = false →
  hub_wf st → hub_wf (joined c room cl st).
Proof.
  intros Hc Ho Hwf. split.
  - apply rooms_agree_joined; [done | apply (wf_agree st Hwf)].
  - intros i p Hi. simpl in *.
    destruct (wf_registry st Hwf _ _ Hi) as (clp & Hp & Hid).
    destruct (decide (p = c)) as [-> | Hne].
    + rewrite lookup_insert_eq. eexists. split; [done |]. simpl. congruence.
    + rewrite lookup_insert_ne by done. eauto.
  - intros p q clp clq. simpl.
    destruct (decide (p = c)) as [-> | Hp]; destruct (decide (q = c)) as [-> | Hq];
      rewrite ?lookup_insert_eq, ?lookup_insert_ne by done; try done.
    + intros [= <-] Hq' Hid. simpl in Hid. eapply (wf_ids st Hwf); eauto.
    + intros Hp' [= <-] Hid. simpl in Hid. eapply (wf_ids st Hwf); eauto.
    + apply (wf_ids st Hwf).
  - intros p Hp. apply elem_of_registry_clients in Hp. simpl in *.
    destruct (wf_registry_ready st Hwf p) as (clp & Hcp & Hop);
      [by apply elem_of_registry_clients |].
    destruct (decide (p = c)) as [-> | Hne].
    + rewrite lookup_insert_eq. eexists. split; [done |]. simpl. congruence.
    + rewrite lookup_insert_ne by done. eauto.
  - intros r p Hp. rewrite members_joined in Hp. simpl.
    destruct (decide (p = c)) as [-> | Hne].
    + rewrite lookup_insert_eq. eexists. split; [done |]. done.
    + rewrite lookup_insert_ne by done.
      assert (p ∈ members st r ∨ p ∈ members st room) as [Hin | Hin]
        by (case_decide; set_solver).
      * apply (wf_members_ready st Hwf r p Hin).
      * apply (wf_members_ready st Hwf room p Hin).
Qed.

Lemma hub_wf_left st c room cl :
  heap st !! c = Some cl → hub_wf st → hub_wf (left c room cl st).
Proof.
  intros Hc Hwf. split.
  - apply rooms_agree_left; [done | apply (wf_agree st Hwf)].
  - intros i p Hi. simpl in *.
    destruct (wf_registry st Hwf _ _ Hi) as (clp & Hp & Hid).
    destruct (decide (p = c)) as [-> | Hne].
    + rewrite lookup_insert_eq. eexists. split; [done |]. simpl. congruence.
    + rewrite lookup_insert_ne by done. eauto.
  - intros p q clp clq. simpl.
    destruct (decide (p = c)) as [-> | Hp]; destruct (decide (q = c)) as [-> | Hq];
      rewrite ?lookup_insert_eq, ?lookup_insert_ne by done; try done.
    + intros [= <-] Hq' Hid. simpl in Hid. eapply (wf_ids st Hwf); eauto.
    + intros Hp' [= <-] Hid. simpl in Hid. eapply (wf_ids st Hwf); eauto.
    + apply (wf_ids st Hwf).
  - intros p Hp. apply elem_of_registry_clients in Hp. simpl in *.
    destruct (wf_registry_ready st Hwf p) as (clp & Hcp & Hop);
      [by apply elem_of_registry_clients |].
    destruct (decide (p = c)) as [-> | Hne].
    + rewrite lookup_insert_eq. eexists. split; [done |]. simpl. congruence.
    + rewrite lookup_insert_ne by done. eauto.
  - intros r p Hp. rewrite members_left in Hp. simpl.
    assert (p ∈ members st r ∧ (r = room → p ≠ c)) as [Hin Hneq]
      by (case_decide; set_solver).
    destruct (wf_members_ready st Hwf r p Hin) as (clp & Hcp & Hop).
    destruct (decide (p = c)) as [-> | Hne].
    + rewrite lookup_insert_eq. eexists. split; [done |]. simpl. congruence.
    + rewrite lookup_insert_ne by done. eauto.
Qed.

Lemma leaves_Ret {A} (m : M A) st a s st' : m st = Ret a s → leaves m st st' → st' = s.
Proof. intros E [[b H] | H]; congruence. Qed.

Lemma leaves_Block {A} (m : M A) st s st' : m st = Block s → leaves m st st' → st' = s.
Proof. intros E [[b H] | H]; congruence. Qed.

Lemma leaves_Panic {A} (m : M A) st why st' : m st = Panic why → ¬ leaves m st st'.
Proof. intros E [[b H] | H]; congruence. Qed.

Lemma leaves_send_broadcast message st st' :
  leaves (send_broadcast message) st st' →
  st' = with_broadcast (λ q, q ++ [message]) st ∨ st' = st.
Proof.
  intros H. destruct (decide (length (broadcast st) < broadcastCap)) as [Hr | Hr].
  - left. by eapply leaves_Ret; [apply send_broadcast_Ret |].
  - right. by eapply leaves_Block; [apply send_broadcast_Block |].
Qed.

Lemma hub_wf_registry_insert st c cl :
  heap st !! c = Some cl → closed (Send cl) = false →
  hub_wf st → hub_wf (with_clients <[ID cl := c]> st).
Proof.
  intros Hc Ho Hwf. split.
  - apply (rooms_agree_ext st); [done.. | apply (wf_agree st Hwf)].
  - intros i p. simpl. destruct (decide (i = ID cl)) as [-> | Hne].
    + rewrite lookup_insert_eq. intros [= <-]. eauto.
    + rewrite lookup_insert_ne by done. apply (wf_registry st Hwf).
  - apply (wf_ids st Hwf).
  - intros p Hp. apply elem_of_registry_clients in Hp as [i Hi]. simpl in *.
    destruct (decide (i = ID cl)) as [-> | Hne].
    + rewrite lookup_insert_eq in Hi. inversion Hi; subst. eauto.
    + rewrite lookup_insert_ne in Hi by done.
      apply (wf_registry_ready st Hwf). apply elem_of_registry_clients. eauto.
  - apply (wf_members_ready st Hwf).
Qed.

Lemma hub_wf_registered_in st c cl :
  heap st !! c = Some cl → closed (Send cl) = false →
  hub_wf st → hub_wf (registered_in c cl st).
Proof.
  intros Hc Ho Hwf. unfold registered_in.
  assert (hub_wf (joined c "global" cl
            (with_logger
               (λ l, l ++ [LogInfo ("Client registered: " +:+ ID cl +:+ " (User: " +:+ UserID cl +:+ ")")])
               (with_clients <[ID cl := c]> st)))) as Hg.
  { apply hub_wf_joined; [done.. |]. apply hub_wf_logger. by apply hub_wf_registry_insert. }
  case_decide; [| done].
  apply hub_wf_joined; [| done | done]. simpl. by rewrite lookup_insert_eq.
Qed.

Lemma hub_wf_unregistering st c cl s :
  heap st !! c = Some cl → clients st !! ID cl = Some c →
  unregistering c cl st s → hub_wf st → hub_wf s.
Proof.
  intros Hc Hreg (Hcl & _ & Hh & Hm) Hwf.
  assert (∀ r, c ∉ members s r) as Hout.
  { intros r. rewrite Hm. pose proof (wf_agree st Hwf c cl r Hc).
    case_decide; set_solver. }
  assert (∀ r p, p ∈ members s r → p ∈ members st r ∧ p ≠ c) as Hin.
  { intros r p Hp. split; [| intros ->; by apply (Hout r)].
    rewrite Hm in Hp. case_decide; set_solver. }
  split.
  - intros p clp r. rewrite Hh. destruct (decide (p = c)) as [-> | Hne].
    + rewrite lookup_insert_eq. intros [= <-]. simpl. specialize (Hout r). set_solver.
    + rewrite lookup_insert_ne by done. intros Hp.
      rewrite <- (wf_agree st Hwf p clp r Hp), Hm. case_decide; set_solver.
  - intros i p. rewrite Hcl, Hh. destruct (decide (i = ID cl)) as [-> | Hne].
    + by rewrite lookup_delete_eq.
    + rewrite lookup_delete_ne by done. intros Hi.
      destruct (wf_registry st Hwf _ _ Hi) as (clp & Hp & Hid).
      rewrite lookup_insert_ne by (intros ->; congruence). eauto.
  - intros p q clp clq. rewrite Hh.
    destruct (decide (p = c)) as [-> | Hp]; destruct (decide (q = c)) as [-> | Hq];
      rewrite ?lookup_insert_eq, ?lookup_insert_ne by done; try done.
    + intros [= <-] Hq' Hid. simpl in Hid. eapply (wf_ids st Hwf); eauto.
    + intros Hp' [= <-] Hid. simpl in Hid. eapply (wf_ids st Hwf); eauto.
    + apply (wf_ids st Hwf).
  - intros p Hp. apply elem_of_registry_clients in Hp as [i Hi]. rewrite Hcl in Hi.
    destruct (decide (i = ID cl)) as [-> | Hne]; [by rewrite lookup_delete_eq in Hi |].
    rewrite lookup_delete_ne in Hi by done.
    destruct (wf_registry st Hwf _ _ Hi) as (clp & Hp & Hid).
    destruct (wf_registry_ready st Hwf p) as (clp' & Hp' & Hop);
      [apply elem_of_registry_clients; eauto |].
    rewrite Hh, lookup_insert_ne by (intros ->; congruence). eauto.
  - intros r p Hp. apply Hin in Hp as [Hp Hne].
    destruct (wf_members_ready st Hwf r p Hp) as (clp & Hcp & Hop).
    rewrite Hh, lookup_insert_ne by done. eauto.
Qed.

Lemma hub_wf_alloc st cl :
  Rooms cl = ∅ → closed (Send cl) = false →
  (∀ q clq, heap st !! q = Some clq → ID clq ≠ ID cl) →
  hub_wf st → hub_wf (with_heap <[fresh (dom (heap st)) := cl]> st).
Proof.
  intros Hr Ho Hid Hwf. set (c := fresh (dom (heap st))).
  assert (heap st !! c = None) as Hfresh.
  { apply not_elem_of_dom. apply is_fresh. }
  assert (∀ r, c ∉ members st r) as Hout.
  { intros r Hin. destruct (wf_members_ready st Hwf r c Hin) as (x & Hx & _). congruence. }
  split.
  - intros p clp r. simpl. destruct (decide (p = c)) as [-> | Hne].
    + rewrite lookup_insert_eq. intros [= <-]. rewrite Hr.
      specialize (Hout r). unfold members in *. simpl. set_solver.
    + rewrite lookup_insert_ne by done. apply (wf_agree st Hwf).
  - intros i p Hi. simpl in *.
    destruct (wf_registry st Hwf _ _ Hi) as (clp & Hp & Hidp).
    rewrite lookup_insert_ne by (intros ->; congruence). eauto.
  - intros p q clp clq. simpl.
    destruct (decide (p = c)) as [-> | Hp]; destruct (decide (q = c)) as [-> | Hq];
      rewrite ?lookup_insert_eq, ?lookup_insert_ne by done; try done.
    + intros [= <-] Hq' Heq. symmetry in Heq. by apply Hid in Hq'.
    + intros Hp' [= <-] Heq. by apply Hid in Hp'.
    + apply (wf_ids st Hwf).
  - intros p Hp. destruct (wf_registry_ready st Hwf p Hp) as (clp & Hcp & Hop). simpl.
    rewrite lookup_insert_ne by (intros ->; congruence). eauto.
  - intros r p Hp. destruct (wf_members_ready st Hwf r p Hp) as (clp & Hcp & Hop). simpl.
    rewrite lookup_insert_ne by (intros ->; congruence). eauto.
Qed.

(** ** Reachable states *)

Lemma leaves_eq {A} (m m' : M A) st s st' : m st = m' s → leaves m st st' → leaves m' s st'.
Proof. unfold leaves. by intros ->. Qed.

Section Reachable.
Context `{RT : Runtime}.

Lemma preserves_registerClient_wf c now :
  preserves (λ st, hub_wf st ∧ ∃ cl, heap st !! c = Some cl ∧ closed (Send cl) = false)
            (registerClient c now).
Proof.
  intros st st' [Hwf (cl & Hc & Ho)] H.
  apply (leaves_eq _ _ _ _ _ (registerClient_eq _ _ _ now Hc)) in H.
  assert (hub_wf (registered_in c cl st)) as Hwf' by (by apply hub_wf_registered_in).
  destruct (registered_in_lookup c cl st) as (cl' & Hc' & _ & _ & _ & HS).
  apply leaves_send_broadcast in H as [-> | ->].
  - split; [by apply hub_wf_broadcast |]. exists cl'. simpl. split; [done | congruence].
  - split; [done |]. exists cl'. split; [done | congruence].
Qed.

Lemma preserves_unregisterClient_wf c now : preserves hub_wf (unregisterClient c now).
Proof.
  intros st st' Hwf H. destruct (heap st !! c) as [cl |] eqn:Hc.
  - destruct (decide (registered st cl)) as [Hreg | Hreg].
    + destruct (hub_wf_registered st c cl Hwf Hc Hreg) as [Hself Ho].
      destruct (unregisterClient_eq st c cl now Hc Hreg Ho) as (s & Heq & Hs).
      apply (leaves_eq _ _ _ _ _ Heq) in H.
      assert (hub_wf s) as Hwfs by (by eapply hub_wf_unregistering).
      apply leaves_send_broadcast in H as [-> | ->]; [by apply hub_wf_broadcast | done].
    + apply eq_None_not_Some in Hreg.
      by rewrite (leaves_Ret _ _ _ _ _ (unregisterClient_absent st c cl now Hc Hreg) H).
  - exfalso. eapply leaves_Panic; [| exact H].
    unfold unregisterClient, bind, deref. by rewrite Hc.
Qed.

Lemma preserves_broadcastMessage_wf message : preserves hub_wf (broadcastMessage message).
Proof.
  unfold broadcastMessage. destruct (marshal message) as [data |].
  - apply preserves_bind; [apply preserves_get |]. intros s. case_decide.
    + destruct (rooms s !! Message.Room message); [| apply preserves_ret].
      apply preserves_for_each. intros p _. apply preserves_offer_wf.
    + apply preserves_for_each. intros p _. apply preserves_offer_wf.
  - apply preserves_logf. intros s. apply hub_wf_logger.
Qed.

Lemma preserves_SendToUser_wf userID message : preserves hub_wf (SendToUser userID message).
Proof.
  unfold SendToUser. destruct (marshal message) as [data |].
  - apply preserves_bind; [apply preserves_get |]. intros s.
    apply preserves_for_each. intros p _.
    apply preserves_bind; [apply preserves_deref |]. intros cl.
    case_decide; [apply preserves_offer_wf | apply preserves_ret].
  - apply preserves_logf. intros s. apply hub_wf_logger.
Qed.

Lemma preserves_Run_broadcast_wf : preserves hub_wf Run_broadcast.
Proof.
  unfold Run_broadcast. apply preserves_bind; [apply preserves_get |]. intros s.
  destruct (broadcast s) as [| message q]; [apply preserves_block |].
  apply preserves_bind; [| intros _; apply preserves_broadcastMessage_wf].
  apply preserves_modify. intros st. apply hub_wf_broadcast.
Qed.

Lemma preserves_ReadPump_frame_wf c now frame : preserves hub_wf (ReadPump_frame c now frame).
Proof.
  unfold ReadPump_frame. destruct (unmarshal frame) as [msg |].
  - apply preserves_bind; [apply preserves_deref |]. intros cl.
    apply preserves_handleMessage_wf.
  - apply preserves_logf. intros s. apply hub_wf_logger.
Qed.

Lemma preserves_websocketHandler_wf clientID userID teamID now st st' :
  (∀ q clq, heap st !! q = Some clq → ID clq ≠ clientID) →
  hub_wf st → leaves (websocketHandler clientID userID teamID now) st st' → hub_wf st'.
Proof.
  intros Hid Hwf H. unfold websocketHandler in H.
  apply leaves_bind in H as [(s0 & s & [= <- <-] & H) | H]; [| discriminate].
  apply leaves_bind in H as [([] & s & [= <-] & H) | H]; [| discriminate].
  set (new := {| ID := clientID; UserID := userID; TeamID := teamID;
                 Send := make_chan 256; Rooms := ∅ |}) in *.
  assert (leaves (registerClient (fresh (dom (heap st))) now)
            (with_heap <[fresh (dom (heap st)) := new]> st) st') as Hreg.
  { apply leaves_bind in H as [([] & s & E & H) | H].
    - apply leaves_ret in H. subst. left. eauto.
    - by right. }
  eapply (preserves_registerClient_wf _ now) in Hreg; [by destruct Hreg |].
  split; [by apply hub_wf_alloc |].
  exists new. simpl. by rewrite lookup_insert_eq.
Qed.

Lemma returned_leaves {A} (m : M A) st a st' : m st = Ret a st' → leaves m st st'.
Proof. intros H. left. eauto. Qed.

(** A pass of the write pump, and [SendMessage], change at most the
    contents of one client's queue. *)
Lemma WritePump_recv_Ret st c writer_ok close_ok result st' :
  WritePump_recv c writer_ok close_ok st = Ret result st' →
  st' = st ∨
  ∃ cl q, heap st !! c = Some cl ∧
          st' = with_heap <[c := set_Send (chan_set_buf q (Send cl)) cl]> st.
Proof.
  unfold WritePump_recv, bind, deref. destruct (heap st !! c) as [cl |] eqn:Hc; [| done].
  destruct (buf (Send cl)) as [| message queued].
  - destruct (closed (Send cl)); [| done]. intros [= _ <-]. by left.
  - destruct writer_ok; unfold update, modify, with_heap; simpl; rewrite Hc;
      intros [= _ <-]; right; eauto.
Qed.

Lemma SendMessage_Ret st c message err st' :
  SendMessage c message st = Ret err st' →
  st' = st ∨
  ∃ cl data, heap st !! c = Some cl ∧
             st' = with_heap <[c := set_Send (chan_push data (Send cl)) cl]> st.
Proof.
  unfold SendMessage. destruct (marshal message) as [data |]; [| intros [= _ <-]; by left].
  unfold bind, deref. destruct (heap st !! c) as [cl |] eqn:Hc; [| done].
  destruct (closed (Send cl)); [done |]. case_decide.
  - unfold update, modify, with_heap; simpl; rewrite Hc. intros [= _ <-]. right. eauto.
  - intros [= _ <-]. by left.
Qed.

Lemma server_step_wf st st' : server_step st st' → hub_wf st → hub_wf st'.
Proof.
  intros Hstep Hwf. destruct Hstep as
    [st id u t now c st' Hid H | st c now st' H | st st' H | st c now frame st' H
    | st c wok cok res st' H | st u m st' H | st t m st' H | st c m err st' H
    | st c room st' H].
  - eapply preserves_websocketHandler_wf; eauto using returned_leaves.
  - eapply preserves_unregisterClient_wf; eauto using returned_leaves.
  - eapply preserves_Run_broadcast_wf; eauto using returned_leaves.
  - eapply preserves_ReadPump_frame_wf; eauto using returned_leaves.
  - apply WritePump_recv_Ret in H as [-> | (cl & q & Hc & ->)]; [done |].
    by eapply hub_wf_touch.
  - eapply preserves_SendToUser_wf; eauto using returned_leaves.
  - eapply (preserves_send_broadcast_wf _ st st'); eauto using returned_leaves.
  - apply SendMessage_Ret in H as [-> | (cl & data & Hc & ->)]; [done |].
    by eapply hub_wf_touch.
  - destruct (heap st !! c) as [cl |] eqn:Hc.
    + rewrite (leaveRoom_Ret st c room cl Hc) in H. injection H as <-.
      by apply hub_wf_left.
    + unfold leaveRoom, bind, deref in H. by rewrite Hc in H.
Qed.

Lemma hub_step_wf st st' : hub_step st st' → hub_wf st → hub_wf st'.
Proof.
  intros Hstep Hwf. destruct Hstep as [st st' H | st c cl room st' Hc Hreg H].
  - by eapply server_step_wf.
  - rewrite (joinRoom_Ret st c room cl Hc) in H. injection H as <-.
    apply hub_wf_joined; [done | | done].
    destruct (wf_registry_ready st Hwf c) as (cl' & Hc' & Ho); [| congruence].
    apply elem_of_registry_clients. eauto.
Qed.

Lemma served_reachable st : served st → reachable st.
Proof.
  unfold served, reachable. induction 1 as [| x y z Hxy _ IH]; [apply rtc_refl |].
  eapply rtc_l; [by apply step_server | exact IH].
Qed.

(** Every reachable state is well formed: the hypotheses under which the
    delivery and unregistration results are stated hold throughout. *)
Lemma reachable_wf st : reachable st → hub_wf st.
Proof.
  unfold reachable. revert st. apply rtc_ind_r.
  - apply hub_wf_NewHub.
  - intros s s' _ Hstep IH. by eapply hub_step_wf.
Qed.

(** In a reachable state a broadcast always returns, and unregistering a
    live client never panics. *)
Lemma reachable_broadcast_returns st message :
  reachable st → ∃ st', broadcastMessage message st = Ret tt st'.
Proof.
  intros Hr. apply reachable_wf in Hr. destruct (marshal message) as [data |] eqn:Hm.
  - destruct (broadcastMessage_delivered st message data Hm) as (st' & Hrun & _); eauto.
    + by apply hub_wf_ready.
    + intros _. by apply hub_wf_inj.
  - unfold broadcastMessage. rewrite Hm. by eexists.
Qed.

Lemma reachable_unregister_no_panic st c cl now why :
  reachable st → heap st !! c = Some cl → unregisterClient c now st ≠ Panic why.
Proof.
  intros Hr Hc. apply reachable_wf in Hr.
  destruct (decide (registered st cl)) as [Hreg | Hreg].
  - destruct (hub_wf_registered st c cl Hr Hc Hreg) as [_ Ho].
    destruct (unregisterClient_eq st c cl now Hc Hreg Ho) as (s & -> & _).
    destruct (decide (length (broadcast s) < broadcastCap)).
    + by rewrite send_broadcast_Ret.
    + by rewrite send_broadcast_Block.
  - apply eq_None_not_Some in Hreg. by rewrite (unregisterClient_absent st c cl now Hc Hreg).
Qed.

End Reachable.

Example demo_hub_agree : rooms_agree demo_hub.
Proof. compute_done. Qed.

Lemma rooms_agree_invariant_witness :
  rooms_agree NewHub ∧
  rooms_agree (joined 1 "channel:7" bob demo_hub) ∧
  ∀ c' cl' r, heap (joined 1 "channel:7" bob demo_hub) !! c' = Some cl' →
    registered (joined 1 "channel:7" bob demo_hub) cl' →
    is_Some (rooms (joined 1 "channel:7" bob demo_hub) !! r) →
    (c' ∈ members (joined 1 "channel:7" bob demo_hub) r ↔ r ∈ Rooms cl').
Proof.
  apply (rooms_agree_invariant (RT := demoRuntime) demo_hub 1 "channel:7" 0%Z).
  - compute_done.
  - right. right. left. left. exists tt. vm_compute. reflexivity.
Defined.

Lemma broadcastMessage_exact_witness :
  ∃ st', broadcastMessage (RT := demoRuntime) chat_T1 demo_hub = Ret tt st' ∧
    ∀ p cl, heap demo_hub !! p = Some cl →
      ∃ cl', heap st' !! p = Some cl' ∧
        buf (Send cl') =
          buf (Send cl) ++
          (if decide (p ∈ recipients demo_hub chat_T1 ∧ has_room cl)
           then ["chat|team:T1|u2"] else []).
Proof.
  apply (broadcastMessage_exact (RT := demoRuntime) demo_hub chat_T1 "chat|team:T1|u2").
  - reflexivity.
  - compute_done.
  - intros H. vm_compute in H. discriminate H.
Defined.

Lemma broadcastMessage_full_queue_witness :
  ∃ st', broadcastMessage (RT := demoRuntime) chat_T1 demo_hub = Ret tt st' ∧
    heap st' !! 0 = Some alice ∧
    full_warning alice ∈ logger st' ∧
    ∀ q cq, q ∈ recipients demo_hub chat_T1 → heap demo_hub !! q = Some cq → has_room cq →
      ∃ cq', heap st' !! q = Some cq' ∧
             buf (Send cq') = buf (Send cq) ++ ["chat|team:T1|u2"].
Proof.
  apply (broadcastMessage_full_queue (RT := demoRuntime) demo_hub chat_T1 "chat|team:T1|u2" 0 alice).
  - reflexivity.
  - compute_done.
  - intros H. vm_compute in H. discriminate H.
  - compute_done.
  - vm_compute. reflexivity.
  - vm_compute. lia.
Defined.


Lemma unregisterClient_spec_witness :
  ∃ st' cl' m,
    unregisterClient (RT := demoRuntime) 1 9%Z demo_hub = Ret tt st' ∧
    (∀ r, 1 ∉ members st' r) ∧
    heap st' !! 1 = Some cl' ∧ ID cl' = "c2" ∧ closed (Send cl') = true ∧
    clients st' !! "c2" = None ∧
    broadcast st' = broadcast demo_hub ++ [m] ∧
    Message.Type_ m = "presence" ∧ Message.UserID m = "u2" ∧
    Message.Data m = VMap [("status", VStr "offline")] ∧
    ∀ now', unregisterClient (RT := demoRuntime) 1 now' st' = Ret tt st'.
Proof.
  apply (unregisterClient_spec (RT := demoRuntime) demo_hub 1 bob 9%Z).
  - vm_compute. reflexivity.
  - vm_compute. eauto.
  - compute_done.
  - reflexivity.
  - vm_compute. lia.
Defined.

(** C5, counterexample.  bob (team T1) sends a typing envelope that names
    room "channel:7": it is forwarded with room "team:T1", so the room the
    client specified is not preserved. *)
Lemma typing_room_overwritten :
  ∃ st' m, handleMessage 1 typing_channel7 demo_hub = Ret tt st' ∧
    broadcast st' = [m] ∧
    Message.Room typing_channel7 = "channel:7" ∧
    Message.Room m = "team:T1" ∧
    Message.Room m ≠ Message.Room typing_channel7.
Proof.
  eexists _, _. split; [vm_compute; reflexivity |].
  split; [reflexivity |]. split; [reflexivity |]. split; [reflexivity |].
  discriminate.
Qed.

Lemma handleMessage_routing_witness :
  ∃ st', handleMessage 1 typing_channel7 demo_hub = Ret tt st' ∧
    (Message.Type_ typing_channel7 = "chat" →
       broadcast st' = broadcast demo_hub ++
         [if decide (Message.Room typing_channel7 = "")
          then set_Room ("team:" +:+ TeamID bob) typing_channel7 else typing_channel7]) ∧
    (Message.Type_ typing_channel7 = "task_update" ∨ Message.Type_ typing_channel7 = "typing" →
       broadcast st' = broadcast demo_hub ++ [set_Room ("team:" +:+ TeamID bob) typing_channel7]) ∧
    (Message.Type_ typing_channel7 ≠ "chat" → Message.Type_ typing_channel7 ≠ "task_update" →
     Message.Type_ typing_channel7 ≠ "typing" →
       broadcast st' = broadcast demo_hub ∧
       logger st' = logger demo_hub ++
         [LogWarn ("Unknown message type: " +:+ Message.Type_ typing_channel7)]).
Proof.
  apply (handleMessage_routing demo_hub 1 bob typing_channel7).
  - vm_compute. reflexivity.
  - vm_compute. lia.
Defined.

(** C6, counterexample.  dave has an empty team ID.  When he is
    unregistered, the "offline" presence envelope is queued with an empty
    room, and the next broadcast turn of [Run] delivers it to bob (and to
    every other registered client whose queue has room). *)
Lemma teamless_presence_is_delivered :
  ∃ st1 st2 cl,
    TeamID dave = "" ∧
    unregisterClient (RT := demoRuntime) 3 9%Z demo_hub = Ret tt st1 ∧
    broadcast st1 = [presenceMessage dave false 9%Z] ∧
    Run_broadcast (RT := demoRuntime) st1 = Ret tt st2 ∧
    heap st2 !! 1 = Some cl ∧
    buf (Send cl) = ["presence||anonymous"].
Proof.
  eexists _, _, _. split; [reflexivity |].
  split; [vm_compute; reflexivity |]. split; [vm_compute; reflexivity |].
  split; [vm_compute; reflexivity |]. split; vm_compute; reflexivity.
Qed.

Lemma presence_target_witness :
  ∃ m, sendPresenceUpdate 3 false 9%Z demo_hub =
         Ret tt (with_broadcast (λ q, q ++ [m]) demo_hub) ∧
    Message.Type_ m = "presence" ∧
    Message.UserID m = UserID dave ∧
    Message.Data m = VMap [("status", VStr "offline")] ∧
    (TeamID dave ≠ "" →
       Message.Room m = "team:" +:+ TeamID dave ∧
       ∀ s, recipients s m = members s ("team:" +:+ TeamID dave)) ∧
    (TeamID dave = "" →
       Message.Room m = "" ∧
       ∀ s (p : nat), p ∈ recipients s m ↔ ∃ i, clients s !! i = Some p).
Proof.
  apply (presence_target demo_hub 3 dave false 9%Z).
  - vm_compute. reflexivity.
  - vm_compute. lia.
Defined.

Lemma ReadPump_frame_overwrites_witness :
  ReadPump_frame (RT := demoRuntime) 1 9%Z "chat|team:T1|mallory" demo_hub =
    handleMessage 1 {| Message.Type_ := "chat"; Message.Room := "team:T1";
                       Message.UserID := "u2"; Message.Data := VNull;
                       Message.Timestamp := 9%Z |} demo_hub ∧
  ReadPump_frame (RT := demoRuntime) 1 9%Z "chat|team:T1|mallory" demo_hub =
  ReadPump_frame (RT := demoRuntime) 1 9%Z "chat|team:T1|u1" demo_hub.
Proof.
  apply (ReadPump_frame_overwrites (RT := demoRuntime) demo_hub 1 bob 9%Z
           "chat|team:T1|mallory" "chat|team:T1|u1"
           {| Message.Type_ := "chat"; Message.Room := "team:T1"; Message.UserID := "mallory";
              Message.Data := VNull; Message.Timestamp := 0%Z |}
           {| Message.Type_ := "chat"; Message.Room := "team:T1"; Message.UserID := "u1";
              Message.Data := VNull; Message.Timestamp := 0%Z |});
    vm_compute; reflexivity.
Defined.


Lemma delivery_frame_witness :
  leaves (broadcastMessage (RT := demoRuntime) chat_T1) demo_hub demo_after_chat ∧
  (clients demo_after_chat = clients demo_hub ∧ rooms demo_after_chat = rooms demo_hub ∧
   (∀ r, members demo_after_chat r = members demo_hub r) ∧
   (∀ p : nat, Rooms <$> heap demo_after_chat !! p = Rooms <$> heap demo_hub !! p)) ∧
  ∃ st', broadcastMessage (RT := demoRuntime) chat_channel9 demo_hub = Ret tt st' ∧
         heap st' = heap demo_hub ∧ rooms st' = rooms demo_hub ∧
         clients st' = clients demo_hub.
Proof.
  assert (leaves (broadcastMessage (RT := demoRuntime) chat_T1) demo_hub demo_after_chat) as H.
  { left. exists tt. vm_compute. reflexivity. }
  split; [exact H |]. split.
  - apply (proj1 (delivery_frame (RT := demoRuntime) demo_hub "u2" chat_T1)). by left.
  - apply (proj2 (delivery_frame (RT := demoRuntime) demo_hub "u2" chat_channel9)).
    + discriminate.
    + vm_compute. reflexivity.
Defined.

(** ** Rooms are created lazily and deleted when empty *)

Lemma no_empty_rooms_ext st st' :
  rooms st' = rooms st → no_empty_rooms st → no_empty_rooms st'.
Proof. intros Hr H r s. rewrite Hr. apply H. Qed.

Lemma no_empty_rooms_joined st c room cl :
  no_empty_rooms st → no_empty_rooms (joined c room cl st).
Proof.
  intros H r s. simpl. destruct (decide (r = room)) as [-> | Hne].
  - rewrite lookup_insert_eq. intros [= <-]. set_solver.
  - rewrite lookup_insert_ne by done. apply H.
Qed.

Lemma no_empty_rooms_left st c room cl :
  no_empty_rooms st → no_empty_rooms (left c room cl st).
Proof.
  intros H r s. simpl. unfold left_rooms.
  destruct (rooms st !! room) as [s0 |] eqn:Hs; [| apply H].
  case_decide as Hz.
  - destruct (decide (r = room)) as [-> | Hne].
    + by rewrite lookup_delete_eq.
    + rewrite lookup_delete_ne by done. apply H.
  - destruct (decide (r = room)) as [-> | Hne].
    + rewrite lookup_insert_eq. intros [= <-] He. apply Hz. rewrite He. apply size_empty.
    + rewrite lookup_insert_ne by done. apply H.
Qed.

Lemma preserves_joinRoom_nonempty c room : preserves no_empty_rooms (joinRoom c room).
Proof.
  intros st st' HI H. destruct (heap st !! c) as [cl |] eqn:Hc.
  - rewrite (leaves_Ret _ _ _ _ _ (joinRoom_Ret st c room cl Hc) H).
    by apply no_empty_rooms_joined.
  - exfalso. eapply leaves_Panic; [| exact H]. unfold joinRoom, bind, deref. by rewrite Hc.
Qed.

Lemma preserves_leaveRoom_nonempty c room : preserves no_empty_rooms (leaveRoom c room).
Proof.
  intros st st' HI H. destruct (heap st !! c) as [cl |] eqn:Hc.
  - rewrite (leaves_Ret _ _ _ _ _ (leaveRoom_Ret st c room cl Hc) H).
    by apply no_empty_rooms_left.
  - exfalso. eapply leaves_Panic; [| exact H]. unfold leaveRoom, bind, deref. by rewrite Hc.
Qed.

Lemma preserves_sendPresenceUpdate_nonempty c online now :
  preserves no_empty_rooms (sendPresenceUpdate c online now).
Proof.
  unfold sendPresenceUpdate. apply preserves_bind; [apply preserves_deref |].
  intros cl. apply preserves_send_broadcast. intros st. by apply no_empty_rooms_ext.
Qed.

Lemma preserves_registerClient_nonempty c now :
  preserves no_empty_rooms (registerClient c now).
Proof.
  unfold registerClient. apply preserves_bind; [apply preserves_deref |]. intros cl.
  apply preserves_bind; [apply preserves_modify; intros st; by apply no_empty_rooms_ext |]. intros _.
  apply preserves_bind; [apply preserves_logf; intros st; by apply no_empty_rooms_ext |]. intros _.
  apply preserves_bind; [apply preserves_joinRoom_nonempty |]. intros _.
  apply preserves_bind.
  { case_decide; [apply preserves_joinRoom_nonempty | apply preserves_ret]. }
  intros _. apply preserves_sendPresenceUpdate_nonempty.
Qed.

Section Rooms.
Context `{RT : Runtime}.

Lemma preserves_unregisterClient_nonempty c now :
  preserves no_empty_rooms (unregisterClient c now).
Proof.
  unfold unregisterClient. apply preserves_bind; [apply preserves_deref |]. intros cl.
  apply preserves_bind; [apply preserves_get |]. intros s.
  destruct (clients s !! ID cl); [| apply preserves_ret].
  apply preserves_bind; [apply preserves_modify; intros st; by apply no_empty_rooms_ext |]. intros _.
  apply preserves_bind.
  { unfold close_Send. apply preserves_bind; [apply preserves_deref |]. intros cl'.
    destruct (closed (Send cl')); [apply preserves_panic |].
    apply preserves_modify. intros st. by apply no_empty_rooms_ext. }
  intros _. apply preserves_bind.
  { apply preserves_for_each. intros r _. apply preserves_leaveRoom_nonempty. }
  intros _.
  apply preserves_bind; [apply preserves_logf; intros st; by apply no_empty_rooms_ext |]. intros _.
  apply preserves_sendPresenceUpdate_nonempty.
Qed.

(** X1. The room index never holds an empty room: that holds in the new
    hub and in every state [registerClient], [unregisterClient],
    [joinRoom] or [leaveRoom] leaves behind when it held before; a room
    name has an entry exactly when the room has a member. *)
Theorem no_empty_rooms_invariant st c room now st' :
  no_empty_rooms st →
  leaves (registerClient c now) st st' ∨ leaves (unregisterClient c now) st st' ∨
  leaves (joinRoom c room) st st' ∨ leaves (leaveRoom c room) st st' →
  no_empty_rooms NewHub ∧
  no_empty_rooms st' ∧
  ∀ r, is_Some (rooms st' !! r) ↔ members st' r ≠ ∅.
Proof.
  intros HI Hop. split; [intros r s H; simpl in H; by rewrite lookup_empty in H |].
  assert (no_empty_rooms st') as HI'.
  { destruct Hop as [H | [H | [H | H]]].
    - eapply preserves_registerClient_nonempty; eauto.
    - eapply preserves_unregisterClient_nonempty; eauto.
    - eapply preserves_joinRoom_nonempty; eauto.
    - eapply preserves_leaveRoom_nonempty; eauto. }
  split; [done |]. intros r. unfold members. split.
  - intros [s Hs]. rewrite Hs. simpl. by eapply HI'.
  - destruct (rooms st' !! r); [by eexists | done].
Qed.

End Rooms.

(** X2. Leaving a room right after joining it undoes the join: for a
    client that was not in the room, the room index, the client's room set
    and everything else but the log are as before — a room the join
    created is deleted again. *)
Theorem leaveRoom_joinRoom st c cl room :
  heap st !! c = Some cl →
  no_empty_rooms st →
  room ∉ Rooms cl →
  c ∉ members st room →
  ∃ s st', joinRoom c room st = Ret tt s ∧ leaveRoom c room s = Ret tt st' ∧
    heap st' = heap st ∧ rooms st' = rooms st ∧
    clients st' = clients st ∧ broadcast st' = broadcast st.
Proof.
  intros Hc Hne Hr Hm. eexists _, _. split; [by apply joinRoom_Ret |].
  split; [apply leaveRoom_Ret; simpl; apply lookup_insert_eq |].
  simpl. split; [| split; [| done]].
  - rewrite insert_insert_eq. apply insert_id. rewrite Hc. f_equal.
    symmetry. destruct cl as [i u t s rs]. unfold set_Rooms. simpl in *. f_equal. set_solver.
  - unfold left_rooms. rewrite lookup_insert_eq.
    assert (({[c]} ∪ members st room) ∖ {[c]} = members st room) as Heq by set_solver.
    cbv zeta. rewrite Heq. unfold members in *.
    destruct (rooms st !! room) as [s |] eqn:Hs.
    + change (default ∅ (Some s)) with s in *. rewrite decide_False.
      * rewrite insert_insert_eq. by apply insert_id.
      * intros Hz. apply size_empty_inv in Hz. apply (Hne room s Hs). by apply leibniz_equiv.
    + change (default ∅ None) with (∅ : gset nat) in *.
      rewrite decide_True by (by rewrite size_empty).
      rewrite delete_insert_eq. by apply delete_id.
Qed.

(** X3. [joinRoom] is idempotent: joining a room the client has just
    joined changes neither the room index nor any room set. *)
Theorem joinRoom_idempotent st c cl room :
  heap st !! c = Some cl →
  ∃ s s', joinRoom c room st = Ret tt s ∧ joinRoom c room s = Ret tt s' ∧
    heap s' = heap s ∧ rooms s' = rooms s ∧
    clients s' = clients s ∧ broadcast s' = broadcast s.
Proof.
  intros Hc. eexists _, _. split; [by apply joinRoom_Ret |].
  split; [apply joinRoom_Ret; simpl; apply lookup_insert_eq |].
  simpl. split; [| split; [| done]].
  - rewrite insert_insert_eq. f_equal. unfold set_Rooms. simpl. f_equal. set_solver.
  - rewrite insert_insert_eq. f_equal. unfold members. simpl.
    rewrite lookup_insert_eq. simpl. set_solver.
Qed.

(** X4. Leaving a room the client is not in — in particular a room that
    does not exist — changes neither the room index nor any room set and
    creates no room. *)
Theorem leaveRoom_not_member st c cl room :
  heap st !! c = Some cl →
  no_empty_rooms st →
  room ∉ Rooms cl →
  c ∉ members st room →
  ∃ st', leaveRoom c room st = Ret tt st' ∧
    heap st' = heap st ∧ rooms st' = rooms st ∧
    clients st' = clients st ∧ broadcast st' = broadcast st.
Proof.
  intros Hc Hne Hr Hm. eexists. split; [by apply leaveRoom_Ret |].
  simpl. split; [| split; [| done]].
  - apply insert_id. rewrite Hc. f_equal.
    symmetry. destruct cl as [i u t s rs]. unfold set_Rooms. simpl in *. f_equal. set_solver.
  - unfold left_rooms, members in *. destruct (rooms st !! room) as [s |] eqn:Hs; [| done].
    change (default ∅ (Some s)) with s in *.
    assert (s ∖ {[c]} = s) as Heq by set_solver. cbv zeta. rewrite Heq.
    rewrite decide_False.
    + by apply insert_id.
    + intros Hz. apply size_empty_inv in Hz. apply (Hne room s Hs). by apply leibniz_equiv.
Qed.

(** ** Delivery: users, teams, order *)

Lemma delivered_lookup data xs st st' (p : nat) cl :
  delivered data xs st st' → heap st !! p = Some cl →
  ∃ cl', heap st' !! p = Some cl' ∧
    buf (Send cl') = buf (Send cl) ++ (if decide (p ∈ xs ∧ has_room cl) then [data] else []) ∧
    ID cl' = ID cl ∧ UserID cl' = UserID cl ∧ TeamID cl' = TeamID cl ∧
    Rooms cl' = Rooms cl ∧ cap (Send cl') = cap (Send cl) ∧
    closed (Send cl') = closed (Send cl).
Proof.
  intros (_ & _ & _ & Hh & _) Hp. rewrite Hh, Hp.
  destruct (decide (p ∈ xs)) as [Hin | Hout]; simpl.
  - eexists. split; [done |]. unfold enqueue. destruct (decide (has_room cl)) as [Hr | Hr].
    + rewrite decide_True by done. done.
    + rewrite decide_False by (by intros [_ ?]). by rewrite app_nil_r.
  - exists cl. split; [done |]. rewrite decide_False by (by intros [? _]).
    by rewrite app_nil_r.
Qed.

Section Delivery2.
Context `{RT : Runtime}.

Lemma Run_broadcast_cons st message q :
  broadcast st = message :: q →
  Run_broadcast st = broadcastMessage message (with_broadcast (λ _, q) st).
Proof. intros H. unfold Run_broadcast, bind, get, modify. by rewrite H. Qed.

(** X5. [SendToUser] returns and appends the frame, once, to the queue of
    exactly the registered clients whose user ID is the given one and
    whose queue has room, whatever rooms they are in; every other queue is
    unchanged. *)
Theorem SendToUser_exact st userID message data :
  marshal message = Some data →
  ready st (registry_clients st) →
  registry_inj st →
  ∃ st', SendToUser userID message st = Ret tt st' ∧
    ∀ (p : nat) cl, heap st !! p = Some cl →
      ∃ cl', heap st' !! p = Some cl' ∧
        buf (Send cl') =
          buf (Send cl) ++
          (if decide ((p ∈ registry_clients st ∧ UserID cl = userID) ∧ has_room cl)
           then [data] else []).
Proof.
  intros Hm Hready Hinj.
  destruct (SendToUser_delivered st userID message data Hm Hready Hinj) as (st' & Hrun & Hd).
  exists st'. split; [done |]. intros p cl Hp.
  destruct (delivered_lookup _ _ _ _ p cl Hd Hp) as (cl' & Hp' & Hbuf & _).
  exists cl'. split; [done |]. rewrite Hbuf.
  assert (p ∈ filter (is_user st userID) (range (map_to_list (clients st))).*2 ↔
          p ∈ registry_clients st ∧ UserID cl = userID) as Hiff.
  { rewrite list_elem_of_filter, range_perm. unfold is_user. rewrite Hp. simpl.
    rewrite elem_of_registry_clients, elem_of_registry_values. split.
    - intros [[= ?] ?]. done.
    - intros [? ->]. done. }
  destruct (decide ((p ∈ registry_clients st ∧ UserID cl = userID) ∧ has_room cl)) as [[H1 H2] | H].
  - rewrite decide_True; [done |]. split; [by apply Hiff | done].
  - rewrite decide_False; [done |]. intros [H1 H2]. apply H. split; [by apply Hiff | done].
Qed.

(** X6. [SendToTeam] followed by the broadcast turn of [Run]: the
    envelope is queued with room "team:<teamID>" whatever room it named,
    and is then delivered to exactly the members of that room — never to
    the whole registry, even for the empty team ID. *)
Theorem SendToTeam_delivers st teamID message data :
  broadcast st = [] →
  marshal (set_Room ("team:" +:+ teamID) message) = Some data →
  ready st (members st ("team:" +:+ teamID)) →
  ∃ s st', SendToTeam teamID message st = Ret tt s ∧
    broadcast s = [set_Room ("team:" +:+ teamID) message] ∧
    Run_broadcast s = Ret tt st' ∧
    broadcast st' = [] ∧
    ∀ (p : nat) cl, heap st !! p = Some cl →
      ∃ cl', heap st' !! p = Some cl' ∧
        buf (Send cl') =
          buf (Send cl) ++
          (if decide (p ∈ members st ("team:" +:+ teamID) ∧ has_room cl)
           then [data] else []).
Proof.
  intros Hb Hm Hready. set (m := set_Room ("team:" +:+ teamID) message) in *.
  exists (with_broadcast (λ q, q ++ [m]) st).
  assert (Message.Room m ≠ "") as Hroom by done.
  set (s0 := with_broadcast (λ _, []) (with_broadcast (λ q, q ++ [m]) st)).
  destruct (broadcastMessage_delivered s0 m data Hm) as (st' & Hrun & Hd).
  { rewrite recipients_room by done. exact Hready. }
  { intros He. by rewrite He in Hroom. }
  exists st'. split.
  { unfold SendToTeam. apply send_broadcast_Ret. rewrite Hb. unfold broadcastCap. simpl. lia. }
  split; [simpl; by rewrite Hb |].
  split; [rewrite (Run_broadcast_cons _ m []); [exact Hrun | simpl; by rewrite Hb] |].
  split; [by destruct Hd as (_ & _ & -> & _) |].
  intros p cl Hp.
  destruct (delivered_lookup _ _ _ _ p cl Hd Hp) as (cl' & Hp' & Hbuf & _).
  exists cl'. split; [done |]. rewrite Hbuf.
  rewrite (recipients_room s0 m Hroom).
  change (members s0 (Message.Room m)) with (members st ("team:" +:+ teamID)).
  destruct (decide (p ∈ members st ("team:" +:+ teamID) ∧ has_room cl)) as [[H1 H2] | H].
  - rewrite decide_True; [done |]. split; [by apply elem_of_elements | done].
  - rewrite decide_False; [done |]. intros [H1 H2]. apply H.
    split; [by apply elem_of_elements | done].
Qed.

End Delivery2.

(** ** What registration and unregistration leave in place *)

Lemma registered_in_heap c cl st :
  heap (registered_in c cl st) = <[c := set_Rooms (default_rooms cl ∪ Rooms cl) cl]> (heap st).
Proof.
  unfold registered_in, default_rooms. case_decide; simpl.
  - rewrite insert_insert_eq. f_equal; try (unfold set_Rooms; simpl; f_equal; set_solver).
  - f_equal; try (unfold set_Rooms; f_equal; set_solver).
Qed.

Lemma registered_in_members c cl st r :
  members (registered_in c cl st) r =
  if decide (r ∈ default_rooms cl) then {[c]} ∪ members st r else members st r.
Proof.
  unfold registered_in, default_rooms. case_decide as Ht.
  - rewrite !members_joined.
    change (members (with_logger _ (with_clients _ st))) with (members st).
    destruct (decide (r = "team:" +:+ TeamID cl)) as [-> | Hne1].
    + rewrite decide_False by done. rewrite decide_True by set_solver. done.
    + destruct (decide (r = "global")) as [-> | Hne2].
      * rewrite decide_True by set_solver. done.
      * rewrite decide_False by set_solver. done.
  - rewrite members_joined.
    change (members (with_logger _ (with_clients _ st))) with (members st).
    destruct (decide (r = "global")) as [-> | Hne2].
    + rewrite decide_True by set_solver. done.
    + rewrite decide_False by set_solver. done.
Qed.

Lemma registered_in_clients c cl st :
  clients (registered_in c cl st) = <[ID cl := c]> (clients st).
Proof. unfold registered_in. by case_decide. Qed.

Section Presence.
Context `{RT : Runtime}.

(** X7. Registration followed by the broadcast turn of [Run]: the
    "online" presence frame of a client with a team reaches the members of
    its team room and the registering client itself, and nobody else. *)
Theorem register_presence_delivered st c cl now data :
  heap st !! c = Some cl →
  closed (Send cl) = false →
  TeamID cl ≠ "" →
  broadcast st = [] →
  ready st (members st ("team:" +:+ TeamID cl)) →
  marshal (presenceMessage cl true now) = Some data →
  ∃ s st', registerClient c now st = Ret tt s ∧ Run_broadcast s = Ret tt st' ∧
    ∀ (p : nat) clp, heap st !! p = Some clp →
      ∃ clp', heap st' !! p = Some clp' ∧
        buf (Send clp') =
          buf (Send clp) ++
          (if decide ((p = c ∨ p ∈ members st ("team:" +:+ TeamID cl)) ∧ has_room clp)
           then [data] else []).
Proof.
  intros Hc Ho Ht Hb Hready Hm. set (m := presenceMessage cl true now) in *.
  assert (Message.Room m = "team:" +:+ TeamID cl) as Hroom.
  { unfold m, presenceMessage. by rewrite decide_True. }
  assert (Message.Room m ≠ "") as Hne by (by rewrite Hroom).
  set (s := with_broadcast (λ q, q ++ [m]) (registered_in c cl st)).
  set (s0 := with_broadcast (λ _, []) s).
  assert (∀ p, p ∈ members s0 ("team:" +:+ TeamID cl) ↔
               p = c ∨ p ∈ members st ("team:" +:+ TeamID cl)) as Hmem.
  { intros p. change (members s0) with (members (registered_in c cl st)).
    rewrite registered_in_members. rewrite decide_True.
    - set_solver.
    - unfold default_rooms. rewrite decide_True by done. set_solver. }
  assert (∀ p clp, heap st !! p = Some clp →
            ∃ clq, heap s0 !! p = Some clq ∧ Send clq = Send clp) as Hheap.
  { intros p clp Hp. change (heap s0) with (heap (registered_in c cl st)).
    rewrite registered_in_heap. destruct (decide (p = c)) as [-> | Hpc].
    - rewrite lookup_insert_eq. eexists. split; [done |]. simpl. congruence.
    - rewrite lookup_insert_ne by done. eauto. }
  destruct (broadcastMessage_delivered s0 m data Hm) as (st' & Hrun & Hd).
  { rewrite recipients_room by done. rewrite Hroom. intros p Hp.
    apply Hmem in Hp as [-> | Hp].
    - destruct (Hheap c cl Hc) as (clq & Hq & HS). exists clq. split; [done | congruence].
    - destruct (Hready p Hp) as (clp & Hp' & Hop).
      destruct (Hheap p clp Hp') as (clq & Hq & HS). exists clq. split; [done | congruence]. }
  { intros He. by rewrite He in Hne. }
  exists s, st'. split.
  { rewrite (registerClient_eq _ _ _ _ Hc). apply send_broadcast_Ret.
    rewrite registered_in_broadcast, Hb. unfold broadcastCap. simpl. lia. }
  split.
  { rewrite (Run_broadcast_cons _ m []); [exact Hrun |].
    simpl. by rewrite registered_in_broadcast, Hb. }
  intros p clp Hp. destruct (Hheap p clp Hp) as (clq & Hq & HS).
  destruct (delivered_lookup _ _ _ _ p clq Hd Hq) as (clp' & Hp' & Hbuf & _).
  exists clp'. split; [done |]. rewrite Hbuf.
  assert (has_room clq ↔ has_room clp) as Hhr by (unfold has_room; by rewrite HS).
  rewrite (recipients_room s0 m Hne), Hroom.
  destruct (decide ((p = c ∨ p ∈ members st ("team:" +:+ TeamID cl)) ∧ has_room clp))
    as [[H1 H2] | H].
  - rewrite decide_True; [by rewrite HS |]. split; [| by apply Hhr].
    apply elem_of_elements. by apply Hmem.
  - rewrite decide_False; [by rewrite HS |]. intros [H1 H2]. apply H. split; [| by apply Hhr].
    apply elem_of_elements in H1. by apply Hmem.
Qed.

(** X8. Frames reach a client in the order of the broadcasts: after two
    broadcasts addressed to a client whose queue has room for both, its
    queue is the old queue followed by the first frame and then the
    second. *)
Theorem broadcast_order st m1 m2 d1 d2 (p : nat) cl :
  marshal m1 = Some d1 →
  marshal m2 = Some d2 →
  ready st (recipients st m1) →
  ready st (recipients st m2) →
  registry_inj st →
  p ∈ recipients st m1 →
  p ∈ recipients st m2 →
  heap st !! p = Some cl →
  (length (buf (Send cl)) + 2 ≤ cap (Send cl))%nat →
  ∃ s st', broadcastMessage m1 st = Ret tt s ∧ broadcastMessage m2 s = Ret tt st' ∧
    ∃ cl', heap st' !! p = Some cl' ∧ buf (Send cl') = buf (Send cl) ++ [d1; d2].
Proof.
  intros H1 H2 Hr1 Hr2 Hinj Hp1 Hp2 Hp Hcap.
  destruct (broadcastMessage_delivered st m1 d1 H1 Hr1 (λ _, Hinj)) as (s & Hrun1 & Hd1).
  assert (recipients s m2 = recipients st m2) as Hrec.
  { destruct Hd1 as (Hc & Hr & _). unfold recipients, members. by rewrite Hc, Hr. }
  destruct (broadcastMessage_delivered s m2 d2 H2) as (st' & Hrun2 & Hd2).
  { rewrite Hrec. intros q Hq. destruct (Hr2 q Hq) as (clq & Hq' & Hoq).
    destruct (delivered_lookup _ _ _ _ q clq Hd1 Hq') as (clq' & Hq'' & _ & _ & _ & _ & _ & _ & Hcl).
    exists clq'. split; [done | congruence]. }
  { intros _ i j q. destruct Hd1 as (-> & _). apply Hinj. }
  exists s, st'. split; [done |]. split; [done |].
  destruct (delivered_lookup _ _ _ _ p cl Hd1 Hp) as (cl1 & Hp' & Hbuf1 & _ & _ & _ & _ & Hcap1 & _).
  destruct (delivered_lookup _ _ _ _ p cl1 Hd2 Hp') as (cl2 & Hp'' & Hbuf2 & _).
  rewrite decide_True in Hbuf1
    by (split; [by apply elem_of_elements | unfold has_room; lia]).
  rewrite decide_True in Hbuf2.
  2: { split; [apply elem_of_elements; by rewrite Hrec |].
       unfold has_room. rewrite Hbuf1, Hcap1, length_app. simpl. lia. }
  exists cl2. split; [done |]. by rewrite Hbuf2, Hbuf1, <- app_assoc.
Qed.

End Presence.

Section Lifecycle.
Context `{RT : Runtime}.

(** X9. Unregistering one client leaves every other client alone: the
    records (and so the queues) of the other clients, their membership of
    every room and the registry entries under other IDs are unchanged. *)
Theorem unregisterClient_frame st c cl now :
  heap st !! c = Some cl →
  registered st cl →
  closed (Send cl) = false →
  length (broadcast st) < broadcastCap →
  ∃ st', unregisterClient c now st = Ret tt st' ∧
    (∀ p, p ≠ c → heap st' !! p = heap st !! p) ∧
    (∀ p r, p ≠ c → (p ∈ members st' r ↔ p ∈ members st r)) ∧
    (∀ i, i ≠ ID cl → clients st' !! i = clients st !! i).
Proof.
  intros Hc Hreg Ho Hroom.
  destruct (unregisterClient_eq st c cl now Hc Hreg Ho) as (s & Hrun & Hcl & Hb & Hh & Hm).
  rewrite send_broadcast_Ret in Hrun by (by rewrite Hb).
  eexists. split; [exact Hrun |]. simpl. split; [| split].
  - intros p Hp. by rewrite Hh, lookup_insert_ne.
  - intros p r Hp. change (members (with_broadcast _ s) r) with (members s r).
    rewrite Hm. case_decide; set_solver.
  - intros i Hi. by rewrite Hcl, lookup_delete_ne.
Qed.

(** X10. Once [registerClient] has returned for a client with a team — it
    returns when the broadcast channel has room for the presence envelope
    — [GetOnlineUsers] of that team lists the client's user ID.  (While
    [registerClient] is parked on a full channel it holds [h.mu], and
    [GetOnlineUsers] waits for the lock: nothing is said of that case.) *)
Theorem GetOnlineUsers_registered st c cl now :
  heap st !! c = Some cl →
  TeamID cl ≠ "" →
  length (broadcast st) < broadcastCap →
  ∃ st', registerClient c now st = Ret tt st' ∧
         UserID cl ∈ GetOnlineUsers (TeamID cl) st'.
Proof.
  intros Hc Ht Hroom. rewrite (registerClient_eq _ _ _ now Hc).
  rewrite send_broadcast_Ret by (by rewrite registered_in_broadcast).
  eexists. split; [reflexivity |].
  destruct (registered_in_lookup c cl st) as (cl' & Hc' & Hu & _).
  apply elem_of_GetOnlineUsers. exists c, cl'.
  split; [by apply registered_in_team | done].
Qed.

(** X11. After a client is unregistered, [GetOnlineUsers] of a team lists
    a user exactly when another client of that user is still in the team
    room: a user with a second connection stays online, a user whose only
    connection closed does not. *)
Theorem GetOnlineUsers_unregistered st c cl now :
  heap st !! c = Some cl →
  registered st cl →
  rooms_agree st →
  closed (Send cl) = false →
  length (broadcast st) < broadcastCap →
  ∃ st', unregisterClient c now st = Ret tt st' ∧
    ∀ teamID (u : string),
      u ∈ GetOnlineUsers teamID st' ↔
      ∃ p clp, p ≠ c ∧ p ∈ members st ("team:" +:+ teamID) ∧
               heap st !! p = Some clp ∧ UserID clp = u.
Proof.
  intros Hc Hreg Hagree Ho Hroom.
  destruct (unregisterClient_eq st c cl now Hc Hreg Ho) as (s & Hrun & Hcl & Hb & Hh & Hm).
  rewrite send_broadcast_Ret in Hrun by (by rewrite Hb).
  eexists. split; [exact Hrun |]. intros teamID u. rewrite elem_of_GetOnlineUsers.
  change (members (with_broadcast _ s)) with (members s).
  change (heap (with_broadcast _ s)) with (heap s).
  assert (∀ r, c ∉ members s r) as Hout.
  { intros r. rewrite Hm. specialize (Hagree c cl r Hc). case_decide; set_solver. }
  split.
  - intros (p & clp & Hp & Hhp & Hu).
    assert (p ≠ c) as Hne by (intros ->; by apply (Hout _ Hp)).
    exists p, clp. split; [done |]. split.
    + rewrite Hm in Hp. case_decide; set_solver.
    + rewrite Hh, lookup_insert_ne in Hhp by done. done.
  - intros (p & clp & Hne & Hp & Hhp & Hu). exists p, clp. split.
    + rewrite Hm. case_decide; set_solver.
    + by rewrite Hh, lookup_insert_ne.
Qed.

(** X12. The registry is keyed by [Client.ID] but the rooms by the client
    itself.  When two live clients carry the same ID, are both registered,
    and the first is then unregistered, the registry entry that goes is
    the second client's: the second client is left in its rooms with an
    open queue, and [unregisterClient] on it no longer does anything. *)
Theorem reused_id_orphans_client st (c1 c2 : nat) cl1 cl2 now :
  c1 ≠ c2 →
  heap st !! c1 = Some cl1 →
  heap st !! c2 = Some cl2 →
  ID cl1 = ID cl2 →
  closed (Send cl1) = false →
  (length (broadcast st) + 3 ≤ broadcastCap)%nat →
  ∃ s1 s2 s3 cl2',
    registerClient c1 now st = Ret tt s1 ∧
    registerClient c2 now s1 = Ret tt s2 ∧
    clients s2 !! ID cl2 = Some c2 ∧
    unregisterClient c1 now s2 = Ret tt s3 ∧
    clients s3 !! ID cl2 = None ∧
    c2 ∈ members s3 "global" ∧
    heap s3 !! c2 = Some cl2' ∧ closed (Send cl2') = closed (Send cl2) ∧
    ∀ now', unregisterClient c2 now' s3 = Ret tt s3.
Proof.
  intros Hne H1 H2 Hid Ho Hcap.
  set (s1 := with_broadcast (λ q, q ++ [presenceMessage cl1 true now]) (registered_in c1 cl1 st)).
  assert (registerClient c1 now st = Ret tt s1) as Hr1.
  { rewrite (registerClient_eq _ _ _ _ H1). apply send_broadcast_Ret.
    rewrite registered_in_broadcast. lia. }
  assert (heap s1 !! c2 = Some cl2) as H2'.
  { change (heap s1) with (heap (registered_in c1 cl1 st)).
    rewrite registered_in_heap, lookup_insert_ne by done. done. }
  set (cl1' := set_Rooms (default_rooms cl1 ∪ Rooms cl1) cl1).
  assert (heap s1 !! c1 = Some cl1') as H1'.
  { change (heap s1) with (heap (registered_in c1 cl1 st)).
    by rewrite registered_in_heap, lookup_insert_eq. }
  set (s2 := with_broadcast (λ q, q ++ [presenceMessage cl2 true now]) (registered_in c2 cl2 s1)).
  assert (registerClient c2 now s1 = Ret tt s2) as Hr2.
  { rewrite (registerClient_eq _ _ _ _ H2'). apply send_broadcast_Ret.
    rewrite registered_in_broadcast. simpl. rewrite registered_in_broadcast, length_app.
    simpl. lia. }
  assert (heap s2 !! c1 = Some cl1') as H1''.
  { change (heap s2) with (heap (registered_in c2 cl2 s1)).
    rewrite registered_in_heap, lookup_insert_ne by done. done. }
  assert (clients s2 !! ID cl2 = Some c2) as Hreg2.
  { change (clients s2) with (clients (registered_in c2 cl2 s1)).
    by rewrite registered_in_clients, lookup_insert_eq. }
  assert (registered s2 cl1') as Hreg1.
  { unfold registered. change (ID cl1') with (ID cl1). rewrite Hid, Hreg2. by eexists. }
  destruct (unregisterClient_eq s2 c1 cl1' now H1'' Hreg1 Ho)
    as (s & Hrun & Hcl & Hb & Hh & Hm).
  rewrite send_broadcast_Ret in Hrun.
  2: { rewrite Hb. simpl. rewrite registered_in_broadcast, length_app. simpl.
       rewrite registered_in_broadcast, length_app. simpl. lia. }
  set (s3 := with_broadcast (λ q, q ++ [presenceMessage cl1' false now]) s) in *.
  set (cl2' := set_Rooms (default_rooms cl2 ∪ Rooms cl2) cl2).
  assert (heap s3 !! c2 = Some cl2') as H2''.
  { change (heap s3) with (heap s). rewrite Hh, lookup_insert_ne by done.
    change (heap s2) with (heap (registered_in c2 cl2 s1)).
    by rewrite registered_in_heap, lookup_insert_eq. }
  assert (clients s3 !! ID cl2 = None) as Hgone.
  { change (clients s3) with (clients s). rewrite Hcl.
    change (ID cl1') with (ID cl1). rewrite Hid. apply lookup_delete_eq. }
  exists s1, s2, s3, cl2'. repeat (split; [done |]). split; [| split; [done | split; [done |]]].
  - change (members s3) with (members s). rewrite Hm.
    assert (c2 ∈ members s2 "global") as Hin.
    { change (members s2) with (members (registered_in c2 cl2 s1)).
      apply registered_in_global. }
    case_decide; set_solver.
  - intros now'. by apply (unregisterClient_absent s3 c2 cl2').
Qed.

End Lifecycle.

(** ** A connection that comes and goes *)

Lemma rooms_eq_of_members st st' :
  no_empty_rooms st → no_empty_rooms st' →
  (∀ r, members st' r = members st r) → rooms st' = rooms st.
Proof.
  intros Hn Hn' Hm. apply map_eq. intros r. specialize (Hm r). unfold members in Hm.
  destruct (rooms st' !! r) as [s' |] eqn:E'; destruct (rooms st !! r) as [s |] eqn:E;
    simpl in Hm; try done.
  - by rewrite Hm.
  - by destruct (Hn' r s' E').
  - by destruct (Hn r s E).
Qed.

Lemma no_empty_rooms_registered_in c cl st :
  no_empty_rooms st → no_empty_rooms (registered_in c cl st).
Proof.
  intros H. unfold registered_in.
  assert (no_empty_rooms (joined c "global" cl
            (with_logger
               (λ l, l ++ [LogInfo ("Client registered: " +:+ ID cl +:+ " (User: " +:+ UserID cl +:+ ")")])
               (with_clients <[ID cl := c]> st)))) as Hg.
  { apply no_empty_rooms_joined. by apply (no_empty_rooms_ext st). }
  case_decide; [| done]. by apply no_empty_rooms_joined.
Qed.

Lemma websocketHandler_Ret st clientID userID teamID now :
  length (broadcast st) < broadcastCap →
  let c := fresh (dom (heap st)) in
  let new := {| ID := clientID; UserID := userID; TeamID := teamID;
                Send := make_chan 256; Rooms := ∅ |} in
  websocketHandler clientID userID teamID now st =
  Ret c (with_broadcast (λ q, q ++ [presenceMessage new true now])
           (registered_in c new (with_heap <[c := new]> st))).
Proof.
  intros Hroom c new. unfold websocketHandler.
  erewrite bind_Ret by reflexivity.
  erewrite bind_Ret by reflexivity.
  erewrite bind_Ret; [reflexivity |].
  rewrite (registerClient_eq _ _ new); [| simpl; apply lookup_insert_eq].
  apply send_broadcast_Ret. by rewrite registered_in_broadcast.
Qed.

Section ComeAndGo.
Context `{RT : Runtime}.

(** X13. A connection that is accepted and then unregistered leaves no
    trace in the hub: the registry and the room index are what they were
    before it was accepted (rooms created for it are deleted again), the
    other clients are untouched, and its own queue is closed. *)
Theorem accept_unregister_roundtrip st clientID userID teamID now now' :
  hub_wf st →
  no_empty_rooms st →
  clients st !! clientID = None →
  (length (broadcast st) + 2 ≤ broadcastCap)%nat →
  ∃ c s st' cl',
    websocketHandler clientID userID teamID now st = Ret c s ∧
    unregisterClient c now' s = Ret tt st' ∧
    clients st' = clients st ∧
    rooms st' = rooms st ∧
    (∀ p cl, heap st !! p = Some cl → heap st' !! p = Some cl) ∧
    heap st' !! c = Some cl' ∧ closed (Send cl') = true ∧ Rooms cl' = ∅.
Proof.
  intros Hwf Hn Hfree Hcap.
  set (c := fresh (dom (heap st))).
  set (new := {| ID := clientID; UserID := userID; TeamID := teamID;
                 Send := make_chan 256; Rooms := ∅ |}).
  set (s := with_broadcast (λ q, q ++ [presenceMessage new true now])
              (registered_in c new (with_heap <[c := new]> st))).
  assert (websocketHandler clientID userID teamID now st = Ret c s) as Hacc.
  { apply websocketHandler_Ret. lia. }
  assert (heap st !! c = None) as Hfresh by (apply not_elem_of_dom, is_fresh).
  assert (∀ r, c ∉ members st r) as Hout.
  { intros r Hin. destruct (wf_members_ready st Hwf r c Hin) as (x & Hx & _). congruence. }
  set (cl := set_Rooms (default_rooms new ∪ Rooms new) new).
  assert (heap s = <[c := cl]> (heap st)) as Hheap.
  { change (heap s) with (heap (registered_in c new (with_heap <[c := new]> st))).
    rewrite registered_in_heap. simpl. by rewrite insert_insert_eq. }
  assert (heap s !! c = Some cl) as Hc by (rewrite Hheap; apply lookup_insert_eq).
  assert (registered s cl) as Hreg.
  { unfold registered. change (clients s) with (clients (registered_in c new (with_heap <[c := new]> st))).
    rewrite registered_in_clients. change (ID cl) with (ID new).
    rewrite lookup_insert_eq. by eexists. }
  destruct (unregisterClient_eq s c cl now' Hc Hreg eq_refl) as (s' & Hrun & Hcl & Hb & Hh & Hm).
  rewrite send_broadcast_Ret in Hrun.
  2: { rewrite Hb. simpl. rewrite registered_in_broadcast, length_app. simpl. lia. }
  set (st' := with_broadcast (λ q, q ++ [presenceMessage cl false now']) s') in *.
  assert (∀ r, members st' r = members st r) as Hmem.
  { intros r. change (members st' r) with (members s' r). rewrite Hm.
    change (members s r) with (members (registered_in c new (with_heap <[c := new]> st)) r).
    rewrite registered_in_members.
    change (members (with_heap _ st) r) with (members st r).
    change (Rooms cl) with (default_rooms new ∪ Rooms new).
    specialize (Hout r). simpl.
    destruct (decide (r ∈ default_rooms new)) as [Hin | Hnin].
    - rewrite decide_True by set_solver. set_solver.
    - rewrite decide_False by set_solver. done. }
  assert (no_empty_rooms st') as Hn'.
  { eapply (preserves_unregisterClient_nonempty c now' s st'); [| left; eauto].
    apply (no_empty_rooms_ext (registered_in c new (with_heap <[c := new]> st))); [done |].
    apply no_empty_rooms_registered_in. by apply (no_empty_rooms_ext st). }
  exists c, s, st', (set_Rooms ∅ (closed_Send cl)).
  split; [done |]. split; [done |]. split; [| split; [| split; [| split; [| done]]]].
  - change (clients st') with (clients s'). rewrite Hcl.
    change (clients s) with (clients (registered_in c new (with_heap <[c := new]> st))).
    rewrite registered_in_clients. change (ID cl) with clientID. change (ID new) with clientID.
    simpl. rewrite delete_insert_eq. by apply delete_id.
  - by apply rooms_eq_of_members.
  - intros p clp Hp. change (heap st') with (heap s'). rewrite Hh, Hheap.
    assert (p ≠ c) by (intros ->; congruence).
    by rewrite !lookup_insert_ne.
  - change (heap st') with (heap s'). rewrite Hh. apply lookup_insert_eq.
Qed.

End ComeAndGo.

(** ** A closed queue among the recipients *)

Lemma for_each_offer_closed data (xs : list nat) : ∀ st,
  (∀ p, p ∈ xs → is_Some (heap st !! p)) →
  (∃ p cl, p ∈ xs ∧ heap st !! p = Some cl ∧ closed (Send cl) = true) →
  for_each xs (offer data) st = Panic "send on closed channel".
Proof.
  induction xs as [| x xs IH]; intros st Hall (p & cl & Hp & Hcl & Hclosed).
  - by apply elem_of_nil in Hp.
  - destruct (Hall x) as [clx Hx]; [left |]. simpl.
    destruct (closed (Send clx)) eqn:Hox.
    + unfold bind. by rewrite (offer_closed _ _ _ _ Hx Hox).
    + erewrite bind_Ret by (by apply offer_Ret).
      assert (p ≠ x) as Hne by (intros ->; congruence).
      apply elem_of_cons in Hp as [Heq | Hp]; [contradiction |].
      assert (∀ q, heap (offered data x clx st) !! q =
                   if decide (q = x) then Some (if decide (has_room clx) then enqueue data clx else clx)
                   else heap st !! q) as Hh.
      { intros q. unfold offered. destruct (decide (has_room clx)); simpl.
        - destruct (decide (q = x)) as [-> | Hq];
            [by rewrite lookup_insert_eq | by rewrite lookup_insert_ne].
        - destruct (decide (q = x)) as [-> | Hq]; done. }
      apply IH.
      * intros q Hq. rewrite Hh. destruct (decide (q = x)); [by eexists |]. apply Hall. by right.
      * exists p, cl. split; [done |]. by rewrite Hh, decide_False.
Qed.

Section Safety.
Context `{RT : Runtime}.

(** X14. A closed queue among the recipients brings the hub down: when
    every recipient of a marshalable envelope is a live client and one of
    them has a closed queue (a client registered again after it was
    unregistered), [broadcastMessage] panics with "send on closed
    channel", in whatever order the recipients are visited. *)
Theorem broadcastMessage_closed_recipient st message data (p : nat) cl :
  marshal message = Some data →
  (∀ q, q ∈ recipients st message → is_Some (heap st !! q)) →
  p ∈ recipients st message →
  heap st !! p = Some cl →
  closed (Send cl) = true →
  broadcastMessage message st = Panic "send on closed channel".
Proof.
  intros Hm Hall Hp Hcl Hclosed. unfold broadcastMessage. rewrite Hm.
  erewrite bind_Ret by reflexivity. unfold recipients in *.
  destruct (decide (Message.Room message ≠ "")) as [Hroom | Hglobal].
  - unfold members in *. destruct (rooms st !! Message.Room message) as [cs |]; simpl in *.
    + apply for_each_offer_closed.
      * intros q Hq. apply Hall. rewrite range_perm in Hq. by apply elem_of_elements.
      * exists p, cl. split; [| done]. rewrite range_perm. by apply elem_of_elements.
    + set_solver.
  - rewrite (for_each_map snd). apply for_each_offer_closed.
    + intros q Hq. apply Hall. rewrite range_perm in Hq. by apply elem_of_list_to_set.
    + exists p, cl. split; [| done]. rewrite range_perm. by apply elem_of_list_to_set in Hp.
Qed.

Lemma preserves_offer_nonempty data c : preserves no_empty_rooms (offer data c).
Proof.
  unfold offer. apply preserves_bind; [apply preserves_deref |]. intros cl.
  destruct (closed (Send cl)); [apply preserves_panic |].
  case_decide.
  - apply preserves_modify. intros s. by apply no_empty_rooms_ext.
  - apply preserves_logf. intros s. by apply no_empty_rooms_ext.
Qed.

Lemma preserves_broadcastMessage_nonempty message :
  preserves no_empty_rooms (broadcastMessage message).
Proof.
  unfold broadcastMessage. destruct (marshal message) as [data |].
  - apply preserves_bind; [apply preserves_get |]. intros s. case_decide.
    + destruct (rooms s !! Message.Room message); [| apply preserves_ret].
      apply preserves_for_each. intros p _. apply preserves_offer_nonempty.
    + apply preserves_for_each. intros p _. apply preserves_offer_nonempty.
  - apply preserves_logf. intros s. by apply no_empty_rooms_ext.
Qed.

Lemma preserves_handleMessage_nonempty c msg : preserves no_empty_rooms (handleMessage c msg).
Proof.
  unfold handleMessage, handleChatMessage, handleTaskUpdate, handleTypingIndicator.
  repeat case_decide;
    try (apply preserves_bind; [apply preserves_deref | intros cl]);
    try (apply preserves_send_broadcast; intros s; by apply no_empty_rooms_ext).
  apply preserves_logf. intros st. by apply no_empty_rooms_ext.
Qed.

Lemma preserves_Run_broadcast_nonempty : preserves no_empty_rooms Run_broadcast.
Proof.
  unfold Run_broadcast. apply preserves_bind; [apply preserves_get |]. intros s.
  destruct (broadcast s); [apply preserves_block |].
  apply preserves_bind; [| intros _; apply preserves_broadcastMessage_nonempty].
  apply preserves_modify. intros s'. by apply no_empty_rooms_ext.
Qed.

Lemma preserves_ReadPump_frame_nonempty c now frame :
  preserves no_empty_rooms (ReadPump_frame c now frame).
Proof.
  unfold ReadPump_frame. destruct (unmarshal frame) as [msg |].
  - apply preserves_bind; [apply preserves_deref |]. intros cl.
    apply preserves_handleMessage_nonempty.
  - apply preserves_logf. intros s. by apply no_empty_rooms_ext.
Qed.

Lemma preserves_SendToUser_nonempty userID message :
  preserves no_empty_rooms (SendToUser userID message).
Proof.
  unfold SendToUser. destruct (marshal message) as [data |].
  - apply preserves_bind; [apply preserves_get |]. intros s.
    apply preserves_for_each. intros p _.
    apply preserves_bind; [apply preserves_deref |]. intros cl.
    case_decide; [apply preserves_offer_nonempty | apply preserves_ret].
  - apply preserves_logf. intros s. by apply no_empty_rooms_ext.
Qed.

Lemma server_step_nonempty st st' :
  server_step st st' → no_empty_rooms st → no_empty_rooms st'.
Proof.
  intros Hstep Hn. destruct Hstep as
    [st id u t now c st' Hid H | st c now st' H | st st' H | st c now frame st' H
    | st c wok cok res st' H | st u m st' H | st t m st' H | st c m err st' H
    | st c room st' H].
  - apply returned_leaves in H. unfold websocketHandler in H.
    apply leaves_bind in H as [(s0 & s1 & [= <- <-] & H) | H]; [| discriminate].
    apply leaves_bind in H as [([] & s2 & [= <-] & H) | H]; [| discriminate].
    apply leaves_bind in H as [([] & s3 & E & H) | H].
    + apply leaves_ret in H. subst.
      eapply preserves_registerClient_nonempty; [| left; eauto].
      by apply (no_empty_rooms_ext st).
    + eapply preserves_registerClient_nonempty; [| by right].
      by apply (no_empty_rooms_ext st).
  - eapply preserves_unregisterClient_nonempty; eauto using returned_leaves.
  - eapply preserves_Run_broadcast_nonempty; eauto using returned_leaves.
  - eapply preserves_ReadPump_frame_nonempty; eauto using returned_leaves.
  - apply WritePump_recv_Ret in H as [-> | (cl & q & Hc & ->)]; [done |].
    by apply (no_empty_rooms_ext st).
  - eapply preserves_SendToUser_nonempty; eauto using returned_leaves.
  - eapply (preserves_send_broadcast no_empty_rooms); [| exact Hn | eauto using returned_leaves].
    intros s. by apply no_empty_rooms_ext.
  - apply SendMessage_Ret in H as [-> | (cl & data & Hc & ->)]; [done |].
    by apply (no_empty_rooms_ext st).
  - eapply preserves_leaveRoom_nonempty; eauto using returned_leaves.
Qed.

Lemma hub_step_nonempty st st' : hub_step st st' → no_empty_rooms st → no_empty_rooms st'.
Proof.
  intros Hstep Hn. destruct Hstep as [st st' H | st c cl room st' Hc Hreg H].
  - by eapply server_step_nonempty.
  - eapply preserves_joinRoom_nonempty; eauto using returned_leaves.
Qed.

(** X15. In every state the hub is in between operations — after any
    sequence, from [NewHub], of connections accepted with distinct IDs,
    clients unregistered, rooms joined and left, envelopes delivered,
    frames read, queues written out and application sends, each of which
    has returned — the room index agrees with the room sets and holds no
    empty room, every broadcast and every [SendToUser] returns (no panic,
    no blocking), and unregistering a live client does not panic.  An
    operation parked on the full broadcast channel is not a step: the hub
    holds [h.mu] from then on. *)
Theorem reachable_safe st :
  reachable st →
  rooms_agree st ∧ no_empty_rooms st ∧
  (∀ message, ∃ st', broadcastMessage message st = Ret tt st') ∧
  (∀ userID message, ∃ st', SendToUser userID message st = Ret tt st') ∧
  (∀ c cl now why, heap st !! c = Some cl → unregisterClient c now st ≠ Panic why).
Proof.
  intros Hr. pose proof (reachable_wf st Hr) as Hwf.
  split; [apply (wf_agree st Hwf) |]. split; [| split; [| split]].
  - clear Hwf. unfold reachable in Hr. revert st Hr. apply rtc_ind_r.
    + intros r s H. simpl in H. by rewrite lookup_empty in H.
    + intros s s' _ Hstep IH. by eapply hub_step_nonempty.
  - intros message. by apply reachable_broadcast_returns.
  - intros userID message. destruct (marshal message) as [data |] eqn:Hm.
    + destruct (SendToUser_delivered st userID message data Hm) as (st' & Hrun & _); eauto.
      * apply (wf_registry_ready st Hwf).
      * by apply hub_wf_inj.
    + unfold SendToUser. rewrite Hm. by eexists.
  - intros c cl now why Hc. by apply (reachable_unregister_no_panic st c cl).
Qed.

End Safety.

(** ** Room "team:" and the clients without a team *)

Lemma no_teamless_room_ext st st' :
  rooms st' = rooms st → no_teamless_room st → no_teamless_room st'.
Proof. unfold no_teamless_room. by intros ->. Qed.

Lemma team_room_ne (teamID : string) : teamID ≠ "" → "team:" +:+ teamID ≠ "team:".
Proof. intros Ht E. apply Ht. apply (inj (String.append "team:")). exact E. Qed.

Lemma no_teamless_room_joined st c room cl :
  room ≠ "team:" → no_teamless_room st → no_teamless_room (joined c room cl st).
Proof. intros Hne H. unfold no_teamless_room. simpl. by rewrite lookup_insert_ne. Qed.

Lemma no_teamless_room_left st c room cl :
  no_teamless_room st → no_teamless_room (left c room cl st).
Proof.
  unfold no_teamless_room. intros H. simpl. unfold left_rooms.
  destruct (rooms st !! room) as [s |] eqn:Hs; [| done].
  assert (room ≠ "team:") as Hne by (intros ->; congruence).
  case_decide; [by rewrite lookup_delete_ne | by rewrite lookup_insert_ne].
Qed.

Lemma preserves_joinRoom_teamless c room :
  room ≠ "team:" → preserves no_teamless_room (joinRoom c room).
Proof.
  intros Hne st st' HI H. destruct (heap st !! c) as [cl |] eqn:Hc.
  - rewrite (leaves_Ret _ _ _ _ _ (joinRoom_Ret st c room cl Hc) H).
    by apply no_teamless_room_joined.
  - exfalso. eapply leaves_Panic; [| exact H]. unfold joinRoom, bind, deref. by rewrite Hc.
Qed.

Lemma preserves_leaveRoom_teamless c room : preserves no_teamless_room (leaveRoom c room).
Proof.
  intros st st' HI H. destruct (heap st !! c) as [cl |] eqn:Hc.
  - rewrite (leaves_Ret _ _ _ _ _ (leaveRoom_Ret st c room cl Hc) H).
    by apply no_teamless_room_left.
  - exfalso. eapply leaves_Panic; [| exact H]. unfold leaveRoom, bind, deref. by rewrite Hc.
Qed.

Lemma preserves_sendPresenceUpdate_teamless c online now :
  preserves no_teamless_room (sendPresenceUpdate c online now).
Proof.
  unfold sendPresenceUpdate. apply preserves_bind; [apply preserves_deref |].
  intros cl. apply preserves_send_broadcast. intros st. by apply no_teamless_room_ext.
Qed.

(** [registerClient] joins "global" and, for a non-empty team ID only,
    "team:<teamID>": it never creates room "team:". *)
Lemma preserves_registerClient_teamless c now :
  preserves no_teamless_room (registerClient c now).
Proof.
  unfold registerClient. apply preserves_bind; [apply preserves_deref |]. intros cl.
  apply preserves_bind; [apply preserves_modify; intros st; by apply no_teamless_room_ext |].
  intros _.
  apply preserves_bind; [apply preserves_logf; intros st; by apply no_teamless_room_ext |].
  intros _.
  apply preserves_bind; [by apply preserves_joinRoom_teamless |]. intros _.
  apply preserves_bind.
  { case_decide; [apply preserves_joinRoom_teamless; by apply team_room_ne | apply preserves_ret]. }
  intros _. apply preserves_sendPresenceUpdate_teamless.
Qed.

Section Teamless.
Context `{RT : Runtime}.

Lemma preserves_unregisterClient_teamless c now :
  preserves no_teamless_room (unregisterClient c now).
Proof.
  unfold unregisterClient. apply preserves_bind; [apply preserves_deref |]. intros cl.
  apply preserves_bind; [apply preserves_get |]. intros s.
  destruct (clients s !! ID cl); [| apply preserves_ret].
  apply preserves_bind; [apply preserves_modify; intros st; by apply no_teamless_room_ext |].
  intros _. apply preserves_bind.
  { unfold close_Send. apply preserves_bind; [apply preserves_deref |]. intros cl'.
    destruct (closed (Send cl')); [apply preserves_panic |].
    apply preserves_modify. intros st. by apply no_teamless_room_ext. }
  intros _. apply preserves_bind.
  { apply preserves_for_each. intros r _. apply preserves_leaveRoom_teamless. }
  intros _.
  apply preserves_bind; [apply preserves_logf; intros st; by apply no_teamless_room_ext |].
  intros _. apply preserves_sendPresenceUpdate_teamless.
Qed.

(** Deliveries and forwarded frames do not touch the room index. *)
Lemma preserves_offer_teamless data c : preserves no_teamless_room (offer data c).
Proof.
  unfold offer. apply preserves_bind; [apply preserves_deref |]. intros cl.
  destruct (closed (Send cl)); [apply preserves_panic |].
  case_decide.
  - apply preserves_modify. intros s. by apply no_teamless_room_ext.
  - apply preserves_logf. intros s. by apply no_teamless_room_ext.
Qed.

Lemma preserves_broadcastMessage_teamless message :
  preserves no_teamless_room (broadcastMessage message).
Proof.
  unfold broadcastMessage. destruct (marshal message) as [data |].
  - apply preserves_bind; [apply preserves_get |]. intros s. case_decide.
    + destruct (rooms s !! Message.Room message); [| apply preserves_ret].
      apply preserves_for_each. intros p _. apply preserves_offer_teamless.
    + apply preserves_for_each. intros p _. apply preserves_offer_teamless.
  - apply preserves_logf. intros s. by apply no_teamless_room_ext.
Qed.

Lemma preserves_Run_broadcast_teamless : preserves no_teamless_room Run_broadcast.
Proof.
  unfold Run_broadcast. apply preserves_bind; [apply preserves_get |]. intros s.
  destruct (broadcast s); [apply preserves_block |].
  apply preserves_bind; [| intros _; apply preserves_broadcastMessage_teamless].
  apply preserves_modify. intros s'. by apply no_teamless_room_ext.
Qed.

Lemma preserves_ReadPump_frame_teamless c now frame :
  preserves no_teamless_room (ReadPump_frame c now frame).
Proof.
  unfold ReadPump_frame. destruct (unmarshal frame) as [msg |].
  - apply preserves_bind; [apply preserves_deref |]. intros cl.
    unfold handleMessage, handleChatMessage, handleTaskUpdate, handleTypingIndicator.
    repeat case_decide;
      try (apply preserves_bind; [apply preserves_deref | intros cl0]);
      try (apply preserves_send_broadcast; intros s; by apply no_teamless_room_ext).
    apply preserves_logf. intros st. by apply no_teamless_room_ext.
  - apply preserves_logf. intros s. by apply no_teamless_room_ext.
Qed.

Lemma preserves_SendToUser_teamless userID message :
  preserves no_teamless_room (SendToUser userID message).
Proof.
  unfold SendToUser. destruct (marshal message) as [data |].
  - apply preserves_bind; [apply preserves_get |]. intros s.
    apply preserves_for_each. intros p _.
    apply preserves_bind; [apply preserves_deref |]. intros cl.
    case_decide; [apply preserves_offer_teamless | apply preserves_ret].
  - apply preserves_logf. intros s. by apply no_teamless_room_ext.
Qed.

Lemma server_step_teamless st st' :
  server_step st st' → no_teamless_room st → no_teamless_room st'.
Proof.
  intros Hstep Hn. destruct Hstep as
    [st id u t now c st' Hid H | st c now st' H | st st' H | st c now frame st' H
    | st c wok cok res st' H | st u m st' H | st t m st' H | st c m err st' H
    | st c room st' H].
  - apply returned_leaves in H. unfold websocketHandler in H.
    apply leaves_bind in H as [(s0 & s1 & [= <- <-] & H) | H]; [| discriminate].
    apply leaves_bind in H as [([] & s2 & [= <-] & H) | H]; [| discriminate].
    apply leaves_bind in H as [([] & s3 & E & H) | H].
    + apply leaves_ret in H. subst.
      eapply preserves_registerClient_teamless; [| left; eauto].
      by apply (no_teamless_room_ext st).
    + eapply preserves_registerClient_teamless; [| by right].
      by apply (no_teamless_room_ext st).
  - eapply preserves_unregisterClient_teamless; eauto using returned_leaves.
  - eapply preserves_Run_broadcast_teamless; eauto using returned_leaves.
  - eapply preserves_ReadPump_frame_teamless; eauto using returned_leaves.
  - apply WritePump_recv_Ret in H as [-> | (cl & q & Hc & ->)]; [done |].
    by apply (no_teamless_room_ext st).
  - eapply preserves_SendToUser_teamless; eauto using returned_leaves.
  - eapply (preserves_send_broadcast no_teamless_room); [| exact Hn | eauto using returned_leaves].
    intros s. by apply no_teamless_room_ext.
  - apply SendMessage_Ret in H as [-> | (cl & data & Hc & ->)]; [done |].
    by apply (no_teamless_room_ext st).
  - eapply preserves_leaveRoom_teamless; eauto using returned_leaves.
Qed.

(** As long as nothing calls [JoinRoom], room "team:" does not exist. *)
Lemma served_no_teamless_room st : served st → no_teamless_room st.
Proof.
  unfold served. revert st. apply rtc_ind_r.
  - unfold no_teamless_room. simpl. apply lookup_empty.
  - intros s s' _ Hstep IH. by eapply server_step_teamless.
Qed.

(** C9, as the code has it.  A client with an empty team ID: a chat
    envelope with an empty room, and any task_update or typing envelope,
    is forwarded to the broadcast channel with room "team:" — it is not
    discarded by the dispatcher and it is not given the empty room of a
    global broadcast.  [broadcastMessage] delivers such an envelope to
    the members of room "team:" and to nobody else.  But registration
    joins a teamless client to "global" only: in every state the hub
    reaches without a call of [JoinRoom], room "team:" has no member and
    the broadcast returns without having changed anything, so the
    envelope reaches no client and the teamless clients do not share a
    room through it. *)
Theorem teamless_routing st c cl msg :
  heap st !! c = Some cl →
  TeamID cl = "" →
  length (broadcast st) < broadcastCap →
  (Message.Type_ msg = "chat" ∧ Message.Room msg = "") ∨
  Message.Type_ msg = "task_update" ∨ Message.Type_ msg = "typing" →
  handleMessage c msg st = Ret tt (with_broadcast (λ q, q ++ [set_Room "team:" msg]) st) ∧
  Message.Room (set_Room "team:" msg) = "team:" ∧
  (∀ s data,
     marshal (set_Room "team:" msg) = Some data →
     ready s (members s "team:") →
     ∃ s', broadcastMessage (set_Room "team:" msg) s = Ret tt s' ∧
       ∀ (p : nat) clp, heap s !! p = Some clp →
         ∃ clp', heap s' !! p = Some clp' ∧
           buf (Send clp') =
             buf (Send clp) ++
             (if decide (p ∈ members s "team:" ∧ has_room clp) then [data] else [])) ∧
  (∀ s, served s →
     members s "team:" = ∅ ∧
     (∀ p clp, heap s !! p = Some clp → "team:" ∉ Rooms clp) ∧
     ∀ data, marshal (set_Room "team:" msg) = Some data →
       broadcastMessage (set_Room "team:" msg) s = Ret tt s).
Proof.
  intros Hc Hteam Hroom Hty. split; [| split; [done |]; split].
  - destruct Hty as [[Hchat Hempty] | [Htask | Htyping]].
    + rewrite handleMessage_chat, (handleChatMessage_Ret _ _ cl) by done.
      by rewrite decide_True, Hteam.
    + rewrite handleMessage_task_update, (handleTaskUpdate_Ret _ _ cl) by done.
      by rewrite Hteam.
    + rewrite handleMessage_typing, (handleTypingIndicator_Ret _ _ cl) by done.
      by rewrite Hteam.
  - intros s data Hm Hready. set (m := set_Room "team:" msg) in *.
    assert (Message.Room m ≠ "") as Hne by done.
    destruct (broadcastMessage_delivered s m data Hm) as (s' & Hrun & Hd).
    { rewrite recipients_room by done. exact Hready. }
    { intros He. by rewrite He in Hne. }
    exists s'. split; [done |]. intros p clp Hp.
    destruct (delivered_lookup _ _ _ _ p clp Hd Hp) as (clp' & Hp' & Hbuf & _).
    exists clp'. split; [done |]. rewrite Hbuf, (recipients_room s m Hne).
    change (Message.Room m) with "team:".
    destruct (decide (p ∈ members s "team:" ∧ has_room clp)) as [[H1 H2] | H].
    + rewrite decide_True; [done |]. split; [by apply elem_of_elements | done].
    + rewrite decide_False; [done |]. intros [H1 H2]. apply H.
      split; [by apply elem_of_elements | done].
  - intros s Hs. pose proof (served_no_teamless_room s Hs) as Hnone.
    unfold no_teamless_room in Hnone.
    assert (members s "team:" = ∅) as Hm by (unfold members; by rewrite Hnone).
    split; [done |]. split.
    + intros p clp Hp Hin.
      apply (wf_agree s (reachable_wf s (served_reachable s Hs)) p clp "team:" Hp) in Hin.
      rewrite Hm in Hin. set_solver.
    + intros data Hmar. unfold broadcastMessage. rewrite Hmar. unfold bind, get.
      rewrite decide_True by done. simpl. by rewrite Hnone.
Qed.

End Teamless.

(** ** The read pump from first frame to unregistration *)

Lemma handleMessage_routed st c cl msg :
  heap st !! c = Some cl →
  handleMessage c msg st =
  match routed cl msg with
  | Some m => send_broadcast m st
  | None => logf (LogWarn ("Unknown message type: " +:+ Message.Type_ msg)) st
  end.
Proof.
  intros Hc. unfold handleMessage, routed.
  unfold handleChatMessage, handleTaskUpdate, handleTypingIndicator.
  repeat case_decide; try (erewrite bind_Ret by (by apply deref_Ret)); try done.
  all: by rewrite ?decide_True, ?decide_False by done.
Qed.

Lemma length_omap_le {A B} (f : A → option B) (l : list A) :
  (length (omap f l) ≤ length l)%nat.
Proof. induction l as [| x l IH]; csimpl; [lia |]. destruct (f x); csimpl; lia. Qed.

Section ReadLoop.
Context `{RT : Runtime}.

Lemma ReadPump_frame_forwarded st c cl now frame :
  heap st !! c = Some cl →
  length (broadcast st) < broadcastCap →
  ∃ st', ReadPump_frame c now frame st = Ret tt st' ∧
    heap st' = heap st ∧ clients st' = clients st ∧ rooms st' = rooms st ∧
    broadcast st' = broadcast st ++ option_list (forwarded cl (now, frame)).
Proof.
  intros Hc Hroom. unfold ReadPump_frame, forwarded. simpl.
  destruct (unmarshal frame) as [msg |].
  - erewrite bind_Ret by (by apply deref_Ret).
    rewrite (handleMessage_routed _ _ cl) by done.
    change (set_Timestamp now (set_UserID (UserID cl) msg)) with (stamped cl now msg).
    destruct (routed cl (stamped cl now msg)) as [m |].
    + rewrite send_broadcast_Ret by done. eexists. split; [done |]. done.
    + eexists. split; [done |]. simpl. by rewrite app_nil_r.
  - eexists. split; [done |]. simpl. by rewrite app_nil_r.
Qed.

(** X16. The read pump over any sequence of frames: frames that do not
    parse and frames of an unknown type are skipped without ending the
    loop; the chat, task_update and typing frames are put on the broadcast
    channel in the order read, each with the connection's user ID and its
    own time of receipt; when the socket fails, the client is unregistered
    and its "offline" presence follows the forwarded envelopes. *)
Theorem ReadPump_forwards st c cl frames tclose :
  heap st !! c = Some cl →
  registered st cl →
  closed (Send cl) = false →
  length (broadcast st) + length frames < broadcastCap →
  ∃ st' cl', ReadPump c frames tclose st = Ret tt st' ∧
    broadcast st' =
      broadcast st ++ omap (forwarded cl) frames ++ [presenceMessage cl false tclose] ∧
    clients st' !! ID cl = None ∧
    heap st' !! c = Some cl' ∧ closed (Send cl') = true.
Proof.
  intros Hc Hreg Ho Hcap. unfold ReadPump.
  destruct (for_each_ind
    (λ done s, heap s = heap st ∧ clients s = clients st ∧ rooms s = rooms st ∧
               broadcast s = broadcast st ++ omap (forwarded cl) done)
    frames (λ tf, ReadPump_frame c tf.1 tf.2) st) as (s & Hloop & Hh & Hcl & Hr & Hb).
  { simpl. by rewrite app_nil_r. }
  { intros done [t f] rest s Hsplit (Hh & Hcl & Hr & Hb).
    destruct (ReadPump_frame_forwarded s c cl t f) as (s' & Hrun & Hh' & Hcl' & Hr' & Hb').
    - by rewrite Hh.
    - rewrite Hb, length_app. pose proof (length_omap_le (forwarded cl) done).
      rewrite Hsplit, length_app in Hcap. simpl in Hcap. lia.
    - exists s'. split; [exact Hrun |].
      rewrite Hh', Hcl', Hr', Hb', Hb, omap_app, <- app_assoc. simpl.
      repeat split; try done.
      all: try (f_equal; f_equal; csimpl; by destruct (forwarded cl (t, f))). }
  erewrite bind_Ret by exact Hloop.
  assert (heap s !! c = Some cl) as Hc' by (by rewrite Hh).
  assert (registered s cl) as Hreg' by (unfold registered; by rewrite Hcl).
  destruct (unregisterClient_eq s c cl tclose Hc' Hreg' Ho) as (s' & Hrun & Hcl' & Hb' & Hh' & Hm').
  rewrite send_broadcast_Ret in Hrun.
  2: { rewrite Hb', Hb, length_app. pose proof (length_omap_le (forwarded cl) frames). lia. }
  eexists _, _. split; [exact Hrun |]. simpl. split; [| split; [| split]].
  - by rewrite Hb', Hb, <- app_assoc.
  - rewrite Hcl'. apply lookup_delete_eq.
  - rewrite Hh'. apply lookup_insert_eq.
  - done.
Qed.

End ReadLoop.

(** ** The write pump *)

Lemma WritePump_recv_flush st c cl message queued close_ok :
  heap st !! c = Some cl → buf (Send cl) = message :: queued →
  WritePump_recv c true close_ok st =
  Ret (if close_ok then WroteText (coalesce message queued) else WriteFailed)
      (with_heap <[c := set_Send (chan_set_buf [] (Send cl)) cl]> st).
Proof.
  intros Hc Hb. unfold WritePump_recv. erewrite bind_Ret by (by apply deref_Ret).
  rewrite Hb. unfold bind, update, modify, with_heap. simpl. by rewrite Hc.
Qed.

Lemma WritePump_recv_fail st c cl message queued close_ok :
  heap st !! c = Some cl → buf (Send cl) = message :: queued →
  WritePump_recv c false close_ok st =
  Ret WriteFailed (with_heap <[c := set_Send (chan_set_buf queued (Send cl)) cl]> st).
Proof.
  intros Hc Hb. unfold WritePump_recv. erewrite bind_Ret by (by apply deref_Ret).
  rewrite Hb. unfold bind, update, modify, with_heap. simpl. by rewrite Hc.
Qed.

Lemma WritePump_recv_closed st c cl writer_ok close_ok :
  heap st !! c = Some cl → buf (Send cl) = [] → closed (Send cl) = true →
  WritePump_recv c writer_ok close_ok st = Ret WroteClose st.
Proof.
  intros Hc Hb Ho. unfold WritePump_recv. erewrite bind_Ret by (by apply deref_Ret).
  by rewrite Hb, Ho.
Qed.

(** The separator is the single character 10. *)
Example newline_line_feed :
  String.length newline = 1 ∧ String.get 0 newline = Some (ascii_of_nat 10).
Proof. split; reflexivity. Qed.

Lemma string_app_assoc (a b c : string) : (a +:+ b) +:+ c = a +:+ b +:+ c.
Proof.
  induction a as [| x a IH]; [done |].
  change (String x ((a +:+ b) +:+ c) = String x (a +:+ b +:+ c)). by rewrite IH.
Qed.

Lemma concat_newline_cons (first second : string) (rest : list string) :
  String.concat newline (first :: second :: rest) =
  first +:+ newline +:+ String.concat newline (second :: rest).
Proof. reflexivity. Qed.

(** The message of one pass is the frames in queue order, joined by line
    feeds. *)
Lemma coalesce_concat (first : string) (rest : list string) :
  coalesce first rest = String.concat newline (first :: rest).
Proof.
  unfold coalesce. revert first. induction rest as [| second rest IH]; intros first.
  - reflexivity.
  - rewrite concat_newline_cons. simpl foldl. rewrite IH.
    destruct rest as [| third rest].
    + reflexivity.
    + rewrite !concat_newline_cons. by rewrite !string_app_assoc.
Qed.

Section Pump.
Context `{RT : Runtime}.

(** X17. A frame that a broadcast puts on a client's queue is written by
    the next pass of the write pump in one text message with the frames
    that were already waiting: the frames in queue order, the new one
    last, separated by single line feeds (character 10); the pass leaves
    the queue empty. *)
Theorem broadcast_then_flush st message data (p : nat) cl :
  marshal message = Some data →
  ready st (recipients st message) →
  (Message.Room message = "" → registry_inj st) →
  p ∈ recipients st message →
  heap st !! p = Some cl →
  has_room cl →
  ∃ s st' cl',
    broadcastMessage message st = Ret tt s ∧
    WritePump_recv p true true s =
      Ret (WroteText (String.concat newline (buf (Send cl) ++ [data]))) st' ∧
    heap st' !! p = Some cl' ∧ buf (Send cl') = [].
Proof.
  intros Hm Hready Hinj Hp Hcl Hr.
  destruct (broadcastMessage_delivered st message data Hm Hready Hinj) as (s & Hrun & Hd).
  destruct (delivered_lookup _ _ _ _ p cl Hd Hcl) as (cl1 & Hp1 & Hbuf & _).
  rewrite decide_True in Hbuf by (split; [by apply elem_of_elements | done]).
  destruct (buf (Send cl) ++ [data]) as [| first waiting] eqn:Hq.
  { by destruct (buf (Send cl)). }
  eexists s, _, _. split; [done |]. split.
  - rewrite <- coalesce_concat. by apply (WritePump_recv_flush s p cl1 first waiting true).
  - simpl. by rewrite lookup_insert_eq.
Qed.

(** X18. [unregisterClient] closes a client's queue with the waiting
    frames still in it, and what becomes of them is up to the socket.
    With nothing waiting the next pass of the write pump writes the close
    message.  With frames waiting: if the socket takes the message, the
    pass writes all of them, joined by line feeds, and the pass after it
    finds the queue closed and empty and writes the close message; if
    [w.Close] fails, the frames have been taken from the queue and are
    lost; if [NextWriter] fails, the pump ends having taken the first
    frame, and the others stay in the queue unwritten.  ([ReadPump] closes
    the connection as soon as it has handed the client to [unregister], so
    a pump that has not written by then meets one of the failures.) *)
Theorem unregister_then_drain st c cl now :
  heap st !! c = Some cl →
  registered st cl →
  closed (Send cl) = false →
  length (broadcast st) < broadcastCap →
  ∃ s cl1, unregisterClient c now st = Ret tt s ∧
    heap s !! c = Some cl1 ∧ buf (Send cl1) = buf (Send cl) ∧ closed (Send cl1) = true ∧
    (buf (Send cl) = [] →
       ∀ writer_ok close_ok, WritePump_recv c writer_ok close_ok s = Ret WroteClose s) ∧
    (∀ first waiting, buf (Send cl) = first :: waiting →
       (∃ s' cl2,
          WritePump_recv c true true s =
            Ret (WroteText (String.concat newline (first :: waiting))) s' ∧
          heap s' !! c = Some cl2 ∧ buf (Send cl2) = [] ∧
          ∀ writer_ok close_ok, WritePump_recv c writer_ok close_ok s' = Ret WroteClose s') ∧
       (∃ s' cl2,
          WritePump_recv c true false s = Ret WriteFailed s' ∧
          heap s' !! c = Some cl2 ∧ buf (Send cl2) = []) ∧
       (∀ close_ok, ∃ s' cl2,
          WritePump_recv c false close_ok s = Ret WriteFailed s' ∧
          heap s' !! c = Some cl2 ∧ buf (Send cl2) = waiting)).
Proof.
  intros Hc Hreg Ho Hroom.
  destruct (unregisterClient_eq st c cl now Hc Hreg Ho) as (s & Hrun & Hcl & Hb & Hh & Hm).
  rewrite send_broadcast_Ret in Hrun by (by rewrite Hb).
  set (s1 := with_broadcast (λ q, q ++ [presenceMessage cl false now]) s) in *.
  set (cl1 := set_Rooms ∅ (closed_Send cl)).
  assert (heap s1 !! c = Some cl1) as Hc1.
  { change (heap s1) with (heap s). rewrite Hh. apply lookup_insert_eq. }
  exists s1, cl1. split; [exact Hrun |]. split; [done |]. split; [done |]. split; [done |].
  split.
  - intros Hq writer_ok close_ok. by apply (WritePump_recv_closed s1 c cl1).
  - intros first waiting Hq. split; [| split].
    + eexists _, _. split.
      { rewrite <- coalesce_concat. by apply (WritePump_recv_flush s1 c cl1 first waiting true). }
      split; [simpl; apply lookup_insert_eq |]. split; [done |].
      intros writer_ok close_ok.
      eapply WritePump_recv_closed; [simpl; apply lookup_insert_eq | done | done].
    + eexists _, _. split; [by apply (WritePump_recv_flush s1 c cl1 first waiting false) |].
      split; [simpl; apply lookup_insert_eq | done].
    + intros close_ok. eexists _, _.
      split; [by apply (WritePump_recv_fail s1 c cl1 first waiting) |].
      split; [simpl; apply lookup_insert_eq | done].
Qed.

(** X19. [SendMessage] never blocks and never logs: with room in the
    queue it appends the frame and returns no error; with a full queue it
    returns [ErrCloseSent] and changes nothing; and once the client has
    been unregistered it panics on the closed queue instead of returning
    an error. *)
Theorem SendMessage_outcomes st c cl message data now :
  marshal message = Some data →
  heap st !! c = Some cl →
  closed (Send cl) = false →
  (has_room cl →
     SendMessage c message st =
     Ret None (with_heap <[c := set_Send (chan_push data (Send cl)) cl]> st)) ∧
  (¬ has_room cl → SendMessage c message st = Ret (Some ErrCloseSent) st) ∧
  (registered st cl → length (broadcast st) < broadcastCap →
     ∃ s, unregisterClient c now st = Ret tt s ∧
          SendMessage c message s = Panic "send on closed channel").
Proof.
  intros Hm Hc Ho. split; [| split].
  - intros Hr. unfold SendMessage. rewrite Hm. erewrite bind_Ret by (by apply deref_Ret).
    rewrite Ho, decide_True by done. unfold bind, update, modify, with_heap. simpl.
    by rewrite Hc.
  - intros Hr. unfold SendMessage. rewrite Hm. erewrite bind_Ret by (by apply deref_Ret).
    by rewrite Ho, decide_False.
  - intros Hreg Hroom.
    destruct (unregisterClient_eq st c cl now Hc Hreg Ho) as (s & Hrun & Hcl & Hb & Hh & _).
    rewrite send_broadcast_Ret in Hrun by (by rewrite Hb).
    eexists. split; [exact Hrun |]. unfold SendMessage. rewrite Hm.
    erewrite bind_Ret; [| apply deref_Ret; simpl; rewrite Hh; apply lookup_insert_eq].
    done.
Qed.

End Pump.

(** ** Tokens and identities *)

(** X20. [websocketHandler] never turns a connection away for its
    credentials: with no token, or a token that does not validate, the
    connection is registered as user "anonymous" with no team — it is in
    room "global" only, and its "online" presence is queued with the empty
    room, that is, for every registered client. *)
Theorem anonymous_connection_registered st ValidateToken team_of clientID r now :
  wsToken r = "" ∨ ValidateToken (wsToken r) = None →
  length (broadcast st) < broadcastCap →
  ∃ c st' cl m,
    websocketHandler_auth ValidateToken team_of clientID r now st = Ret c st' ∧
    clients st' !! clientID = Some c ∧
    heap st' !! c = Some cl ∧
    UserID cl = "anonymous" ∧ TeamID cl = "" ∧ Rooms cl = {["global"]} ∧
    c ∈ members st' "global" ∧
    broadcast st' = broadcast st ++ [m] ∧
    Message.Room m = "" ∧ Message.UserID m = "anonymous".
Proof.
  intros Hno Hroom.
  assert (wsIdentity ValidateToken team_of r = ("anonymous", "")) as Hid.
  { unfold wsIdentity. destruct Hno as [-> | Hv]; [done |].
    case_decide; [by rewrite Hv | done]. }
  unfold websocketHandler_auth. rewrite Hid. simpl.
  rewrite websocketHandler_Ret by done. cbv zeta.
  set (c := fresh (dom (heap st))).
  set (new := {| ID := clientID; UserID := "anonymous"; TeamID := "";
                 Send := make_chan 256; Rooms := ∅ |}).
  set (s0 := registered_in c new (with_heap <[c := new]> st)).
  exists c, (with_broadcast (λ q, q ++ [presenceMessage new true now]) s0),
    (set_Rooms (default_rooms new ∪ Rooms new) new), (presenceMessage new true now).
  split; [reflexivity |].
  change (clients (with_broadcast _ s0)) with (clients s0).
  change (heap (with_broadcast _ s0)) with (heap s0).
  change (members (with_broadcast _ s0)) with (members s0).
  change (broadcast (with_broadcast (λ q, q ++ [presenceMessage new true now]) s0))
    with (broadcast s0 ++ [presenceMessage new true now]).
  unfold s0.
  split; [by rewrite registered_in_clients, lookup_insert_eq |].
  split; [by rewrite registered_in_heap, lookup_insert_eq |].
  split; [done |]. split; [done |].
  split; [unfold default_rooms; simpl; set_solver |].
  split; [apply registered_in_global |].
  split; [by rewrite registered_in_broadcast |]. done.
Qed.

(** X21. The auth middleware and [websocketHandler] read a request in
    opposite orders.  For a request with both a Bearer header and a
    [token] query parameter, [Authenticate] decides on the header token
    (the query parameter and the cookie do not matter to it), while the
    identity of the connection comes from the query token alone. *)
Theorem token_precedence validateToken ValidateToken team_of r :
  HasPrefix (authorization r) "Bearer " = true →
  query_token r ≠ "" →
  extractToken r = TrimPrefix (authorization r) "Bearer " ∧
  (∀ q k, Authenticate validateToken r =
          Authenticate validateToken
            {| query_token := q; authorization := authorization r; cookie_auth_token := k |}) ∧
  wsToken r = query_token r ∧
  (∀ a k, wsIdentity ValidateToken team_of r =
          wsIdentity ValidateToken team_of
            {| query_token := query_token r; authorization := a; cookie_auth_token := k |}).
Proof.
  intros Hb Hq.
  assert (∀ q k, extractToken {| query_token := q; authorization := authorization r;
                                 cookie_auth_token := k |} = TrimPrefix (authorization r) "Bearer ")
    as Hext.
  { intros q k. unfold extractToken. simpl. by rewrite Hb. }
  assert (extractToken r = TrimPrefix (authorization r) "Bearer ") as Her.
  { unfold extractToken. by rewrite Hb. }
  split; [done |]. split; [| split].
  - intros q k. unfold Authenticate. rewrite Her, Hext. done.
  - unfold wsToken. by rewrite decide_False.
  - intros a k. unfold wsIdentity, wsToken. simpl.
    rewrite !(decide_False (P := query_token r = "")) by done. done.
Qed.

(** X22. [Authenticate] lets a request through only with the claims that
    [validateToken] returned for the non-empty token [extractToken] found;
    a request with no Bearer header, no [token] parameter and no cookie is
    answered 401 "Missing authentication token". *)
Theorem Authenticate_gate validateToken r :
  (∀ userID token, Authenticate validateToken r = Next userID token →
     token = extractToken r ∧ token ≠ "" ∧ validateToken token = Some userID) ∧
  (HasPrefix (authorization r) "Bearer " = false → query_token r = "" →
   cookie_auth_token r = None →
     Authenticate validateToken r = Unauthorized "Missing authentication token").
Proof.
  split.
  - intros userID token. unfold Authenticate. case_decide as He; [done |].
    destruct (validateToken (extractToken r)) as [u |] eqn:Hv; [| done].
    intros [= <- <-]. done.
  - intros Hb Hq Hk. unfold Authenticate, extractToken. rewrite Hb, Hq, Hk. done.
Qed.

(** ** Deciding the remaining hypotheses on a given state *)

Lemma NoDup_fmap_eq {A B} (f : A → B) (l : list A) x y :
  NoDup (f <$> l) → x ∈ l → y ∈ l → f x = f y → x = y.
Proof.
  induction l as [| a l IH]; intros Hnd Hx Hy Hf; [by apply elem_of_nil in Hx |].
  rewrite fmap_cons in Hnd. apply NoDup_cons in Hnd as [Ha Hnd].
  apply elem_of_cons in Hx as [-> | Hx]; apply elem_of_cons in Hy as [-> | Hy].
  - done.
  - exfalso. apply Ha. rewrite Hf. by apply list_elem_of_fmap_2.
  - exfalso. apply Ha. rewrite <- Hf. by apply list_elem_of_fmap_2.
  - by apply IH.
Qed.

Lemma registry_inj_check st : NoDup (map_to_list (clients st)).*2 ↔ registry_inj st.
Proof.
  split.
  - intros Hnd i j p Hi Hj.
    assert ((i, p) = (j, p)) as [= ?]; [| done].
    eapply (NoDup_fmap_eq snd); [exact Hnd | | | done]; by apply elem_of_map_to_list.
  - apply NoDup_registry_values.
Qed.

#[global] Instance registry_inj_dec st : Decision (registry_inj st).
Proof.
  refine (cast_if (decide (NoDup (map_to_list (clients st)).*2)));
    [by apply registry_inj_check | by intros H%registry_inj_check].
Defined.

#[global] Instance no_empty_rooms_dec st : Decision (no_empty_rooms st).
Proof.
  refine (cast_if (decide (map_Forall (λ _ s, s ≠ (∅ : gset nat)) (rooms st)))); done.
Defined.

Lemma HasPrefix_TrimPrefix s prefix :
  HasPrefix s prefix = true → s = prefix +:+ TrimPrefix s prefix.
Proof.
  unfold TrimPrefix. intros H. rewrite H. unfold HasPrefix in H.
  revert s H. induction prefix as [| a p IH]; intros s H; [done |].
  destruct s as [| b s]; [done |]. simpl in *.
  destruct (Ascii.ascii_dec a b) as [-> | Hne]; [| done].
  change (String b p +:+ string_drop (String.length p) s)
    with (String b (p +:+ string_drop (String.length p) s)).
  f_equal. by apply IH.
Qed.

Example demo_hub_nonempty : no_empty_rooms demo_hub.
Proof. compute_done. Qed.
Example demo_hub_inj : registry_inj demo_hub.
Proof. compute_done. Qed.

(** ** The further results on the example inputs *)

Lemma no_empty_rooms_invariant_witness :
  no_empty_rooms NewHub ∧
  no_empty_rooms (left 2 "team:T2" carol demo_hub) ∧
  ∀ r, is_Some (rooms (left 2 "team:T2" carol demo_hub) !! r) ↔
       members (left 2 "team:T2" carol demo_hub) r ≠ ∅.
Proof.
  apply (no_empty_rooms_invariant (RT := demoRuntime) demo_hub 2 "team:T2" 0%Z).
  - compute_done.
  - right. right. right. left. exists tt. vm_compute. reflexivity.
Defined.

Lemma leaveRoom_joinRoom_witness :
  ∃ s st', joinRoom 1 "channel:7" demo_hub = Ret tt s ∧
    leaveRoom 1 "channel:7" s = Ret tt st' ∧
    heap st' = heap demo_hub ∧ rooms st' = rooms demo_hub ∧
    clients st' = clients demo_hub ∧ broadcast st' = broadcast demo_hub.
Proof.
  apply (leaveRoom_joinRoom demo_hub 1 bob "channel:7").
  - vm_compute. reflexivity.
  - compute_done.
  - compute_done.
  - compute_done.
Defined.

Lemma joinRoom_idempotent_witness :
  ∃ s s', joinRoom 1 "channel:7" demo_hub = Ret tt s ∧
    joinRoom 1 "channel:7" s = Ret tt s' ∧
    heap s' = heap s ∧ rooms s' = rooms s ∧
    clients s' = clients s ∧ broadcast s' = broadcast s.
Proof.
  apply (joinRoom_idempotent demo_hub 1 bob "channel:7").
  vm_compute. reflexivity.
Defined.

Lemma leaveRoom_not_member_witness :
  ∃ st', leaveRoom 1 "channel:9" demo_hub = Ret tt st' ∧
    heap st' = heap demo_hub ∧ rooms st' = rooms demo_hub ∧
    clients st' = clients demo_hub ∧ broadcast st' = broadcast demo_hub.
Proof.
  apply (leaveRoom_not_member demo_hub 1 bob "channel:9").
  - vm_compute. reflexivity.
  - compute_done.
  - compute_done.
  - compute_done.
Defined.

Lemma SendToUser_exact_witness :
  ∃ st', SendToUser (RT := demoRuntime) "u2" chat_T1 demo_hub = Ret tt st' ∧
    ∀ (p : nat) cl, heap demo_hub !! p = Some cl →
      ∃ cl', heap st' !! p = Some cl' ∧
        buf (Send cl') =
          buf (Send cl) ++
          (if decide ((p ∈ registry_clients demo_hub ∧ UserID cl = "u2") ∧ has_room cl)
           then ["chat|team:T1|u2"] else []).
Proof.
  apply (SendToUser_exact (RT := demoRuntime) demo_hub "u2" chat_T1 "chat|team:T1|u2").
  - reflexivity.
  - compute_done.
  - compute_done.
Defined.

Lemma SendToTeam_delivers_witness :
  ∃ s st', SendToTeam "T1" chat_no_room demo_hub = Ret tt s ∧
    broadcast s = [set_Room ("team:" +:+ "T1") chat_no_room] ∧
    Run_broadcast (RT := demoRuntime) s = Ret tt st' ∧
    broadcast st' = [] ∧
    ∀ (p : nat) cl, heap demo_hub !! p = Some cl →
      ∃ cl', heap st' !! p = Some cl' ∧
        buf (Send cl') =
          buf (Send cl) ++
          (if decide (p ∈ members demo_hub ("team:" +:+ "T1") ∧ has_room cl)
           then ["chat|team:T1|anonymous"] else []).
Proof.
  apply (SendToTeam_delivers (RT := demoRuntime) demo_hub "T1" chat_no_room
           "chat|team:T1|anonymous").
  - reflexivity.
  - reflexivity.
  - compute_done.
Defined.

Lemma register_presence_delivered_witness :
  ∃ s st', registerClient 4 9%Z demo_accepted = Ret tt s ∧
    Run_broadcast (RT := demoRuntime) s = Ret tt st' ∧
    ∀ (p : nat) clp, heap demo_accepted !! p = Some clp →
      ∃ clp', heap st' !! p = Some clp' ∧
        buf (Send clp') =
          buf (Send clp) ++
          (if decide ((p = 4 ∨ p ∈ members demo_accepted ("team:" +:+ TeamID eve)) ∧ has_room clp)
           then ["presence|team:T1|u5"] else []).
Proof.
  apply (register_presence_delivered (RT := demoRuntime) demo_accepted 4 eve 9%Z
           "presence|team:T1|u5").
  - vm_compute. reflexivity.
  - reflexivity.
  - discriminate.
  - reflexivity.
  - compute_done.
  - reflexivity.
Defined.

Lemma broadcast_order_witness :
  ∃ s st', broadcastMessage (RT := demoRuntime) chat_T1 demo_hub = Ret tt s ∧
    broadcastMessage (RT := demoRuntime) task_T1 s = Ret tt st' ∧
    ∃ cl', heap st' !! 1 = Some cl' ∧
           buf (Send cl') = buf (Send bob) ++ ["chat|team:T1|u2"; "task_update|team:T1|u1"].
Proof.
  apply (broadcast_order (RT := demoRuntime) demo_hub chat_T1 task_T1).
  - reflexivity.
  - reflexivity.
  - compute_done.
  - compute_done.
  - compute_done.
  - compute_done.
  - compute_done.
  - vm_compute. reflexivity.
  - vm_compute. lia.
Defined.

Lemma unregisterClient_frame_witness :
  ∃ st', unregisterClient (RT := demoRuntime) 1 9%Z demo_hub = Ret tt st' ∧
    (∀ p, p ≠ 1 → heap st' !! p = heap demo_hub !! p) ∧
    (∀ p r, p ≠ 1 → (p ∈ members st' r ↔ p ∈ members demo_hub r)) ∧
    (∀ i, i ≠ ID bob → clients st' !! i = clients demo_hub !! i).
Proof.
  apply (unregisterClient_frame (RT := demoRuntime) demo_hub 1 bob 9%Z).
  - vm_compute. reflexivity.
  - vm_compute. eauto.
  - reflexivity.
  - vm_compute. lia.
Defined.

Lemma GetOnlineUsers_registered_witness :
  ∃ st', registerClient 4 9%Z demo_accepted = Ret tt st' ∧
         "u5" ∈ GetOnlineUsers "T1" st'.
Proof.
  apply (GetOnlineUsers_registered demo_accepted 4 eve 9%Z).
  - vm_compute. reflexivity.
  - discriminate.
  - vm_compute. lia.
Defined.

Lemma GetOnlineUsers_unregistered_witness :
  ∃ st', unregisterClient (RT := demoRuntime) 1 9%Z demo_hub = Ret tt st' ∧
    ∀ teamID (u : string),
      u ∈ GetOnlineUsers teamID st' ↔
      ∃ p clp, p ≠ 1 ∧ p ∈ members demo_hub ("team:" +:+ teamID) ∧
               heap demo_hub !! p = Some clp ∧ UserID clp = u.
Proof.
  apply (GetOnlineUsers_unregistered (RT := demoRuntime) demo_hub 1 bob 9%Z).
  - vm_compute. reflexivity.
  - vm_compute. eauto.
  - compute_done.
  - reflexivity.
  - vm_compute. lia.
Defined.

Lemma reused_id_orphans_client_witness :
  ∃ s1 s2 s3 cl2',
    registerClient 0 9%Z demo_twins = Ret tt s1 ∧
    registerClient 1 9%Z s1 = Ret tt s2 ∧
    clients s2 !! ID twin_b = Some 1 ∧
    unregisterClient (RT := demoRuntime) 0 9%Z s2 = Ret tt s3 ∧
    clients s3 !! ID twin_b = None ∧
    1 ∈ members s3 "global" ∧
    heap s3 !! 1 = Some cl2' ∧ closed (Send cl2') = closed (Send twin_b) ∧
    ∀ now', unregisterClient (RT := demoRuntime) 1 now' s3 = Ret tt s3.
Proof.
  apply (reused_id_orphans_client (RT := demoRuntime) demo_twins 0 1 twin_a twin_b 9%Z).
  - discriminate.
  - vm_compute. reflexivity.
  - vm_compute. reflexivity.
  - reflexivity.
  - reflexivity.
  - vm_compute. lia.
Defined.

Lemma accept_unregister_roundtrip_witness :
  ∃ c s st' cl',
    websocketHandler "c1" "u1" "T1" 1%Z NewHub = Ret c s ∧
    unregisterClient (RT := demoRuntime) c 2%Z s = Ret tt st' ∧
    clients st' = clients NewHub ∧
    rooms st' = rooms NewHub ∧
    (∀ p cl, heap NewHub !! p = Some cl → heap st' !! p = Some cl) ∧
    heap st' !! c = Some cl' ∧ closed (Send cl') = true ∧ Rooms cl' = ∅.
Proof.
  apply (accept_unregister_roundtrip (RT := demoRuntime) NewHub "c1" "u1" "T1" 1%Z 2%Z).
  - apply hub_wf_NewHub.
  - compute_done.
  - reflexivity.
  - vm_compute. lia.
Defined.

Lemma broadcastMessage_closed_recipient_witness :
  broadcastMessage (RT := demoRuntime) chat_T1 demo_stale = Panic "send on closed channel".
Proof.
  apply (broadcastMessage_closed_recipient (RT := demoRuntime) demo_stale chat_T1
           "chat|team:T1|u2" 1 (closed_Send bob)).
  - reflexivity.
  - intros q Hq. vm_compute in Hq.
    assert (q ∈ ({[0; 1]} : gset nat)) as Hq' by exact Hq.
    apply elem_of_union in Hq' as [->%elem_of_singleton | ->%elem_of_singleton];
      vm_compute; eauto.
  - compute_done.
  - vm_compute. reflexivity.
  - reflexivity.
Defined.

Ltac run_model := vm_compute; reflexivity.

Ltac fresh_ID :=
  let q := fresh "q" in let clq := fresh "clq" in let Hq := fresh "Hq" in
  intros q clq Hq;
  refine (map_Forall_lookup_1 (λ _ cl, ID cl ≠ _) _ q clq _ Hq); compute_done.

(** Two anonymous connections and the delivery of their presence
    envelopes are four steps of the server. *)
Example demo_lobby_is_served : served (RT := demoRuntime) demo_lobby.
Proof.
  unfold served, demo_lobby.
  eapply rtc_r; [eapply rtc_r; [eapply rtc_r; [eapply rtc_r; [apply rtc_refl |] |] |] |].
  - eapply (step_accept _ "c1" "anonymous" "" 1%Z 0); [fresh_ID | run_model].
  - eapply (step_accept _ "c2" "anonymous" "" 2%Z 1); [fresh_ID | run_model].
  - apply step_broadcast. run_model.
  - apply step_broadcast. run_model.
Qed.

Example demo_channel_reachable : reachable (RT := demoRuntime) demo_channel.
Proof.
  eapply rtc_r; [apply served_reachable, demo_lobby_is_served |].
  eapply (step_join _ 0 _ "channel:7"); run_model.
Qed.

Lemma reachable_safe_witness :
  rooms_agree demo_channel ∧ no_empty_rooms demo_channel ∧
  (∀ message, ∃ st', broadcastMessage (RT := demoRuntime) message demo_channel = Ret tt st') ∧
  (∀ userID message,
     ∃ st', SendToUser (RT := demoRuntime) userID message demo_channel = Ret tt st') ∧
  (∀ c cl now why, heap demo_channel !! c = Some cl →
     unregisterClient (RT := demoRuntime) c now demo_channel ≠ Panic why).
Proof. apply (reachable_safe (RT := demoRuntime) demo_channel), demo_channel_reachable. Defined.

Lemma ReadPump_forwards_witness :
  ∃ st' cl', ReadPump (RT := demoRuntime) 1 demo_frames 20%Z demo_hub = Ret tt st' ∧
    broadcast st' =
      broadcast demo_hub ++ omap (forwarded (RT := demoRuntime) bob) demo_frames ++
      [presenceMessage bob false 20%Z] ∧
    clients st' !! ID bob = None ∧
    heap st' !! 1 = Some cl' ∧ closed (Send cl') = true.
Proof.
  apply (ReadPump_forwards (RT := demoRuntime) demo_hub 1 bob demo_frames 20%Z).
  - vm_compute. reflexivity.
  - vm_compute. eauto.
  - reflexivity.
  - vm_compute. lia.
Defined.

Example demo_frames_forwarded :
  omap (forwarded (RT := demoRuntime) bob) demo_frames =
  [ {| Message.Type_ := "chat"; Message.Room := "team:T1"; Message.UserID := "u2";
       Message.Data := VNull; Message.Timestamp := 11%Z |};
    {| Message.Type_ := "typing"; Message.Room := "team:T1"; Message.UserID := "u2";
       Message.Data := VNull; Message.Timestamp := 14%Z |} ].
Proof. reflexivity. Qed.

Lemma broadcast_then_flush_witness :
  ∃ s st' cl',
    broadcastMessage (RT := demoRuntime) chat_T1 demo_queued = Ret tt s ∧
    WritePump_recv 1 true true s =
      Ret (WroteText (String.concat newline (buf (Send bob_queued) ++ ["chat|team:T1|u2"]))) st' ∧
    heap st' !! 1 = Some cl' ∧ buf (Send cl') = [].
Proof.
  apply (broadcast_then_flush (RT := demoRuntime) demo_queued chat_T1 "chat|team:T1|u2"
           1 bob_queued).
  - reflexivity.
  - compute_done.
  - intros H. vm_compute in H. discriminate H.
  - compute_done.
  - vm_compute. reflexivity.
  - vm_compute. lia.
Defined.

(** Three frames in one message: two line feeds, and no other character
    between the frames. *)
Example demo_queued_payload :
  String.concat newline (buf (Send bob_queued) ++ ["chat|team:T1|u2"]) =
  "chat|team:T1|u2" +:+ String (ascii_of_nat 10)
    ("chat|team:T1|u2" +:+ String (ascii_of_nat 10) "chat|team:T1|u2") ∧
  String.length (String.concat newline (buf (Send bob_queued) ++ ["chat|team:T1|u2"])) = 47.
Proof. split; reflexivity. Qed.

Lemma unregister_then_drain_witness :
  ∃ s cl1, unregisterClient (RT := demoRuntime) 1 9%Z demo_queued = Ret tt s ∧
    heap s !! 1 = Some cl1 ∧ buf (Send cl1) = buf (Send bob_queued) ∧
    closed (Send cl1) = true ∧
    (buf (Send bob_queued) = [] →
       ∀ writer_ok close_ok, WritePump_recv 1 writer_ok close_ok s = Ret WroteClose s) ∧
    (∀ first waiting, buf (Send bob_queued) = first :: waiting →
       (∃ s' cl2,
          WritePump_recv 1 true true s =
            Ret (WroteText (String.concat newline (first :: waiting))) s' ∧
          heap s' !! 1 = Some cl2 ∧ buf (Send cl2) = [] ∧
          ∀ writer_ok close_ok, WritePump_recv 1 writer_ok close_ok s' = Ret WroteClose s') ∧
       (∃ s' cl2,
          WritePump_recv 1 true false s = Ret WriteFailed s' ∧
          heap s' !! 1 = Some cl2 ∧ buf (Send cl2) = []) ∧
       (∀ close_ok, ∃ s' cl2,
          WritePump_recv 1 false close_ok s = Ret WriteFailed s' ∧
          heap s' !! 1 = Some cl2 ∧ buf (Send cl2) = waiting)).
Proof.
  apply (unregister_then_drain (RT := demoRuntime) demo_queued 1 bob_queued 9%Z).
  - vm_compute. reflexivity.
  - vm_compute. eauto.
  - reflexivity.
  - vm_compute. lia.
Defined.

Lemma SendMessage_outcomes_witness :
  (has_room bob →
     SendMessage (RT := demoRuntime) 1 chat_T1 demo_hub =
     Ret None (with_heap <[1 := set_Send (chan_push "chat|team:T1|u2" (Send bob)) bob]> demo_hub)) ∧
  (¬ has_room bob →
     SendMessage (RT := demoRuntime) 1 chat_T1 demo_hub = Ret (Some ErrCloseSent) demo_hub) ∧
  (registered demo_hub bob → length (broadcast demo_hub) < broadcastCap →
     ∃ s, unregisterClient (RT := demoRuntime) 1 9%Z demo_hub = Ret tt s ∧
          SendMessage (RT := demoRuntime) 1 chat_T1 s = Panic "send on closed channel").
Proof.
  apply (SendMessage_outcomes (RT := demoRuntime) demo_hub 1 bob chat_T1 "chat|team:T1|u2" 9%Z).
  - reflexivity.
  - vm_compute. reflexivity.
  - reflexivity.
Defined.

Lemma anonymous_connection_registered_witness :
  ∃ c st' cl m,
    websocketHandler_auth (λ _, None) (λ _, None) "c7" request_none 1%Z NewHub = Ret c st' ∧
    clients st' !! "c7" = Some c ∧
    heap st' !! c = Some cl ∧
    UserID cl = "anonymous" ∧ TeamID cl = "" ∧ Rooms cl = {["global"]} ∧
    c ∈ members st' "global" ∧
    broadcast st' = broadcast NewHub ++ [m] ∧
    Message.Room m = "" ∧ Message.UserID m = "anonymous".
Proof.
  apply (anonymous_connection_registered NewHub (λ _, None) (λ _, None) "c7" request_none 1%Z).
  - left. reflexivity.
  - vm_compute. lia.
Defined.

Lemma token_precedence_witness :
  extractToken request_both = "H" ∧ wsToken request_both = "Q".
Proof.
  destruct (token_precedence (λ _, None) (λ _, None) (λ _, None) request_both)
    as (H1 & _ & H2 & _).
  - reflexivity.
  - discriminate.
  - split; [exact H1 | exact H2].
Defined.

Lemma Authenticate_gate_witness :
  Authenticate (λ _, None) request_none = Unauthorized "Missing authentication token".
Proof.
  apply (proj2 (Authenticate_gate (λ _, None) request_none)); reflexivity.
Defined.

(** ** Clients without a team, on the example *)

(** C9, counterexample.  Two connections without a token are registered
    with an empty team ID.  The first sends a chat frame that names no
    room: the envelope is queued with room "team:", of which neither
    connection is a member, and when [Run] delivers it no queue changes —
    the other teamless client does not get it, and neither does anybody
    else. *)
Lemma teamless_chat_reaches_nobody :
  ∃ cl0 cl1 m,
    heap demo_lobby !! 0 = Some cl0 ∧ heap demo_lobby !! 1 = Some cl1 ∧
    TeamID cl0 = "" ∧ TeamID cl1 = "" ∧
    clients demo_lobby = {[ "c1" := 0; "c2" := 1 ]} ∧
    Rooms cl0 = {["global"]} ∧ Rooms cl1 = {["global"]} ∧
    ReadPump_frame (RT := demoRuntime) 0 3%Z "chat||anonymous" demo_lobby =
      Ret tt demo_lobby_chat ∧
    broadcast demo_lobby_chat = [m] ∧
    Message.Type_ m = "chat" ∧ Message.Room m = "team:" ∧
    members demo_lobby_chat "team:" = ∅ ∧
    Run_broadcast (RT := demoRuntime) demo_lobby_chat = Ret tt demo_lobby_delivered ∧
    broadcast demo_lobby_delivered = [] ∧
    heap demo_lobby_delivered = heap demo_lobby.
Proof.
  eexists _, _, _.
  repeat (split; [vm_compute; reflexivity |]). vm_compute. reflexivity.
Qed.

Lemma teamless_routing_witness :
  handleMessage 0 chat_no_room demo_lobby =
    Ret tt (with_broadcast (λ q, q ++ [set_Room "team:" chat_no_room]) demo_lobby) ∧
  Message.Room (set_Room "team:" chat_no_room) = "team:" ∧
  (∀ s data,
     marshal (Runtime := demoRuntime) (set_Room "team:" chat_no_room) = Some data →
     ready s (members s "team:") →
     ∃ s', broadcastMessage (RT := demoRuntime) (set_Room "team:" chat_no_room) s = Ret tt s' ∧
       ∀ (p : nat) clp, heap s !! p = Some clp →
         ∃ clp', heap s' !! p = Some clp' ∧
           buf (Send clp') =
             buf (Send clp) ++
             (if decide (p ∈ members s "team:" ∧ has_room clp) then [data] else [])) ∧
  (∀ s, served (RT := demoRuntime) s →
     members s "team:" = ∅ ∧
     (∀ p clp, heap s !! p = Some clp → "team:" ∉ Rooms clp) ∧
     ∀ data, marshal (Runtime := demoRuntime) (set_Room "team:" chat_no_room) = Some data →
       broadcastMessage (RT := demoRuntime) (set_Room "team:" chat_no_room) s = Ret tt s).
Proof.
  apply (teamless_routing (RT := demoRuntime) demo_lobby 0
           {| ID := "c1"; UserID := "anonymous"; TeamID := "";
              Send := {| buf := ["presence||anonymous"; "presence||anonymous"];
                         cap := 256; closed := false |};
              Rooms := {["global"]} |} chat_no_room).
  - vm_compute. reflexivity.
  - reflexivity.
  - vm_compute. lia.
  - left. split; reflexivity.
Defined.
